(** * NanoGUI (Pugl port): fixed-size linear algebra and the Screen event funnel

    A shallow embedding of [include/nanogui/vector.h],
    [include/nanogui/matrix.h] and [src/screen.cpp], with the properties the
    specification states about them. *)

From Stdlib Require Import ZArith Lia.
From stdpp Require Import base option list strings.

Local Open Scope nat_scope.

(** ** Counted loops

    [for (int i = 0; i < n; ++i) body] over an explicit loop state. *)

Definition for_loop {S : Type} (n : nat) (body : nat -> S -> S) (s : S) : S :=
  fold_left (fun acc i => body i acc) (seq 0 n) s.

Lemma for_loop_S {S : Type} (n : nat) (body : nat -> S -> S) (s : S) :
  for_loop (Datatypes.S n) body s = body n (for_loop n body s).
Proof.
  unfold for_loop. rewrite seq_S, fold_left_app. reflexivity.
Qed.

Lemma for_loop_ind {S : Type} (Inv : nat -> S -> Prop) n body (s : S) :
  Inv 0 s ->
  (forall i acc, i < n -> Inv i acc -> Inv (Datatypes.S i) (body i acc)) ->
  Inv n (for_loop n body s).
Proof.
  intros H0 Hstep. induction n as [|n IH].
  - exact H0.
  - rewrite for_loop_S. apply Hstep; [lia|].
    apply IH. intros i acc Hi. apply Hstep. lia.
Qed.

Lemma for_loop_rule {S : Type} (Inv : nat -> S -> Prop) (Q : S -> Prop) n body (s : S) :
  Inv 0 s ->
  (forall i acc, i < n -> Inv i acc -> Inv (Datatypes.S i) (body i acc)) ->
  (forall acc, Inv n acc -> Q acc) ->
  Q (for_loop n body s).
Proof.
  intros H0 Hstep Hpost. apply Hpost, for_loop_ind; assumption.
Qed.

(** [for (int i = start; i < stop; ++i) body] *)
Definition for_range {S : Type} (start stop : nat) (body : nat -> S -> S) (s : S)
    : S :=
  fold_left (fun acc i => body i acc) (seq start (stop - start)) s.

Lemma for_range_empty {S : Type} (start stop : nat) (body : nat -> S -> S) (s : S) :
  stop <= start -> for_range start stop body s = s.
Proof.
  intros H. unfold for_range. by replace (stop - start) with 0 by lia.
Qed.

Lemma for_range_S {S : Type} (start stop : nat) (body : nat -> S -> S) (s : S) :
  start <= stop ->
  for_range start (Datatypes.S stop) body s
  = body stop (for_range start stop body s).
Proof.
  intros H. unfold for_range.
  replace (Datatypes.S stop - start) with (Datatypes.S (stop - start)) by lia.
  rewrite seq_S, fold_left_app. simpl.
  by replace (start + (stop - start)) with stop by lia.
Qed.

Lemma for_loop_range {S : Type} (n : nat) (body : nat -> S -> S) (s : S) :
  for_loop n body s = for_range 0 n body s.
Proof. unfold for_loop, for_range. by rewrite Nat.sub_0_r. Qed.

Lemma for_range_rule {S : Type} (Inv : nat -> S -> Prop) (Q : S -> Prop)
    (start stop : nat) (body : nat -> S -> S) (s : S) :
  start <= stop ->
  Inv start s ->
  (forall i acc, start <= i < stop -> Inv i acc -> Inv (Datatypes.S i) (body i acc)) ->
  (forall acc, Inv stop acc -> Q acc) ->
  Q (for_range start stop body s).
Proof.
  intros Hle H0 Hstep Hpost. apply Hpost. clear Hpost.
  induction stop as [|stop IH].
  - assert (start = 0) as -> by lia. by rewrite for_range_empty.
  - destruct (decide (start = Datatypes.S stop)) as [->|Hne].
    + by rewrite for_range_empty.
    + rewrite for_range_S by lia. apply Hstep; [lia|].
      apply IH; [lia|]. intros i acc Hi. apply Hstep. lia.
Qed.

Lemma for_range_first {S : Type} (stop : nat) (body : nat -> S -> S) (s : S) :
  0 < stop -> for_range 0 stop body s = for_range 1 stop body (body 0 s).
Proof.
  intros H. unfold for_range. destruct stop as [|stop]; [lia|].
  by rewrite Nat.sub_0_r, (Nat.sub_succ stop 0), Nat.sub_0_r.
Qed.

Lemma for_range_ext {S : Type} (start stop : nat) (body1 body2 : nat -> S -> S)
    (s : S) :
  (forall i acc, start <= i < stop -> body1 i acc = body2 i acc) ->
  for_range start stop body1 s = for_range start stop body2 s.
Proof.
  intros Hext. induction stop as [|stop IH].
  - by rewrite !for_range_empty by lia.
  - destruct (decide (start <= stop)) as [Hle|Hgt].
    + rewrite !for_range_S by exact Hle.
      rewrite IH by (intros; apply Hext; lia). apply Hext. lia.
    + by rewrite !for_range_empty by lia.
Qed.

(** ** vector.h and matrix.h *)

Module Linalg.
Section Templates.

(** The scalar type [T] of the templates, with the values that the literals
    [0] and [1] convert to and the operators the code applies to it. *)
Context {T : Type}.
Variables (zero one : T) (add mul : T -> T -> T).

#[local] Instance T_inhabited : Inhabited T := populate zero.

(** [T mElems[n]]: the elements in index order. *)
Abbreviation Vector := (list T) (only parsing).

(** [explicit Vector(T val = 0)] *)
Definition Vector_fill (n : nat) (val : T) : Vector := replicate n val.

(** [template<int i, enable_if<isgreater(n, i)>> get()]: instantiable only
    when [i < n]; [None] stands for the rejected instantiation. *)
Definition get (n i : nat) (v : Vector) : option T :=
  if decide (i < n) then v !! i else None.

Definition x (n : nat) (v : Vector) : option T := get n 0 v.
Definition y (n : nat) (v : Vector) : option T := get n 1 v.
Definition z (n : nat) (v : Vector) : option T := get n 2 v.
(** [template<int i=3> const T& w() const { return get<2>(); }] *)
Definition w (n : nat) (v : Vector) : option T := get n 2 v.

(** [operator[]]; an index out of range is never read by the code below. *)
Definition elem (v : Vector) (i : nat) : T := v !!! i.

(** [combine<Op>(rhs)]: [Vector<T, n> out;] then [out.mElems[i] =
    Op()(mElems[i], rhs[i])] for each index. *)
Definition combine (n : nat) (Op : T -> T -> T) (mElems rhs : Vector) : Vector :=
  for_loop n (fun i out => <[i := Op (elem mElems i) (elem rhs i)]> out)
    (Vector_fill n zero).

(** [apply<Op>(rhs)]: the same, in place. *)
Definition apply_op (n : nat) (Op : T -> T -> T) (mElems rhs : Vector) : Vector :=
  for_loop n (fun i mElems => <[i := Op (elem mElems i) (elem rhs i)]> mElems)
    mElems.

(** [operator==]: false at the first index where [mElems[i] != rhs[i]],
    with [ne] for [T]'s [operator!=]. *)
Definition equal (ne : T -> T -> bool) (n : nat) (mElems rhs : Vector) : bool :=
  forallb (fun i => negb (ne (elem mElems i) (elem rhs i))) (seq 0 n).

(** [Row mRows[R]] with [Row = Vector<T, C>]. *)
Abbreviation Matrix := (list (list T)) (only parsing).

Definition wf_matrix (R C : nat) (m : Matrix) : Prop :=
  length m = R /\ forall r row, m !! r = Some row -> length row = C.

(** [Matrix() {}]: every row is default-constructed by [Vector(T val = 0)]. *)
Definition Matrix_default (R C : nat) : Matrix :=
  replicate R (Vector_fill C zero).

(** [m[r][c]] read and written through [operator[]]. *)
Definition at_ (m : Matrix) (r c : nat) : T := (m !!! r) !!! c.
Definition set_at (m : Matrix) (r c : nat) (v : T) : Matrix :=
  <[r := <[c := v]> (m !!! r)]> m.

Definition setZero (R C : nat) (m : Matrix) : Matrix :=
  for_loop R (fun r m => for_loop C (fun c m => set_at m r c zero) m) m.

Definition setIdentity (R C : nat) (m : Matrix) : Matrix :=
  for_loop (Nat.min R C) (fun i m => set_at m i i one) (setZero R C m).

(** [Matrix<T, R, P> operator*(const Matrix<T, C, P>& rhs)] *)
Definition mat_mul (R C P : nat) (mRows rhs : Matrix) : Matrix :=
  for_loop R (fun i out =>
    for_loop P (fun j out =>
      for_loop C (fun k out =>
        set_at out i j (add (at_ out i j) (mul (at_ mRows i k) (at_ rhs k j))))
      out) out)
    (Matrix_default R P).

(** *** Element-wise reasoning about matrices *)

Lemma wf_row R C m r : wf_matrix R C m -> r < R -> length (m !!! r) = C.
Proof.
  intros [Hlen Hrows] Hr. eapply (Hrows r).
  apply list_lookup_lookup_total_lt. lia.
Qed.

Lemma wf_set_at R C m r c v : wf_matrix R C m -> wf_matrix R C (set_at m r c v).
Proof.
  intros Hwf. pose proof Hwf as [Hlen Hrows]. unfold set_at. split.
  - rewrite length_insert. exact Hlen.
  - intros r' row Hrow.
    apply list_lookup_insert_Some in Hrow as [(-> & <- & Hr)|[_ Hrow]].
    + rewrite length_insert. apply (wf_row R C); [exact Hwf | lia].
    + eapply Hrows, Hrow.
Qed.

Lemma at_set_at R C m r c v r' c' :
  wf_matrix R C m -> r < R -> c < C ->
  at_ (set_at m r c v) r' c' =
    if decide (r = r' /\ c = c') then v else at_ m r' c'.
Proof.
  intros Hwf Hr Hc. pose proof Hwf as [Hlen _]. unfold at_, set_at.
  destruct (decide (r = r')) as [<-|Hne].
  - rewrite list_lookup_total_insert_eq by lia.
    destruct (decide (c = c')) as [<-|Hnc].
    + rewrite list_lookup_total_insert_eq
        by (rewrite (wf_row R C) by assumption; lia).
      rewrite decide_True by done. reflexivity.
    + rewrite list_lookup_total_insert_ne by done.
      rewrite decide_False by (intros [_ ?]; done). reflexivity.
  - rewrite list_lookup_total_insert_ne by done.
    rewrite decide_False by (intros [? _]; done). reflexivity.
Qed.

Lemma matrix_ext R C m1 m2 :
  wf_matrix R C m1 -> wf_matrix R C m2 ->
  (forall r c, r < R -> c < C -> at_ m1 r c = at_ m2 r c) ->
  m1 = m2.
Proof.
  intros Hwf1 Hwf2 Hat.
  pose proof Hwf1 as [Hl1 Hr1]. pose proof Hwf2 as [Hl2 Hr2].
  apply (list_eq_same_length _ _ R); [done..|].
  intros r row1 row2 Hr Hrow1 Hrow2.
  apply (list_eq_same_length _ _ C); [eauto..|].
  intros c e1 e2 Hc He1 He2.
  specialize (Hat r c Hr Hc). unfold at_ in Hat.
  rewrite (list_lookup_total_correct _ _ _ Hrow1) in Hat.
  rewrite (list_lookup_total_correct _ _ _ Hrow2) in Hat.
  rewrite (list_lookup_total_correct _ _ _ He1) in Hat.
  rewrite (list_lookup_total_correct _ _ _ He2) in Hat.
  exact Hat.
Qed.

Lemma wf_Matrix_default R C : wf_matrix R C (Matrix_default R C).
Proof.
  unfold Matrix_default, Vector_fill. split.
  - apply length_replicate.
  - intros r row Hrow. apply lookup_replicate in Hrow as [-> _].
    apply length_replicate.
Qed.

Lemma at_Matrix_default R C r c :
  r < R -> c < C -> at_ (Matrix_default R C) r c = zero.
Proof.
  intros Hr Hc. unfold at_, Matrix_default, Vector_fill.
  rewrite (list_lookup_total_correct _ _ _ (lookup_replicate_2 _ _ _ Hr)).
  apply list_lookup_total_correct, lookup_replicate_2, Hc.
Qed.

(** *** [setZero] and [setIdentity] *)

Lemma setZero_spec R C m :
  wf_matrix R C m ->
  wf_matrix R C (setZero R C m) /\
  forall r c, r < R -> c < C -> at_ (setZero R C m) r c = zero.
Proof.
  intros Hwf. unfold setZero.
  apply (for_loop_rule (fun i o =>
           wf_matrix R C o /\ forall r c, r < i -> c < C -> at_ o r c = zero));
    [split; [exact Hwf | intros; lia] | | done].
  intros i o Hi [Hwfo Ho].
  apply (for_loop_rule (fun j o' =>
           wf_matrix R C o' /\
           forall r c, (r < i /\ c < C) \/ (r = i /\ c < j) -> at_ o' r c = zero)).
  - split; [exact Hwfo|]. intros r c [[? ?]|[_ ?]]; [auto | lia].
  - intros j o' Hj [Hwfo' Ho']. split; [apply wf_set_at, Hwfo'|].
    intros r c Hrc. rewrite (at_set_at R C) by assumption.
    case_decide as Heq; [reflexivity|].
    apply Ho'. destruct Hrc as [?|[-> Hc]]; [by left | right].
    split; [done|]. destruct (decide (c = j)) as [->|]; [tauto | lia].
  - intros o' [Hwfo' Ho']. split; [exact Hwfo'|].
    intros r c Hr Hc. apply Ho'.
    destruct (decide (r = i)) as [->|]; [by right | left; lia].
Qed.

Lemma setIdentity_spec n m :
  wf_matrix n n m ->
  wf_matrix n n (setIdentity n n m) /\
  forall r c, r < n -> c < n ->
    at_ (setIdentity n n m) r c = if decide (r = c) then one else zero.
Proof.
  intros Hwf. destruct (setZero_spec n n m Hwf) as [Hwfz Hz].
  unfold setIdentity. rewrite Nat.min_id.
  apply (for_loop_rule (fun i o =>
           wf_matrix n n o /\
           forall r c, r < n -> c < n ->
             at_ o r c = if decide (r = c /\ r < i) then one else zero)).
  - split; [exact Hwfz|]. intros r c Hr Hc.
    rewrite decide_False by lia. by apply Hz.
  - intros i o Hi [Hwfo Ho]. split; [apply wf_set_at, Hwfo|].
    intros r c Hr Hc. rewrite (at_set_at n n) by assumption.
    rewrite Ho by assumption. repeat case_decide; try reflexivity; lia.
  - intros o [Hwfo Ho]. split; [exact Hwfo|].
    intros r c Hr Hc. rewrite Ho by assumption.
    repeat case_decide; try reflexivity; lia.
Qed.

(** *** [operator*]: every entry is the accumulated row-by-column sum *)

Definition dot_from (mRows rhs : Matrix) (i j C : nat) (init : T) : T :=
  for_loop C (fun k acc => add acc (mul (at_ mRows i k) (at_ rhs k j))) init.

Lemma mat_mul_inner R P C mRows rhs i j out :
  wf_matrix R P out -> i < R -> j < P ->
  let out' :=
    for_loop C (fun k out =>
      set_at out i j (add (at_ out i j) (mul (at_ mRows i k) (at_ rhs k j)))) out in
  wf_matrix R P out' /\
  at_ out' i j = dot_from mRows rhs i j C (at_ out i j) /\
  forall r c, ~ (i = r /\ j = c) -> at_ out' r c = at_ out r c.
Proof.
  intros Hwf Hi Hj out'. subst out'. unfold dot_from.
  apply (for_loop_ind (fun k o =>
    wf_matrix R P o /\
    at_ o i j =
      for_loop k (fun k acc => add acc (mul (at_ mRows i k) (at_ rhs k j)))
        (at_ out i j) /\
    forall r c, ~ (i = r /\ j = c) -> at_ o r c = at_ out r c)).
  - done.
  - intros k o Hk (Hwfo & Hij & Hframe). split; [apply wf_set_at, Hwfo|]. split.
    + rewrite (at_set_at R P) by assumption.
      rewrite decide_True by done. rewrite for_loop_S, Hij. reflexivity.
    + intros r c Hne. rewrite (at_set_at R P) by assumption.
      rewrite decide_False by exact Hne. by apply Hframe.
Qed.

Lemma mat_mul_spec R C P mRows rhs :
  wf_matrix R P (mat_mul R C P mRows rhs) /\
  forall i j, i < R -> j < P ->
    at_ (mat_mul R C P mRows rhs) i j = dot_from mRows rhs i j C zero.
Proof.
  unfold mat_mul.
  apply (for_loop_rule (fun n o =>
    wf_matrix R P o /\
    forall i j, j < P ->
      at_ o i j = if decide (i < n) then dot_from mRows rhs i j C zero
                  else at_ (Matrix_default R P) i j)).
  - split; [apply wf_Matrix_default|]. intros i j _.
    by rewrite decide_False by lia.
  - intros n o Hn [Hwfo Ho].
    apply (for_loop_rule (fun p o' =>
      wf_matrix R P o' /\
      forall i j, j < P ->
        at_ o' i j =
          if decide (i < n \/ (i = n /\ j < p))
          then dot_from mRows rhs i j C zero
          else at_ (Matrix_default R P) i j)).
    + split; [exact Hwfo|]. intros i j Hj. rewrite Ho by assumption.
      repeat case_decide; try reflexivity; lia.
    + intros p o' Hp [Hwfo' Ho'].
      destruct (mat_mul_inner R P C mRows rhs n p o' Hwfo' Hn Hp)
        as (Hwf'' & Hnp & Hframe).
      split; [exact Hwf''|]. intros i j Hj.
      destruct (decide (n = i /\ p = j)) as [[<- <-]|Hne].
      * rewrite Hnp, Ho' by assumption.
        rewrite decide_False by lia. rewrite decide_True by lia.
        rewrite at_Matrix_default by assumption. reflexivity.
      * rewrite Hframe by exact Hne. rewrite Ho' by assumption.
        repeat case_decide; try reflexivity; lia.
    + intros o' [Hwfo' Ho']. split; [exact Hwfo'|].
      intros i j Hj. rewrite Ho' by assumption.
      repeat case_decide; try reflexivity; lia.
  - intros o [Hwf Hat]. split; [exact Hwf|]. intros i j Hi Hj.
    rewrite Hat by assumption. by rewrite decide_True.
Qed.

(** *** The named accessors *)

(** C8: on a vector of more than two elements [w()] yields the element at
    index 2, the one [z()] yields, and so differs from the element at
    index 3 whenever that one differs from the element at index 2. *)
Theorem w_is_element_2 (n : nat) (v : Vector) :
  length v = n -> 2 < n ->
  exists e, v !! 2 = Some e /\ w n v = Some e /\ w n v = z n v /\
            forall e3, v !! 3 = Some e3 -> e3 <> e -> w n v <> v !! 3.
Proof.
  intros Hlen Hn.
  destruct (lookup_lt_is_Some_2 v 2) as [e He]; [lia|].
  exists e. unfold w, z, get. rewrite decide_True by exact Hn.
  repeat split; try assumption.
  intros e3 He3 Hne. rewrite He, He3. congruence.
Qed.

(** *** Multiplication by the identity, over an exact scalar type *)

Section Exact.
Hypothesis add_zero_l : forall a, add zero a = a.
Hypothesis add_zero_r : forall a, add a zero = a.
Hypothesis mul_one_l : forall a, mul one a = a.
Hypothesis mul_zero_l : forall a, mul zero a = zero.

Lemma dot_identity_row n I rhs i j :
  i < n ->
  (forall k, k < n -> at_ I i k = if decide (i = k) then one else zero) ->
  dot_from I rhs i j n zero = at_ rhs i j.
Proof.
  intros Hi HI. unfold dot_from.
  apply (for_loop_rule (fun k acc =>
           acc = if decide (i < k) then at_ rhs i j else zero)).
  - by rewrite decide_False by lia.
  - intros k acc Hk ->. rewrite HI by exact Hk.
    destruct (decide (i = k)) as [<-|Hne].
    + rewrite decide_False by lia. rewrite decide_True by lia.
      by rewrite mul_one_l, add_zero_l.
    + rewrite mul_zero_l, add_zero_r.
      repeat case_decide; try reflexivity; lia.
  - intros acc ->. by rewrite decide_True.
Qed.

(** C7: the C-by-C matrix obtained by [setZero] then [setIdentity],
    multiplied from the left onto any C-by-P matrix, gives that matrix. *)
Theorem identity_mul_left (C P : nat) (m0 M : Matrix) :
  wf_matrix C C m0 -> wf_matrix C P M ->
  mat_mul C C P (setIdentity C C (setZero C C m0)) M = M.
Proof.
  intros Hwf0 HwfM.
  destruct (setZero_spec C C m0 Hwf0) as [Hwfz _].
  destruct (setIdentity_spec C (setZero C C m0) Hwfz) as [_ HI].
  destruct (mat_mul_spec C C P (setIdentity C C (setZero C C m0)) M)
    as [Hwfp Hat].
  apply (matrix_ext C P); [exact Hwfp | exact HwfM |].
  intros r c Hr Hc. rewrite Hat by assumption.
  apply dot_identity_row; [exact Hr|].
  intros k Hk. by apply HI.
Qed.
End Exact.

(** *** The other members of [Vector] *)

(** [combine<Op>(T val)] *)
Definition combine_scalar (n : nat) (Op : T -> T -> T) (mElems : Vector) (val : T)
    : Vector :=
  for_loop n (fun i out => <[i := Op (elem mElems i) val]> out)
    (Vector_fill n zero).

(** A [bool] stored into a [T]. *)
Definition of_bool (b : bool) : T := if b then one else zero.

(** [compare<Comp>(T val)] and [compare<Comp>(rhs)] *)
Definition compare_scalar (n : nat) (Comp : T -> T -> bool) (mElems : Vector)
    (val : T) : Vector :=
  for_loop n (fun i out => <[i := of_bool (Comp (elem mElems i) val)]> out)
    (Vector_fill n zero).
Definition compare (n : nat) (Comp : T -> T -> bool) (mElems rhs : Vector)
    : Vector :=
  for_loop n (fun i out => <[i := of_bool (Comp (elem mElems i) (elem rhs i))]> out)
    (Vector_fill n zero).

(** [any()] and [all()]: an element counts as true when it is not zero. *)
Definition any `{EqDecision T} (n : nat) (mElems : Vector) : bool :=
  existsb (fun i => bool_decide (elem mElems i <> zero)) (seq 0 n).
Definition all `{EqDecision T} (n : nat) (mElems : Vector) : bool :=
  forallb (fun i => bool_decide (elem mElems i <> zero)) (seq 0 n).

(** [operator!=] *)
Definition not_equal (ne : T -> T -> bool) (n : nat) (mElems rhs : Vector)
    : bool :=
  negb (equal ne n mElems rhs).

(** [reduce(op)]: [T out = mElems[0];] then the indices from 1. *)
Definition reduce (n : nat) (op : T -> T -> T) (mElems : Vector) : T :=
  for_range 1 n (fun i out => op out (elem mElems i)) (elem mElems 0).

Definition sum (n : nat) (mElems : Vector) : T := reduce n add mElems.
Definition prod (n : nat) (mElems : Vector) : T := reduce n mul mElems.

(** [dot(rhs)] *)
Definition dot (n : nat) (mElems rhs : Vector) : T :=
  for_loop n (fun i out => add out (mul (elem mElems i) (elem rhs i))) zero.

(** [cwiseProduct(rhs)] is [operator*(rhs)]. *)
Definition cwiseProduct (n : nat) (mElems rhs : Vector) : Vector :=
  combine n mul mElems rhs.

(** [unaryExpr(op)]: [Vector<T, n> out;] then the indices from 1. *)
Definition unaryExpr (n : nat) (op : T -> T) (mElems : Vector) : Vector :=
  for_range 1 n (fun i out => <[i := op (elem mElems i)]> out)
    (Vector_fill n zero).

(** [head<m>()] *)
Definition head (m n : nat) (mElems : Vector) : Vector :=
  for_loop (Nat.min m n) (fun i out => <[i := elem mElems i]> out)
    (Vector_fill m zero).

(** *** The other members of [Matrix] *)

(** [topLeftCorner<OR, OC>()] *)
Definition topLeftCorner (OR OC R C : nat) (mRows : Matrix) : Matrix :=
  for_loop (Nat.min R OR) (fun r out =>
    for_loop (Nat.min C OC) (fun c out => set_at out r c (at_ mRows r c)) out)
    (Matrix_default OR OC).

(** [setColumn(col, vals)] with [vals] a [Vector<T, D>] *)
Definition setColumn (D R : nat) (col : nat) (vals : Vector) (mRows : Matrix)
    : Matrix :=
  for_loop (Nat.min R D) (fun r mRows => set_at mRows r col (elem vals r)) mRows.

(** [col(c)] *)
Definition col (R : nat) (c : nat) (mRows : Matrix) : Vector :=
  for_loop R (fun r out => <[r := at_ mRows r c]> out) (Vector_fill R zero).

(** [operator*(T factor)] *)
Definition scale (R C : nat) (mRows : Matrix) (factor : T) : Matrix :=
  for_loop R (fun r o =>
    for_loop C (fun c o => set_at o r c (mul (at_ mRows r c) factor)) o)
    (Matrix_default R C).

(** [set<i>(first, rest...)]: the rest first, then [mRows[i / C][i % C] =
    first]. *)
Fixpoint set_args (C i : nat) (args : list T) (mRows : Matrix) : Matrix :=
  match args with
  | [] => mRows
  | first :: rest =>
      set_at (set_args C (S i) rest mRows) (i / C) (i mod C) first
  end.

(** [Matrix(Args&&... args)], instantiable for [R * C] arguments. *)
Definition Matrix_of_args (R C : nat) (args : list T) : option Matrix :=
  if decide (length args = R * C /\ 0 < R * C)
  then Some (set_args C 0 args (Matrix_default R C))
  else None.

(** *** Loops that fill a vector index by index *)

Lemma for_range_fill (g : nat -> T -> T) (start stop : nat) (init : Vector) :
  stop <= length init ->
  length (for_range start stop (fun i acc => <[i := g i (elem acc i)]> acc) init)
  = length init /\
  forall i,
    elem (for_range start stop (fun i acc => <[i := g i (elem acc i)]> acc) init) i
    = if decide (start <= i < stop) then g i (elem init i) else elem init i.
Proof.
  induction stop as [|stop IH]; intros Hlen.
  - rewrite for_range_empty by lia. split; [done|].
    intros i. by rewrite decide_False by lia.
  - destruct (decide (start <= stop)) as [Hle|Hgt].
    + rewrite for_range_S by exact Hle.
      destruct IH as [IHlen IHelem]; [lia|].
      split; [by rewrite length_insert|].
      intros i. unfold elem at 1. destruct (decide (i = stop)) as [->|Hne].
      * rewrite list_lookup_total_insert_eq by lia.
        rewrite IHelem. rewrite decide_False by lia. by rewrite decide_True by lia.
      * rewrite list_lookup_total_insert_ne by done.
        fold (elem (for_range start stop
                      (fun i acc => <[i := g i (elem acc i)]> acc) init) i).
        rewrite IHelem. repeat case_decide; try reflexivity; lia.
    + rewrite for_range_empty by lia. split; [done|].
      intros i. by rewrite decide_False by lia.
Qed.

Lemma for_loop_fill (g : nat -> T -> T) (n : nat) (init : Vector) :
  n <= length init ->
  length (for_loop n (fun i acc => <[i := g i (elem acc i)]> acc) init)
  = length init /\
  forall i,
    elem (for_loop n (fun i acc => <[i := g i (elem acc i)]> acc) init) i
    = if decide (i < n) then g i (elem init i) else elem init i.
Proof.
  intros Hlen. rewrite for_loop_range.
  destruct (for_range_fill g 0 n init Hlen) as [Hl He]. split; [exact Hl|].
  intros i. rewrite He. repeat case_decide; try reflexivity; lia.
Qed.

Lemma elem_fill (n : nat) (val : T) (i : nat) :
  i < n -> elem (Vector_fill n val) i = val.
Proof.
  intros Hi. unfold elem, Vector_fill.
  apply list_lookup_total_correct, lookup_replicate_2, Hi.
Qed.

Lemma vector_ext (n : nat) (a b : Vector) :
  length a = n -> length b = n ->
  (forall i, i < n -> elem a i = elem b i) -> a = b.
Proof.
  intros Ha Hb Hab. apply (list_eq_same_length _ _ n); [done..|].
  intros i x y Hi Hx Hy. specialize (Hab i Hi). unfold elem in Hab.
  rewrite (list_lookup_total_correct _ _ _ Hx) in Hab.
  by rewrite (list_lookup_total_correct _ _ _ Hy) in Hab.
Qed.

Lemma combine_spec (n : nat) (Op : T -> T -> T) (a b : Vector) :
  length (combine n Op a b) = n /\
  forall i, i < n -> elem (combine n Op a b) i = Op (elem a i) (elem b i).
Proof.
  unfold combine.
  destruct (for_loop_fill (fun i _ => Op (elem a i) (elem b i)) n
              (Vector_fill n zero)) as [Hl He].
  { unfold Vector_fill. by rewrite length_replicate. }
  split.
  - rewrite Hl. apply length_replicate.
  - intros i Hi. rewrite He. by rewrite decide_True.
Qed.

Lemma combine_scalar_spec (n : nat) (Op : T -> T -> T) (a : Vector) (val : T) :
  length (combine_scalar n Op a val) = n /\
  forall i, i < n -> elem (combine_scalar n Op a val) i = Op (elem a i) val.
Proof.
  unfold combine_scalar.
  destruct (for_loop_fill (fun i _ => Op (elem a i) val) n
              (Vector_fill n zero)) as [Hl He].
  { unfold Vector_fill. by rewrite length_replicate. }
  split.
  - rewrite Hl. apply length_replicate.
  - intros i Hi. rewrite He. by rewrite decide_True.
Qed.

(** *** Properties of the vector operations *)

(** For a scalar type whose [operator!=] is false exactly on equal values,
    as it is for [int] and is not for IEEE floating point, [operator==]
    holds exactly when the two vectors hold the same elements, and
    [operator!=] exactly when they do not. *)
Theorem equal_iff_same (ne : T -> T -> bool) (n : nat) (a b : Vector) :
  (forall x y, ne x y = false <-> x = y) ->
  length a = n -> length b = n ->
  (equal ne n a b = true <-> a = b) /\
  (not_equal ne n a b = true <-> a <> b).
Proof.
  intros Hne Ha Hb.
  assert (equal ne n a b = true <-> a = b) as Heq.
  { unfold equal. rewrite forallb_forall. split.
    - intros Hall. apply (vector_ext n); [done..|]. intros i Hi.
      specialize (Hall i). rewrite in_seq in Hall.
      apply Hne, negb_true_iff, Hall. lia.
    - intros -> i _. by apply negb_true_iff, Hne. }
  split; [exact Heq|].
  unfold not_equal. rewrite negb_true_iff, <- not_true_iff_false.
  by rewrite Heq.
Qed.

(** [unaryExpr] starts at index 1: element 0 of the result is the zero the
    result was constructed with, whatever [op] does; the others are [op] of
    the elements. *)
Theorem unaryExpr_skips_index_0 (n : nat) (op : T -> T) (v : Vector) :
  0 < n ->
  length (unaryExpr n op v) = n /\
  elem (unaryExpr n op v) 0 = zero /\
  forall i, 1 <= i < n -> elem (unaryExpr n op v) i = op (elem v i).
Proof.
  intros Hn. unfold unaryExpr.
  destruct (for_range_fill (fun i _ => op (elem v i)) 1 n (Vector_fill n zero))
    as [Hl He].
  { unfold Vector_fill. by rewrite length_replicate. }
  split; [rewrite Hl; apply length_replicate|]. split.
  - rewrite He. rewrite decide_False by lia. by apply elem_fill.
  - intros i Hi. rewrite He. by rewrite decide_True by lia.
Qed.

(** [(v < val).all()] and the like: comparing and then asking [all()]
    holds exactly when the comparison holds at every index, [any()] when
    it holds at some index. *)
Theorem all_any_of_compare `{EqDecision T} (n : nat) (Comp : T -> T -> bool)
    (v : Vector) (val : T) :
  one <> zero ->
  (all n (compare_scalar n Comp v val) = true
   <-> forall i, i < n -> Comp (elem v i) val = true) /\
  (any n (compare_scalar n Comp v val) = true
   <-> exists i, i < n /\ Comp (elem v i) val = true).
Proof.
  intros H10.
  assert (forall i, i < n ->
            elem (compare_scalar n Comp v val) i = of_bool (Comp (elem v i) val))
    as Helem.
  { intros i Hi. unfold compare_scalar.
    destruct (for_loop_fill (fun i _ => of_bool (Comp (elem v i) val)) n
                (Vector_fill n zero)) as [_ He].
    { unfold Vector_fill. by rewrite length_replicate. }
    rewrite He. by rewrite decide_True. }
  assert (forall b : bool, of_bool b <> zero <-> b = true) as Hb.
  { intros [|]; simpl; split; try done. }
  split.
  - unfold all. rewrite forallb_forall. split.
    + intros Hall i Hi. apply Hb. rewrite <- Helem by exact Hi.
      eapply bool_decide_eq_true_1, Hall. apply in_seq. lia.
    + intros Hall i Hi%in_seq. apply bool_decide_eq_true_2.
      rewrite Helem by lia. apply Hb, Hall. lia.
  - unfold any. rewrite existsb_exists. split.
    + intros (i & Hi%in_seq & Hnz%bool_decide_eq_true_1). exists i.
      split; [lia|]. apply Hb. rewrite <- Helem by lia. exact Hnz.
    + intros (i & Hi & Hc). exists i. split; [apply in_seq; lia|].
      apply bool_decide_eq_true_2. rewrite Helem by exact Hi. by apply Hb.
Qed.

(** [head<m>()] copies the first [min(m, n)] elements and leaves the rest
    of its [m] elements zero; [head<n>()] gives the vector back. *)
Theorem head_takes_prefix (m n : nat) (v : Vector) :
  length v = n ->
  length (head m n v) = m /\
  (forall i, i < m ->
     elem (head m n v) i = if decide (i < n) then elem v i else zero) /\
  (m = n -> head m n v = v).
Proof.
  intros Hv. unfold head.
  destruct (for_loop_fill (fun i _ => elem v i) (Nat.min m n)
              (Vector_fill m zero)) as [Hl He].
  { unfold Vector_fill. rewrite length_replicate. lia. }
  assert (length (Vector_fill m zero) = m) as Hfill
    by (unfold Vector_fill; apply length_replicate).
  assert (forall i, i < m ->
            elem (for_loop (Nat.min m n) (fun i out => <[i := elem v i]> out)
                    (Vector_fill m zero)) i
            = if decide (i < n) then elem v i else zero) as Helem.
  { intros i Hi. rewrite He. rewrite elem_fill by exact Hi.
    repeat case_decide; try reflexivity; lia. }
  split; [by rewrite Hl|]. split; [exact Helem|].
  intros ->. apply (vector_ext n); [by rewrite Hl | exact Hv |].
  intros i Hi. rewrite Helem by exact Hi. by rewrite decide_True.
Qed.

Section DotAndSum.
Hypothesis add_zero_l : forall a, add zero a = a.

(** [a.dot(b)] is [a.cwiseProduct(b).sum()] on vectors of at least one
    element. *)
Theorem dot_is_sum_of_products (n : nat) (a b : Vector) :
  0 < n -> dot n a b = sum n (cwiseProduct n a b).
Proof.
  intros Hn. unfold dot, sum, reduce, cwiseProduct.
  destruct (combine_spec n mul a b) as [_ He].
  rewrite for_loop_range, for_range_first by exact Hn.
  rewrite add_zero_l, <- (He 0) by exact Hn.
  apply for_range_ext. intros i acc Hi. by rewrite He by lia.
Qed.
End DotAndSum.

(** *** Properties of the matrix operations *)

(** [setIdentity] on a matrix of any shape leaves ones on the diagonal and
    zeros elsewhere. *)
Theorem setIdentity_any_shape (R C : nat) (m : Matrix) :
  wf_matrix R C m ->
  wf_matrix R C (setIdentity R C m) /\
  forall r c, r < R -> c < C ->
    at_ (setIdentity R C m) r c = if decide (r = c) then one else zero.
Proof.
  intros Hwf. destruct (setZero_spec R C m Hwf) as [Hwfz Hz].
  unfold setIdentity.
  apply (for_loop_rule (fun i o =>
           wf_matrix R C o /\
           forall r c, r < R -> c < C ->
             at_ o r c = if decide (r = c /\ r < i) then one else zero)).
  - split; [exact Hwfz|]. intros r c Hr Hc.
    rewrite decide_False by lia. by apply Hz.
  - intros i o Hi [Hwfo Ho]. split; [apply wf_set_at, Hwfo|].
    intros r c Hr Hc. rewrite (at_set_at R C) by (assumption || lia).
    rewrite Ho by assumption. repeat case_decide; try reflexivity; lia.
  - intros o [Hwfo Ho]. split; [exact Hwfo|].
    intros r c Hr Hc. rewrite Ho by assumption.
    repeat case_decide; try reflexivity; lia.
Qed.

(** [topLeftCorner<OR, OC>()] copies the entries both shapes have and
    leaves the others zero; asked for the matrix's own shape it gives the
    matrix back. *)
Theorem topLeftCorner_copies (OR OC R C : nat) (m : Matrix) :
  wf_matrix R C m ->
  wf_matrix OR OC (topLeftCorner OR OC R C m) /\
  (forall r c, r < OR -> c < OC ->
     at_ (topLeftCorner OR OC R C m) r c
     = if decide (r < R /\ c < C) then at_ m r c else zero) /\
  (OR = R -> OC = C -> topLeftCorner OR OC R C m = m).
Proof.
  intros Hwf.
  assert (wf_matrix OR OC (topLeftCorner OR OC R C m) /\
          forall r c, r < OR -> c < OC ->
            at_ (topLeftCorner OR OC R C m) r c
            = if decide (r < R /\ c < C) then at_ m r c else zero)
    as [Hwfo Hat].
  { unfold topLeftCorner.
    apply (for_loop_rule (fun i o =>
             wf_matrix OR OC o /\
             forall r c, r < OR -> c < OC ->
               at_ o r c = if decide (r < i /\ c < C) then at_ m r c else zero)).
    - split; [apply wf_Matrix_default|]. intros r c Hr Hc.
      rewrite decide_False by lia. by apply at_Matrix_default.
    - intros i o Hi [Hwfo Ho].
      apply (for_loop_rule (fun j o' =>
               wf_matrix OR OC o' /\
               forall r c, r < OR -> c < OC ->
                 at_ o' r c
                 = if decide ((r < i /\ c < C) \/ (r = i /\ c < j))
                   then at_ m r c else zero)).
      + split; [exact Hwfo|]. intros r c Hr Hc. rewrite Ho by assumption.
        repeat case_decide; try reflexivity; lia.
      + intros j o' Hj [Hwfo' Ho']. split; [apply wf_set_at, Hwfo'|].
        intros r c Hr Hc. rewrite (at_set_at OR OC) by (assumption || lia).
        rewrite Ho' by assumption.
        repeat case_decide; try reflexivity; try lia.
        by destruct_and!; subst.
      + intros o' [Hwfo' Ho']. split; [exact Hwfo'|].
        intros r c Hr Hc. rewrite Ho' by assumption.
        repeat case_decide; try reflexivity; lia.
    - intros o [Hwfo Ho]. split; [exact Hwfo|].
      intros r c Hr Hc. rewrite Ho by assumption.
      repeat case_decide; try reflexivity; lia. }
  split; [exact Hwfo|]. split; [exact Hat|].
  intros -> ->. apply (matrix_ext R C); [exact Hwfo | exact Hwf |].
  intros r c Hr Hc. rewrite Hat by assumption. by rewrite decide_True.
Qed.

(** [setColumn] followed by [col] of the same column reads the values
    back, and every other column is as it was. *)
Theorem setColumn_then_col (R C c0 : nat) (vals : Vector) (m : Matrix) :
  wf_matrix R C m -> c0 < C -> length vals = R ->
  wf_matrix R C (setColumn R R c0 vals m) /\
  col R c0 (setColumn R R c0 vals m) = vals /\
  forall c, c <> c0 -> col R c (setColumn R R c0 vals m) = col R c m.
Proof.
  intros Hwf Hc0 Hvals.
  assert (wf_matrix R C (setColumn R R c0 vals m) /\
          forall r c, r < R ->
            at_ (setColumn R R c0 vals m) r c
            = if decide (c = c0) then elem vals r else at_ m r c)
    as [Hwfs Hat].
  { unfold setColumn. rewrite Nat.min_id.
    apply (for_loop_rule (fun i o =>
             wf_matrix R C o /\
             forall r c,
               at_ o r c = if decide (r < i /\ c = c0) then elem vals r
                           else at_ m r c)).
    - split; [exact Hwf|]. intros r c. by rewrite decide_False by lia.
    - intros i o Hi [Hwfo Ho]. split; [apply wf_set_at, Hwfo|].
      intros r c. rewrite (at_set_at R C) by assumption. rewrite Ho.
      repeat case_decide; try reflexivity; try lia.
      by destruct_and!; subst.
    - intros o [Hwfo Ho]. split; [exact Hwfo|]. intros r c Hr. rewrite Ho.
      repeat case_decide; try reflexivity; lia. }
  assert (forall c (m' : Matrix),
            length (col R c m') = R /\
            forall r, r < R -> elem (col R c m') r = at_ m' r c) as Hcol.
  { intros c m'. unfold col.
    destruct (for_loop_fill (fun r _ => at_ m' r c) R (Vector_fill R zero))
      as [Hl He].
    { unfold Vector_fill. by rewrite length_replicate. }
    split; [rewrite Hl; apply length_replicate|].
    intros r Hr. rewrite He. by rewrite decide_True. }
  split; [exact Hwfs|]. split.
  - apply (vector_ext R); [apply Hcol | exact Hvals |].
    intros r Hr. rewrite (proj2 (Hcol _ _)) by exact Hr.
    rewrite Hat by exact Hr. by rewrite decide_True.
  - intros c Hc. apply (vector_ext R); [apply Hcol..|].
    intros r Hr. rewrite !(proj2 (Hcol _ _)) by exact Hr.
    rewrite Hat by exact Hr. by rewrite decide_False.
Qed.

Lemma set_args_at (R C : nat) (args : list T) (i : nat) (m : Matrix) :
  wf_matrix R C m -> i + length args <= R * C ->
  wf_matrix R C (set_args C i args m) /\
  forall r c, r < R -> c < C ->
    at_ (set_args C i args m) r c
    = if decide (i <= r * C + c < i + length args)
      then elem args (r * C + c - i) else at_ m r c.
Proof.
  intros Hwf. revert i. induction args as [|first rest IH]; intros i Hlen.
  - simpl. split; [exact Hwf|]. intros r c _ _. by rewrite decide_False by lia.
  - simpl in *. destruct (IH (S i)) as [Hwf' Hat]; [lia|].
    assert (0 < C) as HC by (destruct C; [lia | lia]).
    assert (i / C < R) as Hdiv.
    { apply Nat.Div0.div_lt_upper_bound. lia. }
    assert (i mod C < C) as Hmod by (apply Nat.mod_upper_bound; lia).
    split; [apply wf_set_at, Hwf'|].
    intros r c Hr Hc. rewrite (at_set_at R C) by assumption.
    rewrite Hat by assumption.
    pose proof (Nat.div_mod_eq i C) as Hi.
    destruct (decide (i / C = r /\ i mod C = c)) as [[<- <-]|Hne].
    + rewrite decide_True by lia.
      replace (i / C * C + i mod C - i) with 0 by lia. reflexivity.
    + assert (r * C + c <> i) as Hneq.
      { intros Heq. apply Hne. symmetry in Heq.
        rewrite (Nat.mul_comm r C) in Heq.
        split; [symmetry; by eapply Nat.div_unique
               |symmetry; by eapply Nat.mod_unique]. }
      destruct (decide (i <= r * C + c < i + S (length rest))) as [Hin|Hout].
      * rewrite decide_True by lia. unfold elem.
        replace (r * C + c - i) with (S (r * C + c - S i)) by lia.
        reflexivity.
      * by rewrite decide_False by lia.
Qed.

(** The constructor from [R * C] values fills the matrix row by row:
    the entry at [(r, c)] is argument number [r * C + c]. *)
Theorem Matrix_of_args_row_major (R C : nat) (args : list T) :
  length args = R * C -> 0 < R * C ->
  exists m,
    Matrix_of_args R C args = Some m /\ wf_matrix R C m /\
    forall r c, r < R -> c < C -> at_ m r c = elem args (r * C + c).
Proof.
  intros Hlen Hpos. unfold Matrix_of_args. rewrite decide_True by done.
  destruct (set_args_at R C args 0 (Matrix_default R C)) as [Hwf Hat];
    [apply wf_Matrix_default | lia |].
  eexists. split; [reflexivity|]. split; [exact Hwf|].
  intros r c Hr Hc. rewrite Hat by assumption.
  assert (r * C + c < length args).
  { rewrite Hlen. nia. }
  rewrite decide_True by lia. by rewrite Nat.sub_0_r.
Qed.

Section ExactRight.
Hypothesis add_zero_l : forall a, add zero a = a.
Hypothesis add_zero_r : forall a, add a zero = a.
Hypothesis mul_one_r : forall a, mul a one = a.
Hypothesis mul_zero_r : forall a, mul a zero = zero.

(** Multiplying by the identity matrix from the right leaves a matrix
    unchanged. *)
Theorem identity_mul_right (R C : nat) (m0 M : Matrix) :
  wf_matrix C C m0 -> wf_matrix R C M ->
  mat_mul R C C M (setIdentity C C (setZero C C m0)) = M.
Proof.
  intros Hwf0 HwfM.
  destruct (setZero_spec C C m0 Hwf0) as [Hwfz _].
  destruct (setIdentity_spec C (setZero C C m0) Hwfz) as [_ HI].
  destruct (mat_mul_spec R C C M (setIdentity C C (setZero C C m0)))
    as [Hwfp Hat].
  apply (matrix_ext R C); [exact Hwfp | exact HwfM |].
  intros r c Hr Hc. rewrite Hat by assumption. unfold dot_from.
  apply (for_loop_rule (fun k acc =>
           acc = if decide (c < k) then at_ M r c else zero)).
  - by rewrite decide_False by lia.
  - intros k acc Hk ->. rewrite HI by assumption.
    destruct (decide (k = c)) as [->|Hne].
    + rewrite decide_False by lia. rewrite decide_True by lia.
      by rewrite mul_one_r, add_zero_l.
    + rewrite mul_zero_r, add_zero_r.
      repeat case_decide; try reflexivity; lia.
  - intros acc ->. by rewrite decide_True.
Qed.

(** [operator*(T factor)] multiplies every entry by the factor, so the
    factor one gives the matrix back. *)
Theorem scale_entries (R C : nat) (M : Matrix) (factor : T) :
  wf_matrix R C M ->
  wf_matrix R C (scale R C M factor) /\
  (forall r c, r < R -> c < C ->
     at_ (scale R C M factor) r c = mul (at_ M r c) factor) /\
  (factor = one -> scale R C M factor = M).
Proof.
  intros Hwf.
  assert (wf_matrix R C (scale R C M factor) /\
          forall r c, r < R -> c < C ->
            at_ (scale R C M factor) r c = mul (at_ M r c) factor)
    as [Hwfs Hat].
  { unfold scale.
    apply (for_loop_rule (fun i o =>
             wf_matrix R C o /\
             forall r c, r < R -> c < C ->
               at_ o r c = if decide (r < i) then mul (at_ M r c) factor
                           else zero)).
    - split; [apply wf_Matrix_default|]. intros r c Hr Hc.
      rewrite decide_False by lia. by apply at_Matrix_default.
    - intros i o Hi [Hwfo Ho].
      apply (for_loop_rule (fun j o' =>
               wf_matrix R C o' /\
               forall r c, r < R -> c < C ->
                 at_ o' r c
                 = if decide (r < i \/ (r = i /\ c < j))
                   then mul (at_ M r c) factor else zero)).
      + split; [exact Hwfo|]. intros r c Hr Hc. rewrite Ho by assumption.
        repeat case_decide; try reflexivity; lia.
      + intros j o' Hj [Hwfo' Ho']. split; [apply wf_set_at, Hwfo'|].
        intros r c Hr Hc. rewrite (at_set_at R C) by assumption.
        rewrite Ho' by assumption.
        repeat case_decide; try reflexivity; try lia.
        by destruct_and!; subst.
      + intros o' [Hwfo' Ho']. split; [exact Hwfo'|].
        intros r c Hr Hc. rewrite Ho' by assumption.
        repeat case_decide; try reflexivity; lia.
    - intros o [Hwfo Ho]. split; [exact Hwfo|].
      intros r c Hr Hc. rewrite Ho by assumption. by rewrite decide_True. }
  split; [exact Hwfs|]. split; [exact Hat|].
  intros ->. apply (matrix_ext R C); [exact Hwfs | exact Hwf |].
  intros r c Hr Hc. rewrite Hat by assumption. apply mul_one_r.
Qed.
End ExactRight.

Lemma wf_matrix_of_Forall (R C : nat) (m : Matrix) :
  length m = R -> Forall (fun row => length row = C) m -> wf_matrix R C m.
Proof.
  intros Hlen Hall. split; [exact Hlen|].
  intros r row Hrow.
  exact (Forall_lookup_1 (fun row => length row = C) m r row Hall Hrow).
Qed.

End Templates.

Lemma w_is_element_2_witness :
  exists e : Z, [10; 20; 30; 40]%Z !! 2 = Some e /\
    w 4 [10; 20; 30; 40]%Z = Some e /\
    w 4 [10; 20; 30; 40]%Z = z 4 [10; 20; 30; 40]%Z /\
    forall e3, [10; 20; 30; 40]%Z !! 3 = Some e3 -> e3 <> e ->
               w 4 [10; 20; 30; 40]%Z <> [10; 20; 30; 40]%Z !! 3.
Proof.
  apply (w_is_element_2 4 [10; 20; 30; 40]%Z); [reflexivity | lia].
Defined.

Lemma identity_mul_left_witness :
  mat_mul 0%Z Z.add Z.mul 2 2 3
    (setIdentity 0%Z 1%Z 2 2 (setZero 0%Z 2 2 [[5; 6]; [7; 8]]%Z))
    [[1; 2; 3]; [4; 5; 6]]%Z
  = [[1; 2; 3]; [4; 5; 6]]%Z.
Proof.
  apply (identity_mul_left 0%Z 1%Z Z.add Z.mul);
    try (intros; lia);
    (split; [reflexivity | intros [|[|r]] row Hrow; simplify_eq/=; reflexivity]).
Defined.

(** *** The further properties at work on integers *)

Lemma equal_iff_same_witness :
  equal 0%Z (fun a b => negb (a =? b)%Z) 2 [3; 4]%Z [3; 4]%Z = true /\
  not_equal 0%Z (fun a b => negb (a =? b)%Z) 2 [3; 4]%Z [3; 5]%Z = true.
Proof.
  assert (forall x y : Z, negb (x =? y)%Z = false <-> x = y) as Hne
    by (intros x y; by rewrite negb_false_iff, Z.eqb_eq).
  split.
  - by apply (equal_iff_same 0%Z (fun a b => negb (a =? b)%Z) 2
                [3; 4]%Z [3; 4]%Z Hne eq_refl eq_refl).
  - by apply (equal_iff_same 0%Z (fun a b => negb (a =? b)%Z) 2
                [3; 4]%Z [3; 5]%Z Hne eq_refl eq_refl).
Defined.

Lemma unaryExpr_skips_index_0_witness :
  elem 0%Z (unaryExpr 0%Z 3 (Z.add 10) [1; 2; 3]%Z) 0 = 0%Z /\
  elem 0%Z (unaryExpr 0%Z 3 (Z.add 10) [1; 2; 3]%Z) 2 = 13%Z.
Proof.
  destruct (unaryExpr_skips_index_0 0%Z 3 (Z.add 10) [1; 2; 3]%Z) as (_ & H0 & Hi);
    [lia|].
  split; [exact H0|]. apply (Hi 2). lia.
Defined.

Lemma all_any_of_compare_witness :
  all 0%Z 2 (compare_scalar 0%Z 1%Z 2 Z.ltb [3; 4]%Z 5%Z) = true /\
  any 0%Z 2 (compare_scalar 0%Z 1%Z 2 Z.ltb [3; 7]%Z 5%Z) = true.
Proof.
  split.
  - apply (all_any_of_compare 0%Z 1%Z 2 Z.ltb [3; 4]%Z 5%Z); [done|].
    intros [|[|i]] Hi; [reflexivity.. | lia].
  - apply (all_any_of_compare 0%Z 1%Z 2 Z.ltb [3; 7]%Z 5%Z); [done|].
    exists 0. split; [lia | reflexivity].
Defined.

Lemma head_takes_prefix_witness :
  head 0%Z 3 3 [1; 2; 3]%Z = [1; 2; 3]%Z /\
  elem 0%Z (head 0%Z 4 3 [1; 2; 3]%Z) 3 = 0%Z.
Proof.
  split.
  - by apply (head_takes_prefix 0%Z 3 3 [1; 2; 3]%Z eq_refl).
  - destruct (head_takes_prefix 0%Z 4 3 [1; 2; 3]%Z eq_refl) as (_ & H & _).
    apply (H 3). lia.
Defined.

Lemma dot_is_sum_of_products_witness :
  dot 0%Z Z.add Z.mul 3 [1; 2; 3]%Z [4; 5; 6]%Z
  = sum 0%Z Z.add 3 (cwiseProduct 0%Z Z.mul 3 [1; 2; 3]%Z [4; 5; 6]%Z).
Proof.
  apply (dot_is_sum_of_products 0%Z Z.add Z.mul); [intros; lia | lia].
Defined.

Lemma setIdentity_any_shape_witness :
  at_ 0%Z (setIdentity 0%Z 1%Z 2 3 [[5; 6; 7]; [8; 9; 10]]%Z) 1 1 = 1%Z /\
  at_ 0%Z (setIdentity 0%Z 1%Z 2 3 [[5; 6; 7]; [8; 9; 10]]%Z) 1 2 = 0%Z.
Proof.
  destruct (setIdentity_any_shape 0%Z 1%Z Z.add Z.mul 2 3
              [[5; 6; 7]; [8; 9; 10]]%Z)
    as [_ H].
  { apply wf_matrix_of_Forall; [reflexivity | repeat constructor]. }
  split; [apply (H 1 1); lia | apply (H 1 2); lia].
Defined.

Lemma topLeftCorner_copies_witness :
  topLeftCorner 0%Z 2 2 2 2 [[1; 2]; [3; 4]]%Z = [[1; 2]; [3; 4]]%Z /\
  at_ 0%Z (topLeftCorner 0%Z 3 3 2 2 [[1; 2]; [3; 4]]%Z) 2 2 = 0%Z.
Proof.
  assert (wf_matrix 2 2 [[1; 2]; [3; 4]]%Z) as Hwf.
  { apply wf_matrix_of_Forall; [reflexivity | repeat constructor]. }
  split.
  - by apply (topLeftCorner_copies 0%Z 2 2 2 2 _ Hwf).
  - destruct (topLeftCorner_copies 0%Z 3 3 2 2 _ Hwf) as (_ & H & _).
    apply (H 2 2); lia.
Defined.

Lemma setColumn_then_col_witness :
  col 0%Z 2 1 (setColumn 0%Z 2 2 1 [8; 9]%Z [[1; 2; 3]; [4; 5; 6]]%Z) = [8; 9]%Z /\
  col 0%Z 2 0 (setColumn 0%Z 2 2 1 [8; 9]%Z [[1; 2; 3]; [4; 5; 6]]%Z)
  = col 0%Z 2 0 [[1; 2; 3]; [4; 5; 6]]%Z.
Proof.
  destruct (setColumn_then_col 0%Z 2 3 1 [8; 9]%Z [[1; 2; 3]; [4; 5; 6]]%Z)
    as (_ & Hback & Hother); [|lia|reflexivity|].
  { apply wf_matrix_of_Forall; [reflexivity | repeat constructor]. }
  split; [exact Hback|]. apply Hother. lia.
Defined.

Lemma Matrix_of_args_row_major_witness :
  exists m,
    Matrix_of_args 0%Z 2 3 [1; 2; 3; 4; 5; 6]%Z = Some m /\
    wf_matrix 2 3 m /\
    forall r c, r < 2 -> c < 3 ->
      at_ 0%Z m r c = elem 0%Z [1; 2; 3; 4; 5; 6]%Z (r * 3 + c).
Proof.
  apply (Matrix_of_args_row_major 0%Z 2 3 [1; 2; 3; 4; 5; 6]%Z); [reflexivity|lia].
Defined.

Lemma identity_mul_right_witness :
  mat_mul 0%Z Z.add Z.mul 2 3 3 [[1; 2; 3]; [4; 5; 6]]%Z
    (setIdentity 0%Z 1%Z 3 3
       (setZero 0%Z 3 3 [[9; 9; 9]; [9; 9; 9]; [9; 9; 9]]%Z))
  = [[1; 2; 3]; [4; 5; 6]]%Z.
Proof.
  apply (identity_mul_right 0%Z 1%Z Z.add Z.mul);
    try (intros; lia);
    (apply wf_matrix_of_Forall; [reflexivity | repeat constructor]).
Defined.

Lemma scale_entries_witness :
  scale 0%Z Z.mul 2 2 [[1; 2]; [3; 4]]%Z 1%Z = [[1; 2]; [3; 4]]%Z /\
  at_ 0%Z (scale 0%Z Z.mul 2 2 [[1; 2]; [3; 4]]%Z 5%Z) 1 0 = 15%Z.
Proof.
  assert (wf_matrix 2 2 [[1; 2]; [3; 4]]%Z) as Hwf.
  { apply wf_matrix_of_Forall; [reflexivity | repeat constructor]. }
  split.
  - apply (scale_entries 0%Z 1%Z Z.mul); [intros; lia | exact Hwf | reflexivity].
  - destruct (scale_entries 0%Z 1%Z Z.mul ltac:(intros; lia) 2 2 _ 5%Z Hwf)
      as (_ & H & _).
    apply (H 1 0); lia.
Defined.

End Linalg.

(** [int]: 32-bit two's complement, held as the integer it denotes. *)
Definition wrap32 (v : Z) : Z := ((v + 2 ^ 31) mod 2 ^ 32 - 2 ^ 31)%Z.
Definition int_add (a b : Z) : Z := wrap32 (a + b).
Definition int_sub (a b : Z) : Z := wrap32 (a - b).
Definition int_mul (a b : Z) : Z := wrap32 (a * b).
(** [a != b] on [int] *)
Definition int_ne (a b : Z) : bool := negb (a =? b)%Z.
Definition is_int (v : Z) : Prop := (- 2 ^ 31 <= v < 2 ^ 31)%Z.

Lemma int_ne_false (a b : Z) : int_ne a b = false <-> a = b.
Proof. unfold int_ne. by rewrite negb_false_iff, Z.eqb_eq. Qed.

Lemma wrap32_id v : is_int v -> wrap32 v = v.
Proof.
  unfold is_int, wrap32. intros Hv.
  rewrite Z.mod_small by lia. lia.
Qed.

Lemma wrap32_is_int v : is_int (wrap32 v).
Proof.
  unfold is_int, wrap32.
  pose proof (Z.mod_pos_bound (v + 2 ^ 31) (2 ^ 32)) as H. lia.
Qed.


(** ** Widgets

    A widget is identified by its address; a nullable [Widget *] is an
    [option Widget]. *)

Abbreviation Widget := nat (only parsing).

(** ** screen.cpp: z-order of the Screen's children *)

Module ZOrder.
Section MoveToFront.

(** From [popup.h], which the Screen only uses through these two:
    [dynamic_cast<Popup *>(w) != nullptr] and [Popup::parentWindow()]. *)
Variable isPopup : Widget -> bool.
Variable parentWindow : Widget -> option Widget.

(** [mChildren.erase(std::remove(begin, end, window), end)] *)
Definition erase_all (window : Widget) (mChildren : list Widget) : list Widget :=
  filter (fun c => c <> window) mChildren.

(** The first [for]: the last index holding [window], 0 when there is none. *)
Definition find_baseIndex (window : Widget) (mChildren : list Widget) : nat :=
  for_loop (length mChildren)
    (fun index baseIndex =>
       if decide (mChildren !! index = Some window) then index else baseIndex)
    0.

(** [pw && pw->parentWindow() == window] *)
Definition anchored_to (window c : Widget) : bool :=
  isPopup c && bool_decide (parentWindow c = Some window).

(** The second [for], up to its [break]: the first child, scanning from
    [index], that is a popup of [window] placed before [baseIndex]. *)
Fixpoint first_misplaced (window : Widget) (baseIndex index : nat)
    (mChildren : list Widget) : option Widget :=
  match mChildren with
  | [] => None
  | c :: rest =>
      if anchored_to window c && bool_decide (index < baseIndex)
      then Some c
      else first_misplaced window baseIndex (S index) rest
  end.

(** [Screen::moveWindowToFront], on the child list. [fuel] bounds the depth
    of recursive calls and loop iterations; [None] is fuel exhausted. *)
Fixpoint moveWindowToFront (fuel : nat) (window : Widget)
    (mChildren : list Widget) {struct fuel} : option (list Widget) :=
  match fuel with
  | 0 => None
  | S fuel' => restabilize fuel' window (erase_all window mChildren ++ [window])
  end
with restabilize (fuel : nat) (window : Widget)
    (mChildren : list Widget) {struct fuel} : option (list Widget) :=
  match fuel with
  | 0 => None
  | S fuel' =>
      let baseIndex := find_baseIndex window mChildren in
      match first_misplaced window baseIndex 0 mChildren with
      | Some pw =>
          match moveWindowToFront fuel' pw mChildren with
          | Some mChildren' => restabilize fuel' window mChildren'
          | None => None
          end
      | None => Some mChildren
      end
  end.

(** *** More fuel never changes a result *)

Lemma fuel_mono_both fuel :
  (forall w cs r, moveWindowToFront fuel w cs = Some r ->
     forall fuel', fuel <= fuel' -> moveWindowToFront fuel' w cs = Some r) /\
  (forall w cs r, restabilize fuel w cs = Some r ->
     forall fuel', fuel <= fuel' -> restabilize fuel' w cs = Some r).
Proof.
  induction fuel as [|fuel [IHm IHr]]; [split; intros; discriminate|].
  split; intros w cs r Hrun [|fuel'] Hle; try lia; simpl in *.
  - apply IHr with (fuel' := fuel') in Hrun; [exact Hrun | lia].
  - destruct (first_misplaced w (find_baseIndex w cs) 0 cs) as [pw|]; [|exact Hrun].
    destruct (moveWindowToFront fuel pw cs) as [cs1|] eqn:Hpw; [|discriminate].
    rewrite (IHm _ _ _ Hpw fuel') by lia.
    apply IHr; [exact Hrun | lia].
Qed.

Lemma moveWindowToFront_fuel_mono fuel fuel' w cs r :
  moveWindowToFront fuel w cs = Some r -> fuel <= fuel' ->
  moveWindowToFront fuel' w cs = Some r.
Proof. intros H Hle. by apply (proj1 (fuel_mono_both fuel) w cs r H). Qed.

Lemma restabilize_fuel_mono fuel fuel' w cs r :
  restabilize fuel w cs = Some r -> fuel <= fuel' ->
  restabilize fuel' w cs = Some r.
Proof. intros H Hle. by apply (proj2 (fuel_mono_both fuel) w cs r H). Qed.

(** *** The two scans *)

Lemma find_baseIndex_spec w (cs : list Widget) :
  (forall i, cs !! i = Some w -> i <= find_baseIndex w cs) /\
  (w ∈ cs -> cs !! find_baseIndex w cs = Some w).
Proof.
  unfold find_baseIndex.
  apply (for_loop_rule (fun n b =>
    (forall i, i < n -> cs !! i = Some w -> i <= b) /\
    ((exists i, i < n /\ cs !! i = Some w) -> cs !! b = Some w))).
  - split; [intros; lia | intros (i & ? & _); lia].
  - intros n b Hn [Hmax Hhit]. case_decide as Hw.
    + split; [intros; lia | intros _; exact Hw].
    + split.
      * intros i Hi Hiw. destruct (decide (i = n)) as [->|]; [done|].
        apply Hmax; [lia | done].
      * intros (i & Hi & Hiw). apply Hhit. exists i. split; [|done].
        destruct (decide (i = n)) as [->|]; [done | lia].
  - intros b [Hmax Hhit]. split.
    + intros i Hiw. apply Hmax; [|done]. by eapply lookup_lt_Some.
    + intros [i Hiw]%list_elem_of_lookup_1. apply Hhit. exists i.
      split; [by eapply lookup_lt_Some | done].
Qed.

Lemma find_baseIndex_last w (pre post : list Widget) :
  w ∉ post -> find_baseIndex w (pre ++ w :: post) = length pre.
Proof.
  intros Hpost.
  destruct (find_baseIndex_spec w (pre ++ w :: post)) as [Hmax Hhit].
  assert (length pre <= find_baseIndex w (pre ++ w :: post)) as Hle.
  { apply Hmax. by rewrite list_lookup_middle. }
  destruct (decide (find_baseIndex w (pre ++ w :: post) = length pre))
    as [|Hne]; [done|].
  exfalso. apply Hpost.
  assert (w ∈ pre ++ w :: post) as Hin.
  { rewrite elem_of_app, elem_of_cons. auto. }
  specialize (Hhit Hin). rewrite lookup_app_r in Hhit by lia.
  rewrite lookup_cons_ne_0 in Hhit by lia.
  by eapply list_elem_of_lookup_2.
Qed.

Lemma first_misplaced_None w b idx (cs : list Widget) :
  first_misplaced w b idx cs = None ->
  forall j c, cs !! j = Some c -> anchored_to w c = true -> b <= idx + j.
Proof.
  revert idx. induction cs as [|c0 cs IH]; intros idx Hnone j c Hj Hc; [done|].
  simpl in Hnone.
  destruct (anchored_to w c0 && bool_decide (idx < b)) eqn:Hc0; [done|].
  destruct j as [|j]; simpl in Hj.
  - simplify_eq. rewrite Hc in Hc0. simpl in Hc0.
    apply bool_decide_eq_false in Hc0. lia.
  - specialize (IH (S idx) Hnone j c Hj Hc). lia.
Qed.

Lemma first_misplaced_Some w b idx (cs : list Widget) pw :
  first_misplaced w b idx cs = Some pw ->
  exists j, cs !! j = Some pw /\ anchored_to w pw = true /\ idx + j < b.
Proof.
  revert idx. induction cs as [|c0 cs IH]; intros idx Hsome; [done|].
  simpl in Hsome.
  destruct (anchored_to w c0 && bool_decide (idx < b)) eqn:Hc0.
  - simplify_eq. apply andb_true_iff in Hc0 as [Ha Hlt].
    apply bool_decide_eq_true in Hlt. exists 0. repeat split; [done | lia].
  - destruct (IH (S idx) Hsome) as (j & Hj & Ha & Hlt).
    exists (S j). repeat split; [done.. | lia].
Qed.

(** *** What a returned child list looks like, whatever the anchoring *)

Lemma restabilize_fixed_point fuel w cs r :
  restabilize fuel w cs = Some r ->
  first_misplaced w (find_baseIndex w r) 0 r = None.
Proof.
  revert cs. induction fuel as [|fuel IH]; intros cs Hrun; [done|].
  simpl in Hrun.
  destruct (first_misplaced w (find_baseIndex w cs) 0 cs) as [pw|] eqn:Hscan.
  - destruct (moveWindowToFront fuel pw cs) as [cs1|]; [|done].
    by eapply IH.
  - by simplify_eq.
Qed.

Lemma elements_both fuel :
  (forall w cs r, moveWindowToFront fuel w cs = Some r ->
     forall c, c ∈ r <-> c ∈ cs \/ c = w) /\
  (forall w cs r, restabilize fuel w cs = Some r ->
     forall c, c ∈ r <-> c ∈ cs).
Proof.
  induction fuel as [|fuel [IHm IHr]]; [split; intros; discriminate|].
  split; intros w cs r Hrun c; simpl in Hrun.
  - rewrite (IHr _ _ _ Hrun). unfold erase_all.
    rewrite elem_of_app, list_elem_of_filter, list_elem_of_singleton.
    destruct (decide (c = w)); tauto.
  - destruct (first_misplaced w (find_baseIndex w cs) 0 cs) as [pw|] eqn:Hscan;
      [|by simplify_eq].
    destruct (moveWindowToFront fuel pw cs) as [cs1|] eqn:Hpw; [|done].
    rewrite (IHr _ _ _ Hrun), (IHm _ _ _ Hpw).
    apply first_misplaced_Some in Hscan as (j & Hj & _).
    apply list_elem_of_lookup_2 in Hj.
    split; [intros [?| ->]; assumption | auto].
Qed.

Lemma moveWindowToFront_sound fuel w cs r :
  moveWindowToFront fuel w cs = Some r ->
  w ∈ r /\
  forall i j pw, r !! i = Some w -> r !! j = Some pw ->
    anchored_to w pw = true -> pw <> w -> i < j.
Proof.
  intros Hrun.
  assert (w ∈ r) as Hin by (apply (proj1 (elements_both fuel) w cs r Hrun); auto).
  split; [exact Hin|]. intros i j pw Hi Hj Hanch Hne.
  destruct fuel as [|fuel]; [done|]. simpl in Hrun.
  apply restabilize_fixed_point in Hrun.
  destruct (find_baseIndex_spec w r) as [Hmax Hhit].
  specialize (Hmax i Hi). specialize (Hhit Hin).
  pose proof (first_misplaced_None _ _ _ _ Hrun j pw Hj Hanch) as Hge.
  destruct (decide (j = find_baseIndex w r)) as [->|]; [congruence | lia].
Qed.

(** *** What a move does to the child list as a whole *)

Lemma erase_all_absent (x : Widget) (cs : list Widget) :
  x ∉ cs -> erase_all x cs = cs.
Proof.
  unfold erase_all. induction cs as [|c cs IH]; [done|].
  rewrite not_elem_of_cons. intros [Hne Hnot].
  rewrite filter_cons_True by congruence. by rewrite IH.
Qed.

Lemma erase_all_push_back (x : Widget) (cs : list Widget) :
  NoDup cs -> x ∈ cs -> erase_all x cs ++ [x] ≡ₚ cs.
Proof.
  induction cs as [|c cs IH]; intros Hnd Hin; [by apply elem_of_nil in Hin|].
  apply NoDup_cons in Hnd as [Hc Hnd]. unfold erase_all in *.
  destruct (decide (c = x)) as [->|Hne].
  - rewrite filter_cons_False by (intros H; by apply H).
    fold (erase_all x cs). rewrite erase_all_absent by exact Hc.
    symmetry. apply Permutation_cons_append.
  - rewrite filter_cons_True by exact Hne. simpl. f_equiv.
    apply IH; [exact Hnd|]. apply elem_of_cons in Hin as [->|Hin]; done.
Qed.

Lemma erase_all_push_back_NoDup (x : Widget) (cs : list Widget) :
  NoDup cs -> NoDup (erase_all x cs ++ [x]).
Proof.
  intros Hnd. apply NoDup_app. split; [by apply NoDup_filter|]. split.
  - intros c [Hne _]%list_elem_of_filter ->%list_elem_of_singleton. done.
  - apply NoDup_singleton.
Qed.

Lemma permutes_both fuel :
  (forall w cs r, NoDup cs -> moveWindowToFront fuel w cs = Some r ->
     r ≡ₚ erase_all w cs ++ [w]) /\
  (forall w cs r, NoDup cs -> restabilize fuel w cs = Some r -> r ≡ₚ cs).
Proof.
  induction fuel as [|fuel [IHm IHr]]; [split; intros; discriminate|].
  split; intros w cs r Hnd Hrun; simpl in Hrun.
  - apply IHr in Hrun; [exact Hrun|]. by apply erase_all_push_back_NoDup.
  - destruct (first_misplaced w (find_baseIndex w cs) 0 cs) as [pw|] eqn:Hscan;
      [|by simplify_eq].
    destruct (moveWindowToFront fuel pw cs) as [cs1|] eqn:Hpw; [|done].
    apply first_misplaced_Some in Hscan as (j & Hj%list_elem_of_lookup_2 & _).
    pose proof (IHm _ _ _ Hnd Hpw) as Hperm1.
    rewrite erase_all_push_back in Hperm1 by assumption.
    apply IHr in Hrun; [|by rewrite Hperm1]. by rewrite Hrun.
Qed.

(** *** Termination, when no chain of popups leads back to its start

    [Popup(Widget *parent, Window *parentWindow)] fixes the anchor at
    construction, so following [parentWindow()] from popup to popup never
    returns to a widget already met: some measure decreases from a window to
    each popup anchored to it. *)

Section Acyclic.
Variable height : Widget -> nat.
Hypothesis anchored_lower :
  forall p w, anchored_to w p = true -> height p < height w.

Lemma filter_not_in_nil (cs : list Widget) : filter (fun c => c ∉ []) cs = cs.
Proof.
  induction cs as [|c cs IH]; [done|].
  rewrite filter_cons_True by apply not_elem_of_nil. by rewrite IH.
Qed.

(** A returned list is the old one with some widgets, none higher than
    allowed, taken out and put back behind the rest. *)
Lemma shape_both fuel :
  (forall p cs r, moveWindowToFront fuel p cs = Some r ->
     exists moved tail : list Widget,
       r = filter (fun c => c ∉ moved) cs ++ tail /\
       (forall c, c ∈ tail -> c ∈ moved) /\
       (forall c, c ∈ moved -> height c <= height p) /\ p ∈ moved) /\
  (forall w cs r, restabilize fuel w cs = Some r ->
     exists moved tail : list Widget,
       r = filter (fun c => c ∉ moved) cs ++ tail /\
       (forall c, c ∈ tail -> c ∈ moved) /\
       (forall c, c ∈ moved -> height c < height w)).
Proof.
  induction fuel as [|fuel [IHm IHr]]; [split; intros; discriminate|].
  split; [intros p cs r Hrun | intros w cs r Hrun]; simpl in Hrun.
  - destruct (IHr _ _ _ Hrun) as (moved & tail & -> & Htail & Hlow).
    assert (p ∉ moved) as Hp by (intros Hin%Hlow; lia).
    exists (p :: moved), (p :: tail). repeat split.
    + unfold erase_all. rewrite filter_app, list_filter_filter.
      rewrite filter_cons_True, filter_nil by exact Hp.
      rewrite <- app_assoc. simpl. f_equal.
      apply list_filter_iff. intros c. rewrite elem_of_cons. tauto.
    + intros c. rewrite !elem_of_cons. intros [->|?]; auto.
    + intros c. rewrite elem_of_cons. intros [->|Hin%Hlow]; lia.
    + apply elem_of_cons. auto.
  - destruct (first_misplaced w (find_baseIndex w cs) 0 cs) as [pw|] eqn:Hscan.
    + destruct (moveWindowToFront fuel pw cs) as [cs1|] eqn:Hpw; [|done].
      apply first_misplaced_Some in Hscan as (j & _ & Hanch%anchored_lower & _).
      destruct (IHm _ _ _ Hpw) as (m1 & t1 & -> & Ht1 & Hlow1 & _).
      destruct (IHr _ _ _ Hrun) as (m2 & t2 & -> & Ht2 & Hlow2).
      exists (m1 ++ m2), (filter (fun c => c ∉ m2) t1 ++ t2). repeat split.
      * rewrite filter_app, list_filter_filter, <- app_assoc. f_equal.
        apply list_filter_iff. intros c. rewrite elem_of_app. tauto.
      * intros c. rewrite !elem_of_app, list_elem_of_filter.
        intros [[_ ?]|?]; auto.
      * intros c. rewrite elem_of_app.
        intros [Hin%Hlow1|Hin%Hlow2]; lia.
    + simplify_eq. exists [], []. rewrite filter_not_in_nil, app_nil_r.
      repeat split; intros c Hc; by apply not_elem_of_nil in Hc.
Qed.

(** The loop for [w] ends once every call it makes ends: each round takes
    at least one child out from before the last [w]. *)
Lemma restabilize_terminates w :
  (forall pw cs, height pw < height w ->
     exists fuel r, moveWindowToFront fuel pw cs = Some r) ->
  forall n pre post, length pre < n -> w ∉ post ->
    exists fuel r, restabilize fuel w (pre ++ w :: post) = Some r.
Proof.
  intros Hcalls. induction n as [|n IH]; intros pre post Hlen Hpost; [lia|].
  destruct (first_misplaced w (find_baseIndex w (pre ++ w :: post)) 0
              (pre ++ w :: post)) as [pw|] eqn:Hscan.
  - pose proof Hscan as (j & Hj & Hanch & Hlt)%first_misplaced_Some.
    rewrite find_baseIndex_last in Hlt by exact Hpost.
    rewrite lookup_app_l in Hj by lia.
    apply list_elem_of_lookup_2 in Hj.
    pose proof (anchored_lower _ _ Hanch) as Hlow.
    destruct (Hcalls pw (pre ++ w :: post) Hlow) as (f1 & cs1 & Hpw).
    destruct (proj1 (shape_both f1) _ _ _ Hpw)
      as (moved & tail & -> & Htail & Hmoved & Hin).
    assert (w ∉ moved) as Hw by (intros Hin'%Hmoved; lia).
    rewrite filter_app, filter_cons_True, <- app_assoc in Hpw by exact Hw.
    simpl in Hpw.
    destruct (IH (filter (fun c => c ∉ moved) pre)
                 (filter (fun c => c ∉ moved) post ++ tail))
      as (f2 & r & Hrest).
    { pose proof (length_filter_lt (fun c => c ∉ moved) pre pw Hj) as Hsh.
      assert (length (filter (fun c => c ∉ moved) pre) < length pre); [|lia].
      apply Hsh. tauto. }
    { rewrite elem_of_app, list_elem_of_filter.
      intros [[_ ?]|?%Htail]; tauto. }
    exists (S (Nat.max f1 f2)), r. simpl. rewrite Hscan.
    rewrite (moveWindowToFront_fuel_mono f1 _ _ _ _ Hpw) by lia.
    apply (restabilize_fuel_mono f2); [exact Hrest | lia].
  - exists 1, (pre ++ w :: post). simpl. by rewrite Hscan.
Qed.

Lemma moveWindowToFront_terminates w cs :
  exists fuel r, moveWindowToFront fuel w cs = Some r.
Proof.
  remember (S (height w)) as h eqn:Hh.
  assert (height w < h) as Hlt by lia. clear Hh.
  revert w cs Hlt. induction h as [|h IH]; intros w cs Hlt; [lia|].
  destruct (restabilize_terminates w (fun pw cs' Hpw => IH pw cs' ltac:(lia))
              (S (length (erase_all w cs))) (erase_all w cs) [])
    as (fuel & r & Hrun); [lia | apply not_elem_of_nil |].
  exists (S fuel), r. exact Hrun.
Qed.

(** C1: with anchoring free of cycles, [moveWindowToFront(W)] returns. The
    child list it leaves holds the old children and [W], and is a
    rearrangement of the old list when that one held [W] and no child
    twice; every popup child of the Screen whose [parentWindow()] is [W] is
    in it, and sits at a strictly later index than [W]. *)
Theorem moveWindowToFront_popups_after (W : Widget) (mChildren : list Widget) :
  exists fuel mChildren',
    (forall fuel', fuel <= fuel' ->
       moveWindowToFront fuel' W mChildren = Some mChildren') /\
    W ∈ mChildren' /\
    (forall c, c ∈ mChildren' <-> c ∈ mChildren \/ c = W) /\
    (NoDup mChildren -> W ∈ mChildren -> mChildren' ≡ₚ mChildren) /\
    (forall pw,
       pw ∈ mChildren -> isPopup pw = true -> parentWindow pw = Some W ->
       exists j, mChildren' !! j = Some pw) /\
    forall i j pw,
      mChildren' !! i = Some W -> mChildren' !! j = Some pw ->
      isPopup pw = true -> parentWindow pw = Some W -> i < j.
Proof.
  destruct (moveWindowToFront_terminates W mChildren) as (fuel & r & Hrun).
  exists fuel, r.
  destruct (moveWindowToFront_sound _ _ _ _ Hrun) as [Hin Hord].
  pose proof (proj1 (elements_both fuel) W mChildren r Hrun) as Helems.
  refine (conj _ (conj Hin (conj Helems (conj _ (conj _ _))))).
  - intros fuel' Hle. by eapply moveWindowToFront_fuel_mono.
  - intros Hnd HW.
    rewrite (proj1 (permutes_both fuel) W mChildren r Hnd Hrun).
    by apply erase_all_push_back.
  - intros pw Hpw _ _. apply list_elem_of_lookup_1, Helems. by left.
  - intros i j pw Hi Hj Hpop Hpar.
    assert (anchored_to W pw = true) as Hanch.
    { unfold anchored_to. rewrite Hpop. simpl. by apply bool_decide_eq_true. }
    apply (Hord i j pw Hi Hj Hanch).
    pose proof (anchored_lower _ _ Hanch). intros ->. lia.
Qed.

(** *** Who ends up above the window *)

Lemma anchored_is_popup (w c : Widget) : anchored_to w c = true -> isPopup c = true.
Proof. unfold anchored_to. by intros [? _]%andb_true_iff. Qed.

(** As [shape_both], and what is taken out below the target are popups. *)
Lemma shape_popups_both fuel :
  (forall p cs r, moveWindowToFront fuel p cs = Some r ->
     exists moved tail : list Widget,
       r = filter (fun c => c ∉ moved) (erase_all p cs) ++ p :: tail /\
       (forall c, c ∈ tail -> c ∈ moved) /\
       (forall c, c ∈ moved -> height c < height p /\ isPopup c = true)) /\
  (forall w cs r, restabilize fuel w cs = Some r ->
     exists moved tail : list Widget,
       r = filter (fun c => c ∉ moved) cs ++ tail /\
       (forall c, c ∈ tail -> c ∈ moved) /\
       (forall c, c ∈ moved -> height c < height w /\ isPopup c = true)).
Proof.
  induction fuel as [|fuel [IHm IHr]]; [split; intros; discriminate|].
  split; [intros p cs r Hrun | intros w cs r Hrun]; simpl in Hrun.
  - destruct (IHr _ _ _ Hrun) as (moved & tail & -> & Htail & Hlow).
    assert (p ∉ moved) as Hp by (intros [Hin _]%Hlow; lia).
    exists moved, tail. split; [|done].
    rewrite filter_app, filter_cons_True, filter_nil by exact Hp.
    by rewrite <- app_assoc.
  - destruct (first_misplaced w (find_baseIndex w cs) 0 cs) as [pw|] eqn:Hscan.
    + destruct (moveWindowToFront fuel pw cs) as [cs1|] eqn:Hpw; [|done].
      apply first_misplaced_Some in Hscan as (j & _ & Hanch & _).
      pose proof (anchored_lower _ _ Hanch) as Hpwlow.
      pose proof (anchored_is_popup _ _ Hanch) as Hpwpop.
      destruct (IHm _ _ _ Hpw) as (m1 & t1 & -> & Ht1 & Hlow1).
      destruct (IHr _ _ _ Hrun) as (m2 & t2 & -> & Ht2 & Hlow2).
      exists (pw :: m1 ++ m2), (filter (fun c => c ∉ m2) (pw :: t1) ++ t2).
      split; [|split].
      * unfold erase_all.
        rewrite filter_app, !list_filter_filter, <- app_assoc. f_equal.
        apply list_filter_iff. intros c.
        rewrite elem_of_cons, elem_of_app. tauto.
      * intros c. rewrite elem_of_app, list_elem_of_filter, !elem_of_cons,
          elem_of_app.
        intros [[_ [->|?]]|?]; auto.
      * intros c. rewrite elem_of_cons, elem_of_app.
        intros [->|[[? ?]%Hlow1|?%Hlow2]]; [done| split; [lia|done] | done].
    + simplify_eq. exists [], []. rewrite filter_not_in_nil, app_nil_r.
      split; [done|]. split; intros c Hc; by apply not_elem_of_nil in Hc.
Qed.

(** After [moveWindowToFront(W)] only popups come after [W] in the child
    list, so [W] is drawn above every child that is not a popup, and the
    children before [W] keep the order they had. *)
Theorem moveWindowToFront_on_top (fuel : nat) (W : Widget)
    (mChildren mChildren' : list Widget) :
  moveWindowToFront fuel W mChildren = Some mChildren' ->
  exists below above,
    mChildren' = below ++ W :: above /\
    sublist below (erase_all W mChildren) /\
    (W ∉ below) /\ (W ∉ above) /\
    forall c, c ∈ above -> isPopup c = true.
Proof.
  intros Hrun.
  destruct (proj1 (shape_popups_both fuel) _ _ _ Hrun)
    as (moved & tail & -> & Htail & Hlow).
  exists (filter (fun c => c ∉ moved) (erase_all W mChildren)), tail.
  split; [reflexivity|]. split; [apply sublist_filter|]. split; [|split].
  - unfold erase_all. rewrite !list_elem_of_filter. tauto.
  - intros [Hin _]%Htail%Hlow. lia.
  - intros c Hc%Htail%Hlow. tauto.
Qed.

End Acyclic.
(** Moving a child window to the front neither loses nor duplicates a
    child: the list returned is a rearrangement of the one given. *)
Theorem moveWindowToFront_rearranges (fuel : nat) (W : Widget)
    (mChildren mChildren' : list Widget) :
  NoDup mChildren -> W ∈ mChildren ->
  moveWindowToFront fuel W mChildren = Some mChildren' ->
  mChildren' ≡ₚ mChildren /\ NoDup mChildren'.
Proof.
  intros Hnd Hin Hrun.
  assert (mChildren' ≡ₚ mChildren) as Hperm.
  { rewrite (proj1 (permutes_both fuel) _ _ _ Hnd Hrun).
    by apply erase_all_push_back. }
  split; [exact Hperm|]. by rewrite Hperm.
Qed.

Lemma first_misplaced_none_if w b idx (cs : list Widget) :
  (forall j c, cs !! j = Some c -> anchored_to w c = true -> b <= idx + j) ->
  first_misplaced w b idx cs = None.
Proof.
  revert idx. induction cs as [|c0 cs IH]; intros idx Hall; [done|]. simpl.
  destruct (anchored_to w c0) eqn:Hc0; simpl.
  - pose proof (Hall 0 c0 eq_refl Hc0) as H0.
    rewrite bool_decide_eq_false_2 by lia.
    apply IH. intros j c Hj Hc. specialize (Hall (S j) c Hj Hc). lia.
  - apply IH. intros j c Hj Hc. specialize (Hall (S j) c Hj Hc). lia.
Qed.

(** A window none of whose siblings is a popup anchored to it simply goes
    to the end of the child list, the others keeping their order. *)
Theorem moveWindowToFront_without_popups (fuel : nat) (W : Widget)
    (mChildren : list Widget) :
  (forall c, c ∈ mChildren -> c <> W -> anchored_to W c = false) ->
  moveWindowToFront (S (S fuel)) W mChildren = Some (erase_all W mChildren ++ [W]).
Proof.
  intros Hnone. simpl.
  rewrite first_misplaced_none_if; [reflexivity|].
  intros j c Hj Hc. rewrite find_baseIndex_last by apply not_elem_of_nil.
  destruct (decide (j < length (erase_all W mChildren))) as [Hlt|]; [|lia].
  rewrite lookup_app_l in Hj by exact Hlt.
  apply list_elem_of_lookup_2, list_elem_of_filter in Hj as [Hne Hin].
  rewrite (Hnone c Hin Hne) in Hc. discriminate.
Qed.

End MoveToFront.

(** A window 3 with popup 1 anchored to it, popup 2 anchored to popup 1,
    and an unrelated widget 4. *)
Definition ex_isPopup (c : Widget) : bool :=
  match c with 1 | 2 => true | _ => false end.
Definition ex_parentWindow (c : Widget) : option Widget :=
  match c with 1 => Some 3 | 2 => Some 1 | _ => None end.
Definition ex_height (c : Widget) : nat :=
  match c with 3 => 2 | 1 => 1 | _ => 0 end.

Example moveWindowToFront_example :
  moveWindowToFront ex_isPopup ex_parentWindow 10 3 [1; 2; 3; 4]
  = Some [4; 3; 1; 2].
Proof. reflexivity. Qed.

(** Two popups anchored to each other: the call never returns, whatever
    the fuel. *)
Definition cyclic_parentWindow (c : Widget) : option Widget :=
  match c with 1 => Some 2 | 2 => Some 1 | _ => None end.

Lemma cyclic_anchoring_step fuel :
  moveWindowToFront ex_isPopup cyclic_parentWindow (S (S fuel)) 1 [1; 2]
  = match moveWindowToFront ex_isPopup cyclic_parentWindow fuel 2 [2; 1] with
    | Some mChildren' =>
        restabilize ex_isPopup cyclic_parentWindow fuel 1 mChildren'
    | None => None
    end /\
  moveWindowToFront ex_isPopup cyclic_parentWindow (S (S fuel)) 2 [2; 1]
  = match moveWindowToFront ex_isPopup cyclic_parentWindow fuel 1 [1; 2] with
    | Some mChildren' =>
        restabilize ex_isPopup cyclic_parentWindow fuel 2 mChildren'
    | None => None
    end.
Proof. split; reflexivity. Qed.

Lemma cyclic_anchoring_never_returns fuel :
  moveWindowToFront ex_isPopup cyclic_parentWindow fuel 1 [1; 2] = None.
Proof.
  cut (moveWindowToFront ex_isPopup cyclic_parentWindow fuel 1 [1; 2] = None /\
       moveWindowToFront ex_isPopup cyclic_parentWindow fuel 2 [2; 1] = None).
  { tauto. }
  induction fuel as [fuel IH] using lt_wf_ind.
  destruct fuel as [|[|fuel]]; [by split..|].
  destruct (cyclic_anchoring_step fuel) as [-> ->].
  destruct (IH fuel) as [-> ->]; [lia|]. by split.
Qed.

Lemma moveWindowToFront_popups_after_witness :
  exists fuel mChildren',
    (forall fuel', fuel <= fuel' ->
       moveWindowToFront ex_isPopup ex_parentWindow fuel' 3 [1; 2; 3; 4]
       = Some mChildren') /\
    3 ∈ mChildren' /\
    (forall c, c ∈ mChildren' <-> c ∈ [1; 2; 3; 4] \/ c = 3) /\
    (NoDup [1; 2; 3; 4] -> 3 ∈ [1; 2; 3; 4] -> mChildren' ≡ₚ [1; 2; 3; 4]) /\
    (forall pw,
       pw ∈ [1; 2; 3; 4] -> ex_isPopup pw = true ->
       ex_parentWindow pw = Some 3 ->
       exists j, mChildren' !! j = Some pw) /\
    forall i j pw,
      mChildren' !! i = Some 3 -> mChildren' !! j = Some pw ->
      ex_isPopup pw = true -> ex_parentWindow pw = Some 3 -> i < j.
Proof.
  apply (moveWindowToFront_popups_after ex_isPopup ex_parentWindow ex_height).
  intros p w H. unfold anchored_to in H.
  destruct p as [|[|[|p]]]; simpl in H; try discriminate;
    apply bool_decide_eq_true in H; simplify_eq; simpl; lia.
Defined.

Lemma ex_anchored_lower (p w : Widget) :
  anchored_to ex_isPopup ex_parentWindow w p = true -> ex_height p < ex_height w.
Proof.
  intros H. unfold anchored_to in H.
  destruct p as [|[|[|p]]]; simpl in H; try discriminate;
    apply bool_decide_eq_true in H; simplify_eq; simpl; lia.
Qed.

Lemma moveWindowToFront_rearranges_witness :
  [4; 3; 1; 2] ≡ₚ [1; 2; 3; 4] /\ NoDup [4; 3; 1; 2].
Proof.
  apply (moveWindowToFront_rearranges ex_isPopup ex_parentWindow 10 3
           [1; 2; 3; 4] [4; 3; 1; 2]);
    [compute_done | compute_done | reflexivity].
Defined.

Lemma moveWindowToFront_without_popups_witness :
  moveWindowToFront (fun _ => false) (fun _ => None) 2 3 [3; 1; 2]
  = Some (erase_all 3 [3; 1; 2] ++ [3]).
Proof.
  apply (moveWindowToFront_without_popups (fun _ => false) (fun _ => None) 0 3).
  reflexivity.
Defined.

Lemma moveWindowToFront_on_top_witness :
  exists below above,
    [4; 3; 1; 2] = below ++ 3 :: above /\
    sublist below (erase_all 3 [1; 2; 3; 4]) /\
    (3 ∉ below) /\ (3 ∉ above) /\
    forall c, c ∈ above -> ex_isPopup c = true.
Proof.
  apply (moveWindowToFront_on_top ex_isPopup ex_parentWindow ex_height
           ex_anchored_lower 10 3 [1; 2; 3; 4] [4; 3; 1; 2]).
  reflexivity.
Defined.

End ZOrder.

(** ** [Vector2i = Vector<int, 2>] *)

Abbreviation Vector2i := (list Z) (only parsing).

Definition Vector2i_make (a b : Z) : Vector2i := [a; b].
Definition Vector2i_at (v : Vector2i) (i : nat) : Z := Linalg.elem 0%Z v i.
Definition Vector2i_sub (a b : Vector2i) : Vector2i :=
  Linalg.combine 0%Z 2 int_sub a b.
Definition Vector2i_sub_assign (a b : Vector2i) : Vector2i :=
  Linalg.apply_op 0%Z 2 int_sub a b.
Definition Vector2i_eq (a b : Vector2i) : bool :=
  Linalg.equal 0%Z int_ne 2 a b.

Definition zero_valued (v : Vector2i) : Prop :=
  Vector2i_at v 0 = 0%Z /\ Vector2i_at v 1 = 0%Z.

Lemma Vector2i_eq_zero (v : Vector2i) :
  Vector2i_eq v (Vector2i_make 0 0) = true <-> zero_valued v.
Proof.
  unfold Vector2i_eq, Linalg.equal, zero_valued, Vector2i_at. simpl.
  rewrite !andb_true_iff, !negb_true_iff, !int_ne_false.
  split; [intros (? & ? & _) | intros [? ?]]; repeat split; done.
Qed.

(** [1 << button], [~v] on [int] *)
Definition int_shl (a b : Z) : Z := wrap32 (Z.shiftl a b).
Definition int_not (a : Z) : Z := wrap32 (Z.lnot a).

(** ** [Vector<int, n>]: the operators on 32-bit elements *)

Module IntVector.

Definition plus (n : nat) (a b : list Z) : list Z := Linalg.combine 0%Z n int_add a b.
Definition minus (n : nat) (a b : list Z) : list Z := Linalg.combine 0%Z n int_sub a b.
(** [operator-()] is [operator*(-1)]. *)
Definition negate (n : nat) (a : list Z) : list Z :=
  Linalg.combine_scalar 0%Z n int_mul a (-1)%Z.
(** [minCoeff()] and [maxCoeff()] reduce with [std::min] and [std::max]. *)
Definition minCoeff (n : nat) (a : list Z) : Z := Linalg.reduce 0%Z n Z.min a.
Definition maxCoeff (n : nat) (a : list Z) : Z := Linalg.reduce 0%Z n Z.max a.

Lemma wrap32_unfold (v : Z) : exists k, wrap32 v = (v + k * 2 ^ 32)%Z.
Proof.
  exists (- ((v + 2 ^ 31) / 2 ^ 32))%Z. unfold wrap32.
  rewrite Z.mod_eq by lia. lia.
Qed.

Lemma wrap32_shift (v k : Z) : wrap32 (v + k * 2 ^ 32) = wrap32 v.
Proof.
  unfold wrap32.
  replace (v + k * 2 ^ 32 + 2 ^ 31)%Z with (v + 2 ^ 31 + k * 2 ^ 32)%Z by lia.
  by rewrite Z_mod_plus_full.
Qed.

Lemma int_add_sub (a b : Z) : is_int a -> int_sub (int_add a b) b = a.
Proof.
  intros Ha. unfold int_sub, int_add.
  destruct (wrap32_unfold (a + b)) as [k ->].
  replace (a + b + k * 2 ^ 32 - b)%Z with (a + k * 2 ^ 32)%Z by lia.
  rewrite wrap32_shift. by apply wrap32_id.
Qed.

Lemma int_neg_neg (a : Z) : is_int a -> int_mul (int_mul a (-1)) (-1) = a.
Proof.
  intros Ha. unfold int_mul.
  destruct (wrap32_unfold (a * -1)) as [k ->].
  replace ((a * -1 + k * 2 ^ 32) * -1)%Z with (a + (- k) * 2 ^ 32)%Z by lia.
  rewrite wrap32_shift. by apply wrap32_id.
Qed.

Lemma equal_refl (n : nat) (a : list Z) :
  Linalg.equal 0%Z int_ne n a a = true.
Proof.
  unfold Linalg.equal. apply forallb_forall. intros i _.
  by apply negb_true_iff, int_ne_false.
Qed.

Lemma elem_is_int (a : list Z) (i : nat) :
  Forall is_int a -> i < length a -> is_int (Linalg.elem 0%Z a i).
Proof.
  intros Hall Hi. destruct (lookup_lt_is_Some_2 a i Hi) as [v Hv].
  unfold Linalg.elem. rewrite (list_lookup_total_correct _ _ _ Hv).
  by eapply Forall_lookup_1.
Qed.

(** On vectors of [int], adding [b] and subtracting it again gives [a]
    back, overflow included: [(a + b) - b == a]. *)
Theorem plus_then_minus (n : nat) (a b : list Z) :
  length a = n -> length b = n -> Forall is_int a ->
  minus n (plus n a b) b = a /\
  Linalg.equal 0%Z int_ne n (minus n (plus n a b) b) a = true.
Proof.
  intros Ha Hb Hint.
  assert (minus n (plus n a b) b = a) as Heq.
  { unfold minus, plus.
    destruct (Linalg.combine_spec 0%Z n int_add a b) as [_ Hadd].
    destruct (Linalg.combine_spec 0%Z n int_sub
                (Linalg.combine 0%Z n int_add a b) b) as [Hl Hsub].
    apply (Linalg.vector_ext 0%Z n); [exact Hl | exact Ha |].
    intros i Hi. rewrite Hsub, Hadd by exact Hi.
    apply int_add_sub, elem_is_int; [exact Hint | lia]. }
  split; [exact Heq|]. rewrite Heq. apply equal_refl.
Qed.

(** On vectors of [int], negating twice gives the vector back, also for
    the most negative element. *)
Theorem negate_twice (n : nat) (a : list Z) :
  length a = n -> Forall is_int a -> negate n (negate n a) = a.
Proof.
  intros Ha Hint. unfold negate.
  destruct (Linalg.combine_scalar_spec 0%Z n int_mul a (-1)%Z) as [_ H1].
  destruct (Linalg.combine_scalar_spec 0%Z n int_mul
              (Linalg.combine_scalar 0%Z n int_mul a (-1)%Z) (-1)%Z)
    as [Hl H2].
  apply (Linalg.vector_ext 0%Z n); [exact Hl | exact Ha |].
  intros i Hi. rewrite H2, H1 by exact Hi.
  apply int_neg_neg, elem_is_int; [exact Hint | lia].
Qed.

(** [maxCoeff()] of a non-empty vector is one of its elements and no
    element is larger; [minCoeff()] likewise with no element smaller. *)
Theorem maxCoeff_minCoeff_bounds (n : nat) (a : list Z) :
  0 < n ->
  ((forall i, i < n -> (Linalg.elem 0%Z a i <= maxCoeff n a)%Z) /\
   exists i, i < n /\ maxCoeff n a = Linalg.elem 0%Z a i) /\
  ((forall i, i < n -> (minCoeff n a <= Linalg.elem 0%Z a i)%Z) /\
   exists i, i < n /\ minCoeff n a = Linalg.elem 0%Z a i).
Proof.
  intros Hn. split.
  - unfold maxCoeff, Linalg.reduce.
    apply (for_range_rule (fun k acc =>
             (forall i, i < k -> (Linalg.elem 0%Z a i <= acc)%Z) /\
             exists i, i < k /\ acc = Linalg.elem 0%Z a i)); [lia | | | done].
    + split; [|exists 0; split; [lia|reflexivity]].
      intros i Hi. assert (i = 0) as -> by lia. lia.
    + intros k acc Hk [Hub (j & Hj & Hacc)]. split.
      * intros i Hi. destruct (decide (i = k)) as [->|]; [lia|].
        specialize (Hub i). lia.
      * destruct (Z.max_spec acc (Linalg.elem 0%Z a k)) as [[_ ->]|[_ ->]].
        -- exists k. split; [lia|reflexivity].
        -- exists j. split; [lia|exact Hacc].
  - unfold minCoeff, Linalg.reduce.
    apply (for_range_rule (fun k acc =>
             (forall i, i < k -> (acc <= Linalg.elem 0%Z a i)%Z) /\
             exists i, i < k /\ acc = Linalg.elem 0%Z a i)); [lia | | | done].
    + split; [|exists 0; split; [lia|reflexivity]].
      intros i Hi. assert (i = 0) as -> by lia. lia.
    + intros k acc Hk [Hlb (j & Hj & Hacc)]. split.
      * intros i Hi. destruct (decide (i = k)) as [->|]; [lia|].
        specialize (Hlb i). lia.
      * destruct (Z.min_spec acc (Linalg.elem 0%Z a k)) as [[_ ->]|[_ ->]].
        -- exists j. split; [lia|exact Hacc].
        -- exists k. split; [lia|reflexivity].
Qed.

Lemma plus_then_minus_witness :
  minus 2 (plus 2 [2147483647; 5]%Z [1; 7]%Z) [1; 7]%Z = [2147483647; 5]%Z /\
  Linalg.equal 0%Z int_ne 2
    (minus 2 (plus 2 [2147483647; 5]%Z [1; 7]%Z) [1; 7]%Z)
    [2147483647; 5]%Z = true.
Proof.
  apply plus_then_minus; [reflexivity.. |].
  repeat constructor; unfold is_int; lia.
Defined.

Lemma negate_twice_witness :
  negate 2 (negate 2 [-2147483648; 5]%Z) = [-2147483648; 5]%Z.
Proof.
  apply negate_twice; [reflexivity|].
  repeat constructor; unfold is_int; lia.
Defined.

Lemma maxCoeff_minCoeff_bounds_witness :
  (Linalg.elem 0%Z [3; 9; 4]%Z 2 <= maxCoeff 3 [3; 9; 4]%Z)%Z /\
  (minCoeff 3 [3; 9; 4]%Z <= Linalg.elem 0%Z [3; 9; 4]%Z 1)%Z.
Proof.
  destruct (maxCoeff_minCoeff_bounds 3 [3; 9; 4]%Z) as [[Hmax _] [Hmin _]];
    [lia|].
  split; [apply Hmax; lia | apply Hmin; lia].
Defined.

(** The operands on which [a / b] on [int] is defined: C++ leaves
    [b == 0] and [INT_MIN / -1] undefined, and the program traps there. *)
Definition int_div_defined (a b : Z) : Prop :=
  b <> 0%Z /\ ~ (a = (- 2 ^ 31)%Z /\ b = (-1)%Z).

(** [a / b] on [int], for operands it is defined on: the quotient
    truncated toward zero. Every theorem that reads it is about such
    operands only. *)
Definition int_div (a b : Z) : Z := wrap32 (a ÷ b).

Lemma int_div_exact (a b : Z) :
  is_int a -> int_div_defined a b -> int_div a b = (a ÷ b)%Z.
Proof.
  intros Ha [Hb Hmin]. unfold int_div. apply wrap32_id.
  unfold is_int in *.
  assert (Z.abs (a ÷ b) <= Z.abs a)%Z as Hle.
  { rewrite <- Z.quot_abs by exact Hb.
    apply Z.quot_le_upper_bound; [lia|].
    pose proof (Z.abs_nonneg a). nia. }
  destruct (decide (a = - 2 ^ 31)%Z) as [->|Hne]; [|lia].
  destruct (decide (b = 1%Z)) as [->|Hb1]; [rewrite Z.quot_1_r; lia|].
  assert (Z.abs (- 2 ^ 31 ÷ b) <= 2 ^ 30)%Z as Hhalf.
  { rewrite <- Z.quot_abs by exact Hb.
    apply Z.quot_le_upper_bound; [lia|].
    change (Z.abs (- 2 ^ 31)) with (2 * 2 ^ 30)%Z.
    assert (2 <= Z.abs b)%Z by lia. nia. }
  lia.
Qed.
(** [operator/(T val)] *)
Definition div_scalar (n : nat) (v : list Z) (val : Z) : list Z :=
  Linalg.combine_scalar 0%Z n int_div v val.
(** The free [operator/(T val, const Vector& v)], which returns [v / val]. *)
Definition scalar_div (n : nat) (val : Z) (v : list Z) : list Z :=
  div_scalar n v val.

Lemma int_div_2 (d : Z) :
  is_int d -> (d - 1 <= 2 * int_div d 2 <= d + 1)%Z.
Proof.
  intros Hd. unfold int_div, is_int in *.
  pose proof (Z.quot_rem' d 2) as Hqr.
  pose proof (Z.rem_bound_abs d 2) as Hr.
  rewrite wrap32_id by (unfold is_int; lia). lia.
Qed.

(** A scalar over a vector of [int], [val / v], divides each element of
    [v] by [val], not [val] by the element, wherever those divisions are
    defined; so [1 / v] is [v]. *)
Theorem scalar_over_vector_divides_vector (n : nat) (val : Z) (v : list Z) :
  length v = n -> Forall is_int v ->
  (forall i, i < n -> int_div_defined (Linalg.elem 0%Z v i) val) ->
  (forall i, i < n ->
     Linalg.elem 0%Z (scalar_div n val v) i = (Linalg.elem 0%Z v i ÷ val)%Z) /\
  scalar_div n 1 v = v.
Proof.
  intros Hv Hint Hdef. unfold scalar_div, div_scalar. split.
  - intros i Hi.
    destruct (Linalg.combine_scalar_spec 0%Z n int_div v val) as [_ He].
    rewrite He by exact Hi.
    apply int_div_exact; [|by apply Hdef].
    apply elem_is_int; [exact Hint | lia].
  - destruct (Linalg.combine_scalar_spec 0%Z n int_div v 1%Z) as [Hl He].
    apply (Linalg.vector_ext 0%Z n); [exact Hl | exact Hv |].
    intros i Hi. rewrite He by exact Hi. unfold int_div.
    rewrite Z.quot_1_r. apply wrap32_id, elem_is_int; [exact Hint | lia].
Qed.

Lemma scalar_over_vector_divides_vector_witness :
  Linalg.elem 0%Z (scalar_div 2 2%Z [8; -7]%Z) 1 = (-3)%Z /\
  scalar_div 2 1%Z [8; -7]%Z = [8; -7]%Z.
Proof.
  assert (Forall is_int [8; -7]%Z) as Hint
    by (repeat constructor; unfold is_int; lia).
  assert (forall val, val <> 0%Z -> val <> (-1)%Z ->
            forall i, i < 2 ->
              int_div_defined (Linalg.elem 0%Z [8; -7]%Z i) val) as Hdef
    by (intros val H0 H1 i _; split; [exact H0 | intros [_ ?]; done]).
  split.
  - exact (proj1 (scalar_over_vector_divides_vector 2 2%Z [8; -7]%Z eq_refl
                    Hint (Hdef 2%Z ltac:(lia) ltac:(lia))) 1 ltac:(lia)).
  - exact (proj2 (scalar_over_vector_divides_vector 2 1%Z [8; -7]%Z eq_refl
                    Hint (Hdef 1%Z ltac:(lia) ltac:(lia)))).
Defined.

End IntVector.

(** ** screen.cpp: the event funnel *)

(** Exceptions: those derived from [std::exception], which carry [what()],
    and every other thrown value. *)
Inductive Thrown : Type :=
| StdException (what : string)
| OtherThrown.

(** The members of [Screen] that the handlers read and write. *)
Record ScreenData (float double : Type) : Type := mkScreen {
  mChildren : list Widget;
  mFocusPath : list Widget;
  mMousePos : Vector2i;
  mMouseState : Z;
  mModifiers : Z;
  mDragActive : bool;
  mDragWidget : option Widget;
  mCursor : Z;
  mSize : Vector2i;
  mFBSize : Vector2i;
  mPixelRatio : float;
  mLastInteraction : double;
  (** whether the [std::function] holds a target *)
  mResizeCallback : bool
}.
Arguments mkScreen {float double}.
Arguments mChildren {float double}.
Arguments mFocusPath {float double}.
Arguments mMousePos {float double}.
Arguments mMouseState {float double}.
Arguments mModifiers {float double}.
Arguments mDragActive {float double}.
Arguments mDragWidget {float double}.
Arguments mCursor {float double}.
Arguments mSize {float double}.
Arguments mFBSize {float double}.
Arguments mPixelRatio {float double}.
Arguments mLastInteraction {float double}.
Arguments mResizeCallback {float double}.

(** What the Screen invokes on widgets: the hit test and the virtual event
    methods, each with its receiver and arguments, and the resize hook. *)
Inductive Call (double : Type) : Type :=
| FindWidget (p : Vector2i)
| MouseDragEvent (w : Widget) (p rel : Vector2i) (button modifiers : Z)
| MouseMotionEvent (w : Widget) (p rel : Vector2i) (button modifiers : Z)
| MouseButtonEvent (w : Widget) (p : Vector2i) (button : Z) (down : bool)
    (modifiers : Z)
| ScrollEvent (w : Widget) (p : Vector2i) (x y : double)
| KeyboardEvent (w : Widget) (key scancode action modifiers : Z)
| KeyboardCharacterEvent (w : Widget) (codepoint : Z)
| FocusEvent (w : Widget) (focused : bool)
| DropEvent (w : Widget) (filenames : list string)
| ResizeCallback (size : Vector2i).
Arguments FindWidget {double}.
Arguments MouseDragEvent {double}.
Arguments MouseMotionEvent {double}.
Arguments MouseButtonEvent {double}.
Arguments ScrollEvent {double}.
Arguments KeyboardEvent {double}.
Arguments KeyboardCharacterEvent {double}.
Arguments FocusEvent {double}.
Arguments DropEvent {double}.
Arguments ResizeCallback {double}.

(** How a handler ends: it returns, an exception leaves it, it dereferences
    a null pointer, or the model's fuel is used up. *)
Inductive Result (A : Type) : Type :=
| Ok (a : A)
| Raised (e : Thrown)
| NullDeref
| OutOfFuel.
Arguments Ok {A}.
Arguments Raised {A}.
Arguments NullDeref {A}.
Arguments OutOfFuel {A}.

Module Screen.
Section Handlers.

Context {float double World : Type}.

Abbreviation Screen := (ScreenData float double) (only parsing).

(** *** Field assignments *)

Definition set_mChildren (v : list Widget) (s : Screen) : Screen :=
  mkScreen v (mFocusPath s) (mMousePos s) (mMouseState s) (mModifiers s)
    (mDragActive s) (mDragWidget s) (mCursor s) (mSize s) (mFBSize s)
    (mPixelRatio s) (mLastInteraction s) (mResizeCallback s).
Definition set_mFocusPath (v : list Widget) (s : Screen) : Screen :=
  mkScreen (mChildren s) v (mMousePos s) (mMouseState s) (mModifiers s)
    (mDragActive s) (mDragWidget s) (mCursor s) (mSize s) (mFBSize s)
    (mPixelRatio s) (mLastInteraction s) (mResizeCallback s).
Definition set_mMousePos (v : Vector2i) (s : Screen) : Screen :=
  mkScreen (mChildren s) (mFocusPath s) v (mMouseState s) (mModifiers s)
    (mDragActive s) (mDragWidget s) (mCursor s) (mSize s) (mFBSize s)
    (mPixelRatio s) (mLastInteraction s) (mResizeCallback s).
Definition set_mMouseState (v : Z) (s : Screen) : Screen :=
  mkScreen (mChildren s) (mFocusPath s) (mMousePos s) v (mModifiers s)
    (mDragActive s) (mDragWidget s) (mCursor s) (mSize s) (mFBSize s)
    (mPixelRatio s) (mLastInteraction s) (mResizeCallback s).
Definition set_mModifiers (v : Z) (s : Screen) : Screen :=
  mkScreen (mChildren s) (mFocusPath s) (mMousePos s) (mMouseState s) v
    (mDragActive s) (mDragWidget s) (mCursor s) (mSize s) (mFBSize s)
    (mPixelRatio s) (mLastInteraction s) (mResizeCallback s).
Definition set_mDragActive (v : bool) (s : Screen) : Screen :=
  mkScreen (mChildren s) (mFocusPath s) (mMousePos s) (mMouseState s)
    (mModifiers s) v (mDragWidget s) (mCursor s) (mSize s) (mFBSize s)
    (mPixelRatio s) (mLastInteraction s) (mResizeCallback s).
Definition set_mDragWidget (v : option Widget) (s : Screen) : Screen :=
  mkScreen (mChildren s) (mFocusPath s) (mMousePos s) (mMouseState s)
    (mModifiers s) (mDragActive s) v (mCursor s) (mSize s) (mFBSize s)
    (mPixelRatio s) (mLastInteraction s) (mResizeCallback s).
Definition set_mCursor (v : Z) (s : Screen) : Screen :=
  mkScreen (mChildren s) (mFocusPath s) (mMousePos s) (mMouseState s)
    (mModifiers s) (mDragActive s) (mDragWidget s) v (mSize s) (mFBSize s)
    (mPixelRatio s) (mLastInteraction s) (mResizeCallback s).
Definition set_mSize (v : Vector2i) (s : Screen) : Screen :=
  mkScreen (mChildren s) (mFocusPath s) (mMousePos s) (mMouseState s)
    (mModifiers s) (mDragActive s) (mDragWidget s) (mCursor s) v (mFBSize s)
    (mPixelRatio s) (mLastInteraction s) (mResizeCallback s).
Definition set_mFBSize (v : Vector2i) (s : Screen) : Screen :=
  mkScreen (mChildren s) (mFocusPath s) (mMousePos s) (mMouseState s)
    (mModifiers s) (mDragActive s) (mDragWidget s) (mCursor s) (mSize s) v
    (mPixelRatio s) (mLastInteraction s) (mResizeCallback s).
Definition set_mLastInteraction (v : double) (s : Screen) : Screen :=
  mkScreen (mChildren s) (mFocusPath s) (mMousePos s) (mMouseState s)
    (mModifiers s) (mDragActive s) (mDragWidget s) (mCursor s) (mSize s)
    (mFBSize s) (mPixelRatio s) v (mResizeCallback s).

(** *** What the rest of the toolkit and the platform provide *)

(** [#if defined(_WIN32) || defined(__linux__)] *)
Variable winOrLinux : bool.
(** [(int) (x / mPixelRatio)], [(int) x] and an element of
    [size /= mPixelRatio]: floating-point arithmetic, left abstract. *)
Variable div_to_int : double -> float -> Z.
Variable to_int : double -> Z.
Variable int_div_float : Z -> float -> Z.

(** The widgets' own state (geometry, flags, subtrees), reached only through
    the accessors of [widget.h], [window.h] and [popup.h] below. *)
Variable this : Widget.
Variable isWindow : Widget -> bool.
Variable isPopup : Widget -> bool.
Variable parentWindow : Widget -> option Widget.
Variable focused : World -> Widget -> bool.
Variable modal : World -> Widget -> bool.
Variable contains : World -> Widget -> Vector2i -> bool.
Variable cursor : World -> Widget -> Z.
Variable parent : World -> Widget -> option Widget.
Variable absolutePosition : World -> Widget -> Vector2i.
Variable findWidget : Screen -> World -> Vector2i -> option Widget.
(** The effect of [Widget::removeChild] on the widgets other than the
    Screen's own child list. *)
Variable removeChild_world : Widget -> World -> World.

(** A virtual event method or hook, run on the current state: it returns
    or throws, and may have changed the Screen and the widgets meanwhile
    (built-in widgets call [requestFocus], which re-enters [updateFocus]). *)
Inductive Outcome : Type :=
| Returns (b : bool) (s : Screen) (w : World)
| Throws (e : Thrown) (s : Screen) (w : World).
Variable callback : Call double -> Screen -> World -> Outcome.

(** *** Handler computations *)

Record State : Type := mkState {
  screen : Screen;
  world : World;
  (** every [Call] made so far, oldest first *)
  trace : list (Call double);
  (** every exception a call has thrown so far, oldest first *)
  thrown : list Thrown;
  (** the lines written to [std::cerr] *)
  cerr : list string
}.

Definition M (A : Type) : Type := State -> Result A * State.

Definition ret {A : Type} (a : A) : M A := fun st => (Ok a, st).

Definition bind {A B : Type} (m : M A) (k : A -> M B) : M B :=
  fun st =>
    match m st with
    | (Ok a, st') => k a st'
    | (Raised e, st') => (Raised e, st')
    | (NullDeref, st') => (NullDeref, st')
    | (OutOfFuel, st') => (OutOfFuel, st')
    end.

Notation "'let*' x ':=' m 'in' k" := (bind m (fun x => k))
  (at level 10, x name, m at level 100, k at level 200, only parsing).
Notation "m '>>' k" := (bind m (fun _ => k))
  (at level 100, k at level 200, right associativity, only parsing).

Definition get_screen : M Screen := fun st => (Ok (screen st), st).
Definition get_world : M World := fun st => (Ok (world st), st).
Definition with_screen (f : Screen -> Screen) (st : State) : State :=
  mkState (f (screen st)) (world st) (trace st) (thrown st) (cerr st).

Definition assign (f : Screen -> Screen) : M unit :=
  fun st => (Ok tt, with_screen f st).
Definition update_world (f : World -> World) : M unit :=
  fun st =>
    (Ok tt, mkState (screen st) (f (world st)) (trace st) (thrown st) (cerr st)).

(** [ptr->...] on a nullable pointer *)
Definition deref {A : Type} (ptr : option A) : M A :=
  fun st => match ptr with Some a => (Ok a, st) | None => (NullDeref, st) end.

Definition out_of_fuel {A : Type} : M A := fun st => (OutOfFuel, st).

(** [findWidget(p)] on the Screen *)
Definition hit_test (p : Vector2i) : M (option Widget) :=
  fun st =>
    (Ok (findWidget (screen st) (world st) p),
     mkState (screen st) (world st) (trace st ++ [FindWidget p]) (thrown st)
       (cerr st)).

(** A virtual call: recorded, then run. *)
Definition invoke (c : Call double) : M bool :=
  fun st =>
    match callback c (screen st) (world st) with
    | Returns b s w =>
        (Ok b, mkState s w (trace st ++ [c]) (thrown st) (cerr st))
    | Throws e s w =>
        (Raised e, mkState s w (trace st ++ [c]) (thrown st ++ [e]) (cerr st))
    end.

(** The line every [catch] clause writes to [std::cerr]. *)
Definition log_line (what : string) : string :=
  "Caught exception in event handler: " +:+ what.

Definition logged (what : string) (st : State) : State :=
  mkState (screen st) (world st) (trace st) (thrown st)
    (cerr st ++ [log_line what]).

(** [try { body } catch (const std::exception &e) { std::cerr << ... <<
    e.what() << std::endl; return false; }] *)
Definition try_catch (body : M bool) : M bool :=
  fun st =>
    match body st with
    | (Raised (StdException what), st') => (Ok false, logged what st')
    | other => other
    end.

(** *** Keyboard routing *)

(** The body of both keyboard loops, for the widget [w] the iterator points
    to: [if (w->focused() && w->event(...)) return true;]. The iterators run
    over the path as it was when the loop began. *)
Fixpoint first_consumer (event : Widget -> Call double) (ws : list Widget)
    : M bool :=
  match ws with
  | [] => ret false
  | w :: rest =>
      let* wld := get_world in
      if focused wld w then
        let* consumed := invoke (event w) in
        if (consumed : bool) then ret true else first_consumer event rest
      else first_consumer event rest
  end.

(** [mFocusPath.rbegin() + 1 .. mFocusPath.rend()] *)
Definition from_rbegin_plus_1 (mFocusPath : list Widget) : list Widget :=
  tail (reverse mFocusPath).

Definition keyboardEvent (key scancode action modifiers : Z) : M bool :=
  let* s := get_screen in
  if decide (0 < length (mFocusPath s)) then
    first_consumer (fun w => KeyboardEvent w key scancode action modifiers)
      (from_rbegin_plus_1 (mFocusPath s))
  else ret false.

Definition keyboardCharacterEvent (codepoint : Z) : M bool :=
  let* s := get_screen in
  if decide (0 < length (mFocusPath s)) then
    first_consumer (fun w => KeyboardCharacterEvent w codepoint)
      (from_rbegin_plus_1 (mFocusPath s))
  else ret false.

Definition resizeEvent (size : Vector2i) : M bool :=
  let* s := get_screen in
  if mResizeCallback s then
    invoke (ResizeCallback size) >> ret true
  else ret false.

(** *** Focus and z-order *)

(** [for (auto w : mFocusPath) { if (!w->focused()) continue;
    w->focusEvent(false); }] *)
Fixpoint unfocus_all (ws : list Widget) : M unit :=
  match ws with
  | [] => ret tt
  | w :: rest =>
      let* wld := get_world in
      if focused wld w then invoke (FocusEvent w false) >> unfocus_all rest
      else unfocus_all rest
  end.

(** [while (widget) { mFocusPath.push_back(widget); if
    (dynamic_cast<Window *>(widget)) window = widget; widget =
    widget->parent(); }], yielding [window]. *)
Fixpoint walk_to_root (fuel : nat) (widget window : option Widget)
    : M (option Widget) :=
  match widget with
  | None => ret window
  | Some w =>
      match fuel with
      | 0 => out_of_fuel
      | S fuel' =>
          assign (fun s => set_mFocusPath (mFocusPath s ++ [w]) s) >>
          let* wld := get_world in
          walk_to_root fuel' (parent wld w)
            (if isWindow w then Some w else window)
      end
  end.

(** [for (auto it = mFocusPath.rbegin(); it != mFocusPath.rend(); ++it)]
    calling [focusEvent(true)] on the widget at [it]. *)
Fixpoint focus_all (ws : list Widget) : M unit :=
  match ws with
  | [] => ret tt
  | w :: rest => invoke (FocusEvent w true) >> focus_all rest
  end.

Definition moveWindowToFront (fuel : nat) (window : Widget) : M unit :=
  let* s := get_screen in
  match ZOrder.moveWindowToFront isPopup parentWindow fuel window (mChildren s) with
  | Some mChildren' => assign (set_mChildren mChildren')
  | None => out_of_fuel
  end.

Definition updateFocus (fuel : nat) (widget : option Widget) : M unit :=
  let* s := get_screen in
  unfocus_all (mFocusPath s) >>
  assign (set_mFocusPath []) >>
  let* window := walk_to_root fuel widget None in
  let* s := get_screen in
  focus_all (reverse (mFocusPath s)) >>
  match window with
  | Some w => moveWindowToFront fuel w
  | None => ret tt
  end.

(** Modelled from the spec: [Widget::removeChild], whose code is not in
    [screen.cpp], detaches the window from the tree, so the Screen loses
    that child. *)
Definition removeChild (window : Widget) : M unit :=
  assign (fun s => set_mChildren (ZOrder.erase_all window (mChildren s)) s) >>
  update_world (removeChild_world window).

Definition disposeWindow (window : Widget) : M unit :=
  let* s := get_screen in
  (if decide (window ∈ mFocusPath s) then assign (set_mFocusPath [])
   else ret tt) >>
  let* s := get_screen in
  (if decide (mDragWidget s = Some window) then assign (set_mDragWidget None)
   else ret tt) >>
  removeChild window.

(** *** The native event entry points *)

(** The lines that open the [try] block of both the button and the scroll
    handler; [true] when they take the early [return false]. *)
Definition outside_modal : M bool :=
  let* s := get_screen in
  if decide (1 < length (mFocusPath s)) then
    match mFocusPath s !! (length (mFocusPath s) - 2) with
    | Some w =>
        if isWindow w then
          let* wld := get_world in
          if modal wld w then ret (negb (contains wld w (mMousePos s)))
          else ret false
        else ret false
    | None => ret false
    end
  else ret false.

(** [if (widget != nullptr && widget->cursor() != mCursor) mCursor =
    widget->cursor();] *)
Definition update_cursor (widget : option Widget) : M unit :=
  let* s := get_screen in
  let* wld := get_world in
  match widget with
  | Some w =>
      if decide (cursor wld w <> mCursor s)
      then assign (set_mCursor (cursor wld w)) else ret tt
  | None => ret tt
  end.

(** The point [p] as first declared in [cursorPosCallbackEvent]. *)
Definition logical_point (s : Screen) (x y : double) : Vector2i :=
  if winOrLinux
  then Vector2i_make (div_to_int x (mPixelRatio s)) (div_to_int y (mPixelRatio s))
  else Vector2i_make (to_int x) (to_int y).

(** The [try] block of [cursorPosCallbackEvent]. *)
Definition cursorPos_dispatch (p0 : Vector2i) : M bool :=
  let p := Vector2i_sub_assign p0 (Vector2i_make 1 2) in
  let* s := get_screen in
  let* ret0 :=
    (if negb (mDragActive s) then
       let* widget := hit_test p in
       (update_cursor widget >> ret false)
     else
       let* dw := deref (mDragWidget s) in
       let* wld := get_world in
       let* par := deref (parent wld dw) in
       invoke (MouseDragEvent dw (Vector2i_sub p (absolutePosition wld par))
                 (Vector2i_sub p (mMousePos s)) (mMouseState s) (mModifiers s))) in
  let* ret1 :=
    (if negb ret0 then
       let* s := get_screen in
       invoke (MouseMotionEvent this p (Vector2i_sub p (mMousePos s))
                 (mMouseState s) (mModifiers s))
     else ret ret0) in
  (assign (set_mMousePos p) >> ret ret1).

Definition cursorPosCallbackEvent (now : double) (x y : double) : M bool :=
  let* s := get_screen in
  let p := logical_point s x y in
  (assign (set_mLastInteraction now) >>
   try_catch (cursorPos_dispatch p)).

(** The [try] block of [mouseButtonCallbackEvent]. *)
Definition mouseButton_dispatch (button action : Z) : M bool :=
  let* blocked := outside_modal in
  if (blocked : bool) then ret false else
  (assign (fun s =>
     set_mMouseState
       (if (action =? 1)%Z
        then Z.lor (mMouseState s) (int_shl 1 button)
        else Z.land (mMouseState s) (int_not (int_shl 1 button))) s) >>
   let* s := get_screen in
   let* dropWidget := hit_test (mMousePos s) in
   let* s := get_screen in
   ((if mDragActive s && (action =? 0)%Z
        && negb (bool_decide (dropWidget = mDragWidget s))
     then
       let* dw := deref (mDragWidget s) in
       let* wld := get_world in
       let* par := deref (parent wld dw) in
       (invoke (MouseButtonEvent dw
                  (Vector2i_sub (mMousePos s) (absolutePosition wld par))
                  button false (mModifiers s)) >> ret tt)
     else ret tt) >>
    update_cursor dropWidget >>
    (if (action =? 1)%Z && ((button =? 1)%Z || (button =? 2)%Z) then
       let* s := get_screen in
       let* found := hit_test (mMousePos s) in
       (assign (set_mDragWidget found) >>
        (if decide (found = Some this) then assign (set_mDragWidget None)
         else ret tt) >>
        assign (fun s =>
          set_mDragActive (bool_decide (mDragWidget s <> None)) s) >>
        let* s := get_screen in
        if negb (mDragActive s) then updateFocus 0 None else ret tt)
     else
       (assign (set_mDragActive false) >> assign (set_mDragWidget None))) >>
    let* s := get_screen in
    invoke (MouseButtonEvent this (mMousePos s) button (action =? 1)%Z
              (mModifiers s)))).

Definition mouseButtonCallbackEvent (now : double) (button action modifiers : Z)
    : M bool :=
  assign (set_mModifiers modifiers) >>
  assign (set_mLastInteraction now) >>
  try_catch (mouseButton_dispatch button action).

Definition keyCallbackEvent (now : double) (key scancode action mods : Z)
    : M bool :=
  assign (set_mLastInteraction now) >>
  try_catch (keyboardEvent key scancode action mods).

Definition charCallbackEvent (now : double) (codepoint : Z) : M bool :=
  assign (set_mLastInteraction now) >>
  try_catch (keyboardCharacterEvent codepoint).

(** [arg] holds [filenames[0 .. count - 1]]; there is no [try] here. *)
Definition dropCallbackEvent (filenames : list string) : M bool :=
  invoke (DropEvent this filenames).

(** The [try] block of [scrollCallbackEvent]. *)
Definition scroll_dispatch (x y : double) : M bool :=
  let* blocked := outside_modal in
  if (blocked : bool) then ret false else
  let* s := get_screen in
  invoke (ScrollEvent this (mMousePos s) x y).

Definition scrollCallbackEvent (now : double) (x y : double) : M bool :=
  assign (set_mLastInteraction now) >>
  try_catch (scroll_dispatch x y).

(** [size /= mPixelRatio], element by element. *)
Definition Vector2i_div_float (v : Vector2i) (ratio : float) : Vector2i :=
  (fun e => int_div_float e ratio) <$> v.

(** [width] and [height] are what [puglGetSize] stores into [size]. *)
Definition resizeCallbackEvent (now : double) (width height : Z) : M bool :=
  let* s := get_screen in
  let size0 := Vector2i_make width height in
  let fbSize := size0 in
  let size :=
    if winOrLinux then Vector2i_div_float size0 (mPixelRatio s) else size0 in
  if Vector2i_eq fbSize (Vector2i_make 0 0) || Vector2i_eq size (Vector2i_make 0 0)
  then ret false
  else
    (assign (set_mFBSize fbSize) >>
     assign (set_mSize size) >>
     assign (set_mLastInteraction now) >>
     try_catch (let* s := get_screen in resizeEvent (mSize s))).

(** *** Modal capture *)

Lemma outside_modal_blocks (st : State) (win : Widget) :
  1 < length (mFocusPath (screen st)) ->
  mFocusPath (screen st) !! (length (mFocusPath (screen st)) - 2) = Some win ->
  isWindow win = true ->
  modal (world st) win = true ->
  contains (world st) win (mMousePos (screen st)) = false ->
  outside_modal st = (Ok true, st).
Proof.
  intros Hlen Hwin Hcast Hmodal Hout.
  unfold outside_modal, bind, get_screen, get_world, ret.
  rewrite decide_True by exact Hlen.
  rewrite Hwin, Hcast, Hmodal, Hout. reflexivity.
Qed.

(** C2: while the widget just below the root on the focus path is a modal
    window that does not contain the mouse position, a button event and a
    scroll event each return false, make no call into any widget, and write
    nothing but the modifiers and the interaction time. *)
Theorem modal_capture (st : State) (win : Widget) (now : double)
    (button action modifiers : Z) (x y : double) :
  1 < length (mFocusPath (screen st)) ->
  mFocusPath (screen st) !! (length (mFocusPath (screen st)) - 2) = Some win ->
  isWindow win = true ->
  modal (world st) win = true ->
  contains (world st) win (mMousePos (screen st)) = false ->
  mouseButtonCallbackEvent now button action modifiers st =
    (Ok false,
     with_screen
       (fun s => set_mLastInteraction now (set_mModifiers modifiers s)) st) /\
  scrollCallbackEvent now x y st =
    (Ok false, with_screen (set_mLastInteraction now) st).
Proof.
  intros Hlen Hwin Hcast Hmodal Hout. split.
  - unfold mouseButtonCallbackEvent, try_catch, mouseButton_dispatch.
    unfold bind at 1 2 3. unfold assign at 1 2. simpl.
    rewrite (outside_modal_blocks _ win) by assumption. reflexivity.
  - unfold scrollCallbackEvent, try_catch, scroll_dispatch.
    unfold bind at 1 2. unfold assign at 1. simpl.
    rewrite (outside_modal_blocks _ win) by assumption. reflexivity.
Qed.

(** *** Exceptions at the entry points *)

(** A computation keeps the books when [thrown] grows by exactly the
    exception it ends with, if any, and it writes nothing to [cerr]. *)
Definition tracked {A : Type} (m : M A) : Prop :=
  forall st,
    cerr (m st).2 = cerr st /\
    match (m st).1 with
    | Raised e => thrown (m st).2 = thrown st ++ [e]
    | _ => thrown (m st).2 = thrown st
    end.

Lemma tracked_ret {A : Type} (a : A) : tracked (ret a).
Proof. intros st. by split. Qed.

Lemma tracked_bind {A B : Type} (m : M A) (k : A -> M B) :
  tracked m -> (forall a, tracked (k a)) -> tracked (bind m k).
Proof.
  intros Hm Hk st. specialize (Hm st). unfold bind.
  destruct (m st) as [[a|e| |] st1]; simpl in *; try exact Hm.
  destruct Hm as [Hc Ht]. specialize (Hk a st1). rewrite Hc, Ht in Hk. exact Hk.
Qed.

Lemma tracked_get_screen : tracked get_screen.
Proof. intros st. by split. Qed.

Lemma tracked_get_world : tracked get_world.
Proof. intros st. by split. Qed.

Lemma tracked_assign f : tracked (assign f).
Proof. intros st. by split. Qed.

Lemma tracked_update_world f : tracked (update_world f).
Proof. intros st. by split. Qed.

Lemma tracked_deref {A : Type} (ptr : option A) : tracked (deref ptr).
Proof. intros st. unfold deref. by destruct ptr. Qed.

Lemma tracked_out_of_fuel {A : Type} : tracked (@out_of_fuel A).
Proof. intros st. by split. Qed.

Lemma tracked_hit_test p : tracked (hit_test p).
Proof. intros st. by split. Qed.

Lemma tracked_invoke c : tracked (invoke c).
Proof.
  intros st. unfold invoke.
  by destruct (callback c (screen st) (world st)).
Qed.

Ltac tracked_step :=
  lazymatch goal with
  | |- tracked (ret _) => apply tracked_ret
  | |- tracked (bind _ _) => apply tracked_bind; [|intros ?]
  | |- tracked get_screen => apply tracked_get_screen
  | |- tracked get_world => apply tracked_get_world
  | |- tracked (assign _) => apply tracked_assign
  | |- tracked (update_world _) => apply tracked_update_world
  | |- tracked (deref _) => apply tracked_deref
  | |- tracked out_of_fuel => apply tracked_out_of_fuel
  | |- tracked (hit_test _) => apply tracked_hit_test
  | |- tracked (invoke _) => apply tracked_invoke
  | |- tracked (if ?c then _ else _) => destruct c
  | |- tracked (match ?x with _ => _ end) => destruct x
  | |- tracked _ => solve [auto]
  end.
Ltac tracked_auto := repeat tracked_step.

Lemma tracked_first_consumer event ws : tracked (first_consumer event ws).
Proof. induction ws as [|w ws IH]; simpl; tracked_auto. Qed.

Lemma tracked_unfocus_all ws : tracked (unfocus_all ws).
Proof. induction ws as [|w ws IH]; simpl; tracked_auto. Qed.

Lemma tracked_focus_all ws : tracked (focus_all ws).
Proof. induction ws as [|w ws IH]; simpl; tracked_auto. Qed.

Lemma tracked_walk_to_root fuel widget window :
  tracked (walk_to_root fuel widget window).
Proof.
  revert widget window.
  induction fuel as [|fuel IH]; intros [w|] window; simpl; tracked_auto.
Qed.

Lemma tracked_updateFocus fuel widget : tracked (updateFocus fuel widget).
Proof.
  unfold updateFocus, moveWindowToFront.
  pose proof tracked_unfocus_all. pose proof tracked_focus_all.
  pose proof tracked_walk_to_root. tracked_auto.
Qed.

Lemma tracked_outside_modal : tracked outside_modal.
Proof. unfold outside_modal. tracked_auto. Qed.

Lemma tracked_keyboardEvent key scancode action modifiers :
  tracked (keyboardEvent key scancode action modifiers).
Proof.
  unfold keyboardEvent. pose proof tracked_first_consumer. tracked_auto.
Qed.

Lemma tracked_keyboardCharacterEvent codepoint :
  tracked (keyboardCharacterEvent codepoint).
Proof.
  unfold keyboardCharacterEvent. pose proof tracked_first_consumer. tracked_auto.
Qed.

Lemma tracked_resizeEvent size : tracked (resizeEvent size).
Proof. unfold resizeEvent. tracked_auto. Qed.

Lemma tracked_cursorPos_dispatch p : tracked (cursorPos_dispatch p).
Proof. unfold cursorPos_dispatch, update_cursor. tracked_auto. Qed.

Lemma tracked_mouseButton_dispatch button action :
  tracked (mouseButton_dispatch button action).
Proof.
  unfold mouseButton_dispatch, update_cursor.
  pose proof tracked_outside_modal. pose proof tracked_updateFocus.
  tracked_auto.
Qed.

Lemma tracked_scroll_dispatch x y : tracked (scroll_dispatch x y).
Proof.
  unfold scroll_dispatch. pose proof tracked_outside_modal. tracked_auto.
Qed.

(** An entry point catches [std::exception]s: none leaves it, one thrown
    during it makes it return false with the line logged, without a throw
    nothing is logged, and any other thrown value leaves it. *)
Definition catches_std (handler : M bool) : Prop :=
  forall st,
    (forall what, (handler st).1 <> Raised (StdException what)) /\
    (forall what, thrown (handler st).2 = thrown st ++ [StdException what] ->
       (handler st).1 = Ok false /\
       cerr (handler st).2 = cerr st ++ [log_line what]) /\
    (thrown (handler st).2 = thrown st -> cerr (handler st).2 = cerr st) /\
    (thrown (handler st).2 = thrown st ++ [OtherThrown] ->
       (handler st).1 = Raised OtherThrown).

Lemma snoc_neq {A : Type} (l : list A) (a : A) : l ++ [a] <> l.
Proof.
  intros H. apply (f_equal length) in H. rewrite length_app in H.
  simpl in H. lia.
Qed.

Lemma catches_try_catch (body : M bool) :
  tracked body -> catches_std (try_catch body).
Proof.
  intros Hbody st. destruct (Hbody st) as [Hcerr Hthrown].
  unfold try_catch.
  destruct (body st) as [[b|[what0|]| |] st1]; simpl in *;
    (split; [done|split; [|split]]); try (intros _; exact Hcerr);
    rewrite Hthrown; intros; simplify_list_eq; try done;
    try (exfalso; eapply snoc_neq; eauto; done).
  by rewrite Hcerr.
Qed.

Lemma catches_after_assign f (handler : M bool) :
  catches_std handler -> catches_std (assign f >> handler).
Proof. intros H st. exact (H (with_screen f st)). Qed.

Lemma catches_ret (b : bool) : catches_std (ret b).
Proof.
  intros st. simpl. split; [done|split; [|split; [done|]]].
  - intros what H. symmetry in H. by apply snoc_neq in H.
  - intros H. symmetry in H. by apply snoc_neq in H.
Qed.

Lemma cursorPos_catches now x y : catches_std (cursorPosCallbackEvent now x y).
Proof.
  intros st. unfold cursorPosCallbackEvent.
  apply (catches_after_assign (set_mLastInteraction now)
           (try_catch (cursorPos_dispatch (logical_point (screen st) x y)))).
  apply catches_try_catch, tracked_cursorPos_dispatch.
Qed.

Lemma bind_get_screen {A : Type} (k : Screen -> M A) (st : State) :
  bind get_screen k st = k (screen st) st.
Proof. reflexivity. Qed.

Lemma resize_update_catches now (fbSize size : Vector2i) :
  catches_std
    (assign (set_mFBSize fbSize) >>
     assign (set_mSize size) >>
     assign (set_mLastInteraction now) >>
     try_catch (let* s := get_screen in resizeEvent (mSize s))).
Proof.
  apply catches_after_assign, catches_after_assign, catches_after_assign,
    catches_try_catch.
  pose proof tracked_resizeEvent. tracked_auto.
Qed.

Lemma resize_catches now width height :
  catches_std (resizeCallbackEvent now width height).
Proof.
  intros st. unfold resizeCallbackEvent.
  rewrite !bind_get_screen.
  destruct (_ || _).
  - exact (catches_ret false st).
  - exact (resize_update_catches now _ _ st).
Qed.

(** C3, as the code has it: each of the cursor, button, key, character,
    scroll and resize entry points catches every exception derived from
    [std::exception] that a callback throws during it, logs it and returns
    false. *)
Theorem entry_points_catch_std_exceptions (now : double) (x y : double)
    (button action modifiers key scancode codepoint width height : Z) :
  catches_std (cursorPosCallbackEvent now x y) /\
  catches_std (mouseButtonCallbackEvent now button action modifiers) /\
  catches_std (keyCallbackEvent now key scancode action modifiers) /\
  catches_std (charCallbackEvent now codepoint) /\
  catches_std (scrollCallbackEvent now x y) /\
  catches_std (resizeCallbackEvent now width height).
Proof.
  refine (conj _ (conj _ (conj _ (conj _ (conj _ _))))).
  - apply cursorPos_catches.
  - apply catches_after_assign, catches_after_assign, catches_try_catch,
      tracked_mouseButton_dispatch.
  - apply catches_after_assign, catches_try_catch, tracked_keyboardEvent.
  - apply catches_after_assign, catches_try_catch,
      tracked_keyboardCharacterEvent.
  - apply catches_after_assign, catches_try_catch, tracked_scroll_dispatch.
  - apply resize_catches.
Qed.

(** *** The drag target *)

Definition drag_invariant (s : Screen) : Prop :=
  mDragActive s = true -> mDragWidget s <> None.

(** C9 at the input that breaks it: disposing of the window that is being
    dragged clears [mDragWidget] and leaves [mDragActive] set, and the next
    cursor event dereferences the null [mDragWidget]. *)
Theorem disposeWindow_leaves_drag_active (st : State) (W : Widget)
    (now x y : double) :
  mDragActive (screen st) = true ->
  mDragWidget (screen st) = Some W ->
  drag_invariant (screen st) /\
  (disposeWindow W st).1 = Ok tt /\
  mDragActive (screen (disposeWindow W st).2) = true /\
  mDragWidget (screen (disposeWindow W st).2) = None /\
  ~ drag_invariant (screen (disposeWindow W st).2) /\
  (cursorPosCallbackEvent now x y (disposeWindow W st).2).1 = NullDeref.
Proof.
  intros Hactive Hwidget.
  assert (mDragActive (screen (disposeWindow W st).2) = true /\
          mDragWidget (screen (disposeWindow W st).2) = None /\
          (disposeWindow W st).1 = Ok tt) as (Ha & Hw & Hok).
  { unfold disposeWindow, removeChild, bind, get_screen, assign, update_world,
      ret.
    destruct (decide (W ∈ mFocusPath (screen st))); simpl;
      rewrite Hwidget; rewrite decide_True by done; simpl; auto. }
  split; [intros _; by rewrite Hwidget|].
  split; [exact Hok|]. split; [exact Ha|]. split; [exact Hw|].
  split; [intros Hinv; by apply Hinv|].
  unfold cursorPosCallbackEvent, try_catch, cursorPos_dispatch, bind,
    get_screen, assign, deref. simpl.
  rewrite Ha, Hw. reflexivity.
Qed.

(** Everywhere else the Screen keeps [drag_invariant], as long as the
    callbacks it runs leave the two drag members alone. *)
Definition callbacks_keep_drag : Prop :=
  forall c s w,
    match callback c s w with
    | Returns _ s' _ | Throws _ s' _ =>
        mDragActive s' = mDragActive s /\ mDragWidget s' = mDragWidget s
    end.

Definition drag_stable {A : Type} (m : M A) : Prop :=
  forall st,
    mDragActive (screen (m st).2) = mDragActive (screen st) /\
    mDragWidget (screen (m st).2) = mDragWidget (screen st).

Definition keeps_drag_invariant {A : Type} (m : M A) : Prop :=
  forall st, drag_invariant (screen st) -> drag_invariant (screen (m st).2).

Definition sets_drag_invariant {A : Type} (m : M A) : Prop :=
  forall st, drag_invariant (screen (m st).2).

Section KeepDrag.
Hypothesis Hkeep : callbacks_keep_drag.

Lemma stable_ret {A : Type} (a : A) : drag_stable (ret a).
Proof. by intros st. Qed.

Lemma stable_bind {A B : Type} (m : M A) (k : A -> M B) :
  drag_stable m -> (forall a, drag_stable (k a)) -> drag_stable (bind m k).
Proof.
  intros Hm Hk st. specialize (Hm st). unfold bind.
  destruct (m st) as [[a|e| |] st1]; simpl in *; try exact Hm.
  destruct Hm as [<- <-]. apply Hk.
Qed.

Lemma stable_get_screen : drag_stable get_screen.
Proof. by intros st. Qed.

Lemma stable_get_world : drag_stable get_world.
Proof. by intros st. Qed.

Lemma stable_assign f :
  (forall s, mDragActive (f s) = mDragActive s /\
             mDragWidget (f s) = mDragWidget s) ->
  drag_stable (assign f).
Proof. intros Hf st. apply Hf. Qed.

Lemma stable_update_world f : drag_stable (update_world f).
Proof. by intros st. Qed.

Lemma stable_deref {A : Type} (ptr : option A) : drag_stable (deref ptr).
Proof. intros st. unfold deref. by destruct ptr. Qed.

Lemma stable_out_of_fuel {A : Type} : drag_stable (@out_of_fuel A).
Proof. by intros st. Qed.

Lemma stable_hit_test p : drag_stable (hit_test p).
Proof. by intros st. Qed.

Lemma stable_invoke c : drag_stable (invoke c).
Proof.
  intros st. unfold invoke. specialize (Hkeep c (screen st) (world st)).
  by destruct (callback c (screen st) (world st)).
Qed.

Lemma stable_try_catch (body : M bool) :
  drag_stable body -> drag_stable (try_catch body).
Proof.
  intros Hbody st. specialize (Hbody st). unfold try_catch.
  by destruct (body st) as [[b|[what|]| |] st1].
Qed.

Ltac stable_step :=
  lazymatch goal with
  | |- drag_stable (ret _) => apply stable_ret
  | |- drag_stable (bind _ _) => apply stable_bind; [|intros ?]
  | |- drag_stable (try_catch _) => apply stable_try_catch
  | |- drag_stable get_screen => apply stable_get_screen
  | |- drag_stable get_world => apply stable_get_world
  | |- drag_stable (update_world _) => apply stable_update_world
  | |- drag_stable (deref _) => apply stable_deref
  | |- drag_stable out_of_fuel => apply stable_out_of_fuel
  | |- drag_stable (hit_test _) => apply stable_hit_test
  | |- drag_stable (invoke _) => apply stable_invoke
  | |- drag_stable (assign _) =>
      apply stable_assign; intros ?; split; reflexivity
  | |- drag_stable (if ?c then _ else _) => destruct c
  | |- drag_stable (match ?x with _ => _ end) => destruct x
  | |- drag_stable _ => solve [auto]
  end.
Ltac stable_auto := repeat stable_step.

Lemma stable_first_consumer event ws : drag_stable (first_consumer event ws).
Proof. induction ws as [|w ws IH]; simpl; stable_auto. Qed.

Lemma stable_unfocus_all ws : drag_stable (unfocus_all ws).
Proof. induction ws as [|w ws IH]; simpl; stable_auto. Qed.

Lemma stable_focus_all ws : drag_stable (focus_all ws).
Proof. induction ws as [|w ws IH]; simpl; stable_auto. Qed.

Lemma stable_walk_to_root fuel widget window :
  drag_stable (walk_to_root fuel widget window).
Proof.
  revert widget window.
  induction fuel as [|fuel IH]; intros [w|] window; simpl; stable_auto.
Qed.

Lemma stable_updateFocus fuel widget : drag_stable (updateFocus fuel widget).
Proof.
  unfold updateFocus, moveWindowToFront.
  pose proof stable_unfocus_all. pose proof stable_focus_all.
  pose proof stable_walk_to_root. stable_auto.
Qed.

Lemma stable_outside_modal : drag_stable outside_modal.
Proof. unfold outside_modal. stable_auto. Qed.

Lemma stable_update_cursor widget : drag_stable (update_cursor widget).
Proof. unfold update_cursor. stable_auto. Qed.

Lemma stable_cursorPos_dispatch p0 : drag_stable (cursorPos_dispatch p0).
Proof.
  pose proof stable_update_cursor.
  unfold cursorPos_dispatch. cbv zeta. stable_auto.
Qed.

Lemma stable_cursorPosCallbackEvent now x y :
  drag_stable (cursorPosCallbackEvent now x y).
Proof.
  pose proof stable_cursorPos_dispatch.
  unfold cursorPosCallbackEvent. cbv zeta. stable_auto.
Qed.

Lemma keeps_of_stable {A : Type} (m : M A) :
  drag_stable m -> keeps_drag_invariant m.
Proof.
  intros Hm st Hinv. destruct (Hm st) as [Ha Hw].
  unfold drag_invariant in *. by rewrite Ha, Hw.
Qed.

Lemma keeps_of_sets {A : Type} (m : M A) :
  sets_drag_invariant m -> keeps_drag_invariant m.
Proof. intros Hm st _. apply Hm. Qed.

Lemma keeps_bind {A B : Type} (m : M A) (k : A -> M B) :
  keeps_drag_invariant m -> (forall a, keeps_drag_invariant (k a)) ->
  keeps_drag_invariant (bind m k).
Proof.
  intros Hm Hk st Hinv. specialize (Hm st Hinv). unfold bind.
  destruct (m st) as [[a|e| |] st1]; simpl in *; try exact Hm.
  by apply Hk.
Qed.

Lemma sets_bind {A B : Type} (m : M A) (k : A -> M B) :
  sets_drag_invariant m -> (forall a, keeps_drag_invariant (k a)) ->
  sets_drag_invariant (bind m k).
Proof.
  intros Hm Hk st. specialize (Hm st). unfold bind.
  destruct (m st) as [[a|e| |] st1]; simpl in *; try exact Hm.
  by apply Hk.
Qed.

Lemma keeps_try_catch (body : M bool) :
  keeps_drag_invariant body -> keeps_drag_invariant (try_catch body).
Proof.
  intros Hbody st Hinv. specialize (Hbody st Hinv). unfold try_catch.
  by destruct (body st) as [[b|[what|]| |] st1].
Qed.

(** The [if (action == 1 && (button == 1 || button == 2)) ... else ...]
    statement of [mouseButtonCallbackEvent] sets the two members together. *)
Lemma sets_drag_target (cond : bool) :
  sets_drag_invariant
    (if cond then
       let* s := get_screen in
       let* found := hit_test (mMousePos s) in
       (assign (set_mDragWidget found) >>
        (if decide (found = Some this) then assign (set_mDragWidget None)
         else ret tt) >>
        assign (fun s =>
          set_mDragActive (bool_decide (mDragWidget s <> None)) s) >>
        let* s := get_screen in
        if negb (mDragActive s) then updateFocus 0 None else ret tt)
     else
       (assign (set_mDragActive false) >> assign (set_mDragWidget None))).
Proof.
  intros st. destruct cond; [|by intros ?].
  unfold bind at 1 2 3 4 5 6, get_screen, hit_test, assign, with_screen. simpl.
  destruct (decide (findWidget (screen st) (world st) (mMousePos (screen st))
                    = Some this)) as [Heq|Hne]; simpl.
  - pose proof (stable_updateFocus 0 None) as Hstable.
    match goal with
    | |- drag_invariant (screen (updateFocus 0 None ?st').2) =>
        destruct (Hstable st') as [Ha _]
    end.
    intros Hactive. rewrite Ha in Hactive. done.
  - destruct (findWidget (screen st) (world st) (mMousePos (screen st)))
      as [w|] eqn:Hfound; simpl.
    + intros _. simpl. done.
    + pose proof (stable_updateFocus 0 None) as Hstable.
      match goal with
      | |- drag_invariant (screen (updateFocus 0 None ?st').2) =>
          destruct (Hstable st') as [Ha _]
      end.
      intros Hactive. rewrite Ha in Hactive. done.
Qed.

Lemma keeps_mouseButton_dispatch button action :
  keeps_drag_invariant (mouseButton_dispatch button action).
Proof.
  unfold mouseButton_dispatch.
  apply keeps_bind; [apply keeps_of_stable, stable_outside_modal|].
  intros [|]; [apply keeps_of_stable, stable_ret|].
  apply keeps_bind; [apply keeps_of_stable; stable_auto|]. intros _.
  apply keeps_bind; [apply keeps_of_stable; stable_auto|]. intros s.
  apply keeps_bind; [apply keeps_of_stable; stable_auto|]. intros dropWidget.
  apply keeps_bind; [apply keeps_of_stable; stable_auto|]. intros s'.
  apply keeps_bind; [apply keeps_of_stable; stable_auto|]. intros _.
  apply keeps_bind; [apply keeps_of_stable, stable_update_cursor|]. intros _.
  apply keeps_of_sets, sets_bind; [apply sets_drag_target|]. intros _.
  apply keeps_of_stable. stable_auto.
Qed.

(** Every event entry point and [updateFocus] keep the invariant. *)
Lemma entry_points_keep_drag_invariant (now x y : double)
    (button action modifiers key scancode codepoint width height : Z)
    (filenames : list string) (fuel : nat) (widget : option Widget) :
  keeps_drag_invariant (cursorPosCallbackEvent now x y) /\
  keeps_drag_invariant (mouseButtonCallbackEvent now button action modifiers) /\
  keeps_drag_invariant (keyCallbackEvent now key scancode action modifiers) /\
  keeps_drag_invariant (charCallbackEvent now codepoint) /\
  keeps_drag_invariant (scrollCallbackEvent now x y) /\
  keeps_drag_invariant (resizeCallbackEvent now width height) /\
  keeps_drag_invariant (dropCallbackEvent filenames) /\
  keeps_drag_invariant (updateFocus fuel widget).
Proof.
  pose proof stable_first_consumer. pose proof stable_outside_modal.
  pose proof stable_update_cursor.
  refine (conj _ (conj _ (conj _ (conj _ (conj _ (conj _ (conj _ _))))))).
  - apply keeps_of_stable, stable_cursorPosCallbackEvent.
  - unfold mouseButtonCallbackEvent.
    apply keeps_bind; [apply keeps_of_stable; stable_auto|]. intros _.
    apply keeps_bind; [apply keeps_of_stable; stable_auto|]. intros _.
    apply keeps_try_catch, keeps_mouseButton_dispatch.
  - apply keeps_of_stable. unfold keyCallbackEvent, keyboardEvent. stable_auto.
  - apply keeps_of_stable.
    unfold charCallbackEvent, keyboardCharacterEvent. stable_auto.
  - apply keeps_of_stable.
    unfold scrollCallbackEvent, scroll_dispatch. stable_auto.
  - apply keeps_of_stable.
    unfold resizeCallbackEvent, resizeEvent. stable_auto.
  - apply keeps_of_stable. unfold dropCallbackEvent. stable_auto.
  - apply keeps_of_stable, stable_updateFocus.
Qed.

End KeepDrag.

(** *** Resizing *)

(** The size [resizeCallbackEvent] stores in [mSize]. *)
Definition logical_size (s : Screen) (width height : Z) : Vector2i :=
  if winOrLinux
  then Vector2i_div_float (Vector2i_make width height) (mPixelRatio s)
  else Vector2i_make width height.

(** C6: a report whose pixel size or whose logical size is the zero vector
    returns false and changes nothing; any other report stores both sizes
    and then runs the resize hook on the new logical size. *)
Theorem resize_ignores_zero_size (st : State) (now : double) (width height : Z) :
  let fbSize := Vector2i_make width height in
  let size := logical_size (screen st) width height in
  let stored :=
    with_screen
      (fun s => set_mLastInteraction now (set_mSize size (set_mFBSize fbSize s)))
      st in
  (zero_valued fbSize \/ zero_valued size ->
   resizeCallbackEvent now width height st = (Ok false, st)) /\
  (~ (zero_valued fbSize \/ zero_valued size) ->
   mFBSize (screen stored) = fbSize /\ mSize (screen stored) = size /\
   resizeCallbackEvent now width height st =
     if mResizeCallback (screen st) then
       match callback (ResizeCallback size) (screen stored) (world st) with
       | Returns _ s w =>
           (Ok true,
            mkState s w (trace st ++ [ResizeCallback size]) (thrown st)
              (cerr st))
       | Throws (StdException what) s w =>
           (Ok false,
            mkState s w (trace st ++ [ResizeCallback size])
              (thrown st ++ [StdException what])
              (cerr st ++ [log_line what]))
       | Throws OtherThrown s w =>
           (Raised OtherThrown,
            mkState s w (trace st ++ [ResizeCallback size])
              (thrown st ++ [OtherThrown]) (cerr st))
       end
     else (Ok false, stored)).
Proof using Type.
  intros fbSize size stored. subst stored size fbSize. unfold logical_size.
  unfold resizeCallbackEvent. rewrite bind_get_screen.
  set (fbSize := Vector2i_make width height).
  set (size := if winOrLinux then _ else _).
  assert (Vector2i_eq fbSize (Vector2i_make 0 0)
          || Vector2i_eq size (Vector2i_make 0 0) = true
          <-> zero_valued fbSize \/ zero_valued size) as Hcond.
  { rewrite orb_true_iff, !Vector2i_eq_zero. reflexivity. }
  destruct (Vector2i_eq fbSize _ || Vector2i_eq size _) eqn:Hb.
  - split; [reflexivity|]. intros Hnz. exfalso. by apply Hnz, Hcond.
  - split; [intros Hz%Hcond; discriminate|]. intros _.
    split; [reflexivity|]. split; [reflexivity|].
    unfold try_catch, resizeEvent, bind, assign, get_screen, invoke, ret,
      with_screen. simpl.
    destruct (mResizeCallback (screen st)); [|reflexivity].
    cbn [screen world trace thrown cerr].
    match goal with
    | |- context [callback ?c ?s ?w] =>
        destruct (callback c s w) as [b s' w'|[what|] s' w']; reflexivity
    end.
Qed.

(** *** The cursor position *)

(** [p] after [p -= Vector2i(1, 2)]. *)
Definition shifted_point (s : Screen) (x y : double) : Vector2i :=
  Vector2i_sub_assign (logical_point s x y) (Vector2i_make 1 2).

Ltac split_run H :=
  repeat match type of H with
         | context [match ?x with _ => _ end] =>
             destruct x eqn:?; simpl in H; try discriminate H
         end.

Lemma cursorPos_dispatch_Ok (p0 : Vector2i) (st st' : State) (b : bool) :
  cursorPos_dispatch p0 st = (Ok b, st') ->
  mMousePos (screen st') = Vector2i_sub_assign p0 (Vector2i_make 1 2).
Proof.
  unfold cursorPos_dispatch, update_cursor, bind, get_screen, get_world,
    hit_test, assign, deref, invoke, ret, with_screen.
  intros H. simpl in H. split_run H; by simplify_eq.
Qed.

Lemma cursorPos_stores_point (st : State) (now x y : double) (b : bool) :
  (cursorPosCallbackEvent now x y st).1 = Ok b ->
  thrown (cursorPosCallbackEvent now x y st).2 = thrown st ->
  mMousePos (screen (cursorPosCallbackEvent now x y st).2)
  = shifted_point (screen st) x y.
Proof.
  unfold cursorPosCallbackEvent. rewrite bind_get_screen.
  unfold bind, assign, try_catch.
  pose proof (tracked_cursorPos_dispatch (logical_point (screen st) x y)
                (with_screen (set_mLastInteraction now) st)) as [_ Htr].
  destruct (cursorPos_dispatch _ _) as [[b'|[what|]| |] st1] eqn:Hrun;
    simpl in *; intros Hok Hthrown; try discriminate.
  - by apply cursorPos_dispatch_Ok in Hrun.
  - rewrite Htr in Hthrown. by apply snoc_neq in Hthrown.
Qed.

(** C4, as the code has it: when [cursorPosCallbackEvent] returns and no
    callback has thrown during it, the stored mouse position is the
    translated point; when a callback has thrown a [std::exception], the
    handler returns false. *)
Theorem cursorPos_updates_mouse_position (st : State) (now x y : double) :
  (forall b,
     (cursorPosCallbackEvent now x y st).1 = Ok b ->
     thrown (cursorPosCallbackEvent now x y st).2 = thrown st ->
     mMousePos (screen (cursorPosCallbackEvent now x y st).2)
     = shifted_point (screen st) x y) /\
  (forall what,
     thrown (cursorPosCallbackEvent now x y st).2
     = thrown st ++ [StdException what] ->
     (cursorPosCallbackEvent now x y st).1 = Ok false).
Proof.
  split.
  - intros b. apply cursorPos_stores_point.
  - intros what H.
    by apply (proj1 (proj2 (cursorPos_catches now x y st)) what) in H as [? _].
Qed.

(** What a call made by the cursor handler on the state [st] must look
    like to be made at the point [p]: a hit test at [p]; a drag event on
    the drag target of [st], at [p] taken relative to the position of the
    target's parent, moved from the mouse position of [st]; a motion event
    on the Screen at [p]. *)
Definition delivered_at (st : State) (p : Vector2i) (c : Call double) : Prop :=
  match c with
  | FindWidget q => q = p
  | MouseDragEvent w q rel _ _ =>
      exists par,
        mDragWidget (screen st) = Some w /\
        parent (world st) w = Some par /\
        q = Vector2i_sub p (absolutePosition (world st) par) /\
        rel = Vector2i_sub p (mMousePos (screen st))
  | MouseMotionEvent w q _ _ _ => w = this /\ q = p
  | _ => False
  end.

Lemma int_sub_neq (a d : Z) : (0 < d < 2 ^ 32)%Z -> int_sub a d <> a.
Proof.
  unfold int_sub, wrap32. intros Hd H.
  assert ((a - d + 2 ^ 31) mod 2 ^ 32 = a + 2 ^ 31)%Z as Hm by lia.
  pose proof (Z.mod_pos_bound (a - d + 2 ^ 31) (2 ^ 32)) as Hb.
  pose proof (Z.div_mod (a - d + 2 ^ 31) (2 ^ 32)) as Hdm.
  rewrite Hm in Hdm, Hb. nia.
Qed.

Lemma shifted_point_eq (s : Screen) (x y : double) :
  shifted_point s x y =
    Vector2i_make (int_sub (Vector2i_at (logical_point s x y) 0) 1)
                  (int_sub (Vector2i_at (logical_point s x y) 1) 2).
Proof. unfold shifted_point, logical_point. by destruct winOrLinux. Qed.

(** C10, as the code has it: on every call the point the cursor handler
    hit-tests, delivers to the drag target (relative to the target's
    parent) and delivers to the motion handler is the logical point moved
    by (-1, -2), never the logical point itself; and that point is what it
    stores as the mouse position when it returns without a callback having
    thrown. *)
Theorem cursorPos_uses_shifted_point (st : State) (now x y : double) :
  let lp := logical_point (screen st) x y in
  let p := shifted_point (screen st) x y in
  p = Vector2i_make (int_sub (Vector2i_at lp 0) 1) (int_sub (Vector2i_at lp 1) 2) /\
  p <> lp /\
  (exists calls,
     trace (cursorPosCallbackEvent now x y st).2 = trace st ++ calls /\
     Forall (delivered_at st p) calls /\
     ((cursorPosCallbackEvent now x y st).1 <> NullDeref -> calls <> [])) /\
  (forall b,
     (cursorPosCallbackEvent now x y st).1 = Ok b ->
     thrown (cursorPosCallbackEvent now x y st).2 = thrown st ->
     mMousePos (screen (cursorPosCallbackEvent now x y st).2) = p).
Proof.
  intros lp p. subst lp p.
  split; [apply shifted_point_eq|]. split; [|split].
  - rewrite shifted_point_eq. unfold logical_point, Vector2i_make.
    destruct winOrLinux; intros H; simplify_eq;
      match goal with
      | H : int_sub ?a 1 = _ |- _ => by apply (int_sub_neq a 1) in H
      end.
  - unfold cursorPosCallbackEvent. rewrite bind_get_screen.
    fold (shifted_point (screen st) x y).
    unfold try_catch, cursorPos_dispatch.
    fold (shifted_point (screen st) x y).
    generalize (shifted_point (screen st) x y). intros p.
    unfold update_cursor, bind, get_screen, get_world, hit_test, assign,
      deref, invoke, ret, with_screen, logged. simpl.
    repeat match goal with
           | |- context [match ?x with _ => _ end] =>
               lazymatch x with
               | context [match _ with _ => _ end] => fail
               | _ => destruct x eqn:?; simpl
               end
           end;
      (match goal with
       | |- exists calls, (?t ++ ?a) ++ ?b = ?t ++ calls /\ _ =>
           exists (a ++ b); split; [symmetry; apply app_assoc|]
       | |- exists calls, ?t ++ ?a = ?t ++ calls /\ _ =>
           exists a; split; [reflexivity|]
       | |- exists calls, ?t = ?t ++ calls /\ _ =>
           exists []; split; [symmetry; apply app_nil_r|]
       end;
       split; [repeat constructor; simpl; eauto 10 | simpl; intros; congruence]).
  - intros b. apply cursorPos_stores_point.
Qed.

(** *** Keyboard routing order *)

(** The routing as the specification words it, for comparison with
    [keyboardEvent]: the path below the root is offered the event deepest
    widget first, that is, in the order in which [mFocusPath] stores it. *)
Definition keyboardEvent_deepest_first (key scancode action modifiers : Z)
    : M bool :=
  let* s := get_screen in
  if decide (0 < length (mFocusPath s)) then
    first_consumer (fun w => KeyboardEvent w key scancode action modifiers)
      (removelast (mFocusPath s))
  else ret false.

(** With the root stored last, the loops visit the rest of the path from
    the widget just below the root down to the focused leaf. *)
Lemma from_rbegin_plus_1_snoc (below : list Widget) (root : Widget) :
  from_rbegin_plus_1 (below ++ [root]) = reverse below.
Proof. unfold from_rbegin_plus_1. by rewrite reverse_snoc. Qed.

Lemma first_consumer_declined event (pre rest : list Widget) (st st1 : State) :
  first_consumer event pre st = (Ok false, st1) ->
  first_consumer event (pre ++ rest) st = first_consumer event rest st1.
Proof.
  revert st. induction pre as [|w pre IH]; intros st Hrun; simpl in *.
  - unfold ret in Hrun. by simplify_eq.
  - unfold bind, get_world in *. simpl in *.
    destruct (focused (world st) w); [|by apply IH].
    destruct (invoke (event w) st) as [[[|]|e| |] st2]; try discriminate.
    by apply IH.
Qed.

(** The calls a keyboard loop makes go, in order, to some of the widgets
    it visits. *)
Lemma first_consumer_trace event (ws : list Widget) (st : State) :
  exists offered,
    sublist offered ws /\
    trace (first_consumer event ws st).2 = trace st ++ (event <$> offered).
Proof.
  revert st. induction ws as [|w ws IH]; intros st; simpl.
  - exists []. split; [constructor|]. by rewrite app_nil_r.
  - unfold bind, get_world. simpl.
    destruct (focused (world st) w).
    + unfold invoke at 1.
      destruct (callback (event w) (screen st) (world st)) as [[|] s wld|e s wld];
        simpl.
      * exists [w]. split; [apply sublist_skip, sublist_nil_l | reflexivity].
      * match goal with
        | |- context [first_consumer event ws ?st'] =>
            destruct (IH st') as (offered & Hsub & Htr)
        end.
        exists (w :: offered). split; [by constructor|].
        rewrite Htr. simpl. by rewrite <- app_assoc.
      * exists [w]. split; [apply sublist_skip, sublist_nil_l | reflexivity].
    + destruct (IH st) as (offered & Hsub & Htr).
      exists offered. split; [by constructor|exact Htr].
Qed.

Lemma first_consumer_wins event (pre post : list Widget) (w : Widget)
    (st st1 : State) (s2 : Screen) (w2 : World) :
  first_consumer event pre st = (Ok false, st1) ->
  focused (world st1) w = true ->
  callback (event w) (screen st1) (world st1) = Returns true s2 w2 ->
  first_consumer event (pre ++ w :: post) st =
    (Ok true, mkState s2 w2 (trace st1 ++ [event w]) (thrown st1) (cerr st1)) /\
  exists offered,
    sublist offered pre /\
    trace st1 ++ [event w] = trace st ++ (event <$> offered) ++ [event w].
Proof.
  intros Hpre Hfocused Hconsumes. split.
  - rewrite (first_consumer_declined _ _ _ _ _ Hpre). simpl.
    unfold bind, get_world, invoke, ret. simpl.
    by rewrite Hfocused, Hconsumes.
  - destruct (first_consumer_trace event pre st) as (offered & Hsub & Htr).
    rewrite Hpre in Htr. simpl in Htr.
    exists offered. split; [exact Hsub|]. rewrite Htr. by rewrite <- app_assoc.
Qed.

(** C5, as the code has it: a key or character event is offered to the
    widgets of the focus path below the root, starting with the one just
    below the root and ending with the focused leaf; the first of them that
    is focused and consumes the event makes the handler return true, and
    none after it is called. *)
Theorem keyboard_routing_order (st : State) (now : double)
    (key scancode action mods codepoint : Z)
    (below pre post : list Widget) (root w : Widget) :
  mFocusPath (screen st) = below ++ [root] ->
  reverse below = pre ++ w :: post ->
  let st0 := with_screen (set_mLastInteraction now) st in
  (forall st1 s2 w2,
     first_consumer (fun u => KeyboardEvent u key scancode action mods) pre st0
       = (Ok false, st1) ->
     focused (world st1) w = true ->
     callback (KeyboardEvent w key scancode action mods) (screen st1) (world st1)
       = Returns true s2 w2 ->
     keyCallbackEvent now key scancode action mods st =
       (Ok true,
        mkState s2 w2 (trace st1 ++ [KeyboardEvent w key scancode action mods])
          (thrown st1) (cerr st1)) /\
     exists offered,
       sublist offered pre /\
       trace st1 ++ [KeyboardEvent w key scancode action mods] =
         trace st
         ++ ((fun u => KeyboardEvent u key scancode action mods) <$> offered)
         ++ [KeyboardEvent w key scancode action mods]) /\
  (forall st1 s2 w2,
     first_consumer (fun u => KeyboardCharacterEvent u codepoint) pre st0
       = (Ok false, st1) ->
     focused (world st1) w = true ->
     callback (KeyboardCharacterEvent w codepoint) (screen st1) (world st1)
       = Returns true s2 w2 ->
     charCallbackEvent now codepoint st =
       (Ok true,
        mkState s2 w2 (trace st1 ++ [KeyboardCharacterEvent w codepoint])
          (thrown st1) (cerr st1)) /\
     exists offered,
       sublist offered pre /\
       trace st1 ++ [KeyboardCharacterEvent w codepoint] =
         trace st
         ++ ((fun u => KeyboardCharacterEvent u codepoint) <$> offered)
         ++ [KeyboardCharacterEvent w codepoint]).
Proof.
  intros Hpath Horder st0.
  assert (0 < length (mFocusPath (screen st0))) as Hlen.
  { simpl. rewrite Hpath, length_app. simpl. lia. }
  assert (from_rbegin_plus_1 (mFocusPath (screen st0)) = pre ++ w :: post)
    as Hvisit.
  { simpl. by rewrite Hpath, from_rbegin_plus_1_snoc. }
  split; intros st1 s2 w2 Hpre Hfocused Hconsumes.
  - destruct (first_consumer_wins _ pre post w st0 st1 s2 w2
                Hpre Hfocused Hconsumes) as [Hrun Htrace].
    split; [|exact Htrace].
    unfold keyCallbackEvent, bind at 1, assign at 1, try_catch, keyboardEvent.
    fold st0. rewrite bind_get_screen.
    rewrite decide_True by exact Hlen. rewrite Hvisit, Hrun. reflexivity.
  - destruct (first_consumer_wins _ pre post w st0 st1 s2 w2
                Hpre Hfocused Hconsumes) as [Hrun Htrace].
    split; [|exact Htrace].
    unfold charCallbackEvent, bind at 1, assign at 1, try_catch,
      keyboardCharacterEvent.
    fold st0. rewrite bind_get_screen.
    rewrite decide_True by exact Hlen. rewrite Hvisit, Hrun. reflexivity.
Qed.

(** *** Keyboard events nobody takes *)

Lemma first_consumer_unfocused event (ws : list Widget) (st : State) :
  (forall w, w ∈ ws -> focused (world st) w = false) ->
  first_consumer event ws st = (Ok false, st).
Proof.
  induction ws as [|w ws IH]; intros Hnone; [reflexivity|]. simpl.
  unfold bind, get_world. simpl.
  rewrite (Hnone w) by apply list_elem_of_here.
  apply IH. intros u Hu. apply Hnone. by apply list_elem_of_further.
Qed.

(** With an empty focus path, with only the root on it, or with no widget
    on it focused, a key or character event returns false, calls no widget
    and writes only the interaction time. *)
Theorem keyboard_without_focus (st : State) (now : double)
    (key scancode action mods codepoint : Z) :
  length (mFocusPath (screen st)) <= 1 \/
  (forall w, w ∈ mFocusPath (screen st) -> focused (world st) w = false) ->
  keyCallbackEvent now key scancode action mods st
  = (Ok false, with_screen (set_mLastInteraction now) st) /\
  charCallbackEvent now codepoint st
  = (Ok false, with_screen (set_mLastInteraction now) st).
Proof.
  intros Hcase.
  assert (forall event,
            first_consumer event (from_rbegin_plus_1 (mFocusPath (screen st)))
              (with_screen (set_mLastInteraction now) st)
            = (Ok false, with_screen (set_mLastInteraction now) st)) as Hnone.
  { intros event. destruct Hcase as [Hshort|Hunfocused].
    - destruct (mFocusPath (screen st)) as [|root [|w path]];
        [reflexivity | reflexivity | simpl in Hshort; lia].
    - apply first_consumer_unfocused. intros w Hw. apply Hunfocused.
      unfold from_rbegin_plus_1 in Hw.
      apply elem_of_reverse.
      destruct (reverse (mFocusPath (screen st))) as [|r rest]; simpl in Hw;
        [by apply elem_of_nil in Hw | by apply list_elem_of_further]. }
  split.
  - unfold keyCallbackEvent, bind at 1, assign at 1, try_catch, keyboardEvent.
    rewrite bind_get_screen. case_decide; [|reflexivity].
    simpl mFocusPath. by rewrite Hnone.
  - unfold charCallbackEvent, bind at 1, assign at 1, try_catch,
      keyboardCharacterEvent.
    rewrite bind_get_screen. case_decide; [|reflexivity].
    simpl mFocusPath. by rewrite Hnone.
Qed.

Lemma first_consumer_all_decline event (ws : list Widget) (st : State) :
  (forall w s wld, callback (event w) s wld = Returns false s wld) ->
  first_consumer event ws st
  = (Ok false,
     mkState (screen st) (world st)
       (trace st ++ (event <$> filter (fun w => focused (world st) w = true) ws))
       (thrown st) (cerr st)).
Proof.
  intros Hdecline. revert st. induction ws as [|w ws IH]; intros st; simpl.
  - rewrite app_nil_r. by destruct st.
  - unfold bind, get_world. simpl.
    destruct (focused (world st) w) eqn:Hw.
    + unfold invoke at 1. rewrite Hdecline. rewrite IH. simpl.
      rewrite filter_cons_True by exact Hw. simpl.
      by rewrite <- app_assoc.
    + rewrite IH. rewrite filter_cons_False by congruence. reflexivity.
Qed.

(** When every widget declines the key and changes nothing, the handler
    returns false after offering it, once each and starting just below the
    root, to exactly the focused widgets of the path. *)
Theorem keyboard_all_decline (st : State) (now : double)
    (key scancode action mods : Z) :
  (forall w s wld,
     callback (KeyboardEvent w key scancode action mods) s wld
     = Returns false s wld) ->
  keyCallbackEvent now key scancode action mods st
  = (Ok false,
     mkState (set_mLastInteraction now (screen st)) (world st)
       (trace st ++
        ((fun w => KeyboardEvent w key scancode action mods) <$>
         filter (fun w => focused (world st) w = true)
           (from_rbegin_plus_1 (mFocusPath (screen st)))))
       (thrown st) (cerr st)).
Proof.
  intros Hdecline.
  unfold keyCallbackEvent, bind at 1, assign at 1, try_catch, keyboardEvent.
  rewrite bind_get_screen. simpl mFocusPath. case_decide as Hlen.
  - by rewrite (first_consumer_all_decline _ _ _ Hdecline).
  - simpl in Hlen. destruct (mFocusPath (screen st)); [|simpl in Hlen; lia].
    simpl. unfold ret, with_screen. by rewrite app_nil_r.
Qed.

(** *** Giving up the focus and disposing of a window *)

Lemma unfocus_all_trace (ws : list Widget) (st : State) :
  exists offered,
    sublist offered ws /\
    trace (unfocus_all ws st).2
    = trace st ++ ((fun w => FocusEvent w false) <$> offered).
Proof.
  revert st. induction ws as [|w ws IH]; intros st; simpl.
  - exists []. split; [constructor|]. by rewrite app_nil_r.
  - unfold bind, get_world. simpl. destruct (focused (world st) w).
    + unfold invoke at 1.
      destruct (callback (FocusEvent w false) (screen st) (world st))
        as [b s wld|e s wld]; simpl.
      * match goal with
        | |- context [unfocus_all ws ?st'] =>
            destruct (IH st') as (offered & Hsub & Htr)
        end.
        exists (w :: offered). split; [by constructor|].
        rewrite Htr. simpl. by rewrite <- app_assoc.
      * exists [w]. split; [apply sublist_skip, sublist_nil_l | reflexivity].
    + destruct (IH st) as (offered & Hsub & Htr).
      exists offered. split; [by constructor | exact Htr].
Qed.

Lemma walk_to_root_nullptr (fuel : nat) (window : option Widget) :
  walk_to_root fuel None window = ret window.
Proof. by destruct fuel. Qed.

Lemma bind_assoc {A B C : Type} (m : M A) (k : A -> M B) (h : B -> M C)
    (st : State) :
  bind (bind m k) h st = bind m (fun a => bind (k a) h) st.
Proof. unfold bind. by destruct (m st) as [[a|e| |] st1]. Qed.

Lemma bind_ext {A B : Type} (m : M A) (k k' : A -> M B) (st : State) :
  (forall a st1, k a st1 = k' a st1) -> bind m k st = bind m k' st.
Proof.
  intros Hk. unfold bind. destruct (m st) as [[a|e| |] st1]; try reflexivity.
  apply Hk.
Qed.

Lemma unfocus_all_app (before after : list Widget) (st : State) :
  unfocus_all (before ++ after) st
  = bind (unfocus_all before) (fun _ => unfocus_all after) st.
Proof.
  revert st. induction before as [|w before IH]; intros st; [reflexivity|].
  simpl. rewrite bind_assoc. apply bind_ext. intros wld st1.
  destruct (focused wld w); [|apply IH].
  rewrite bind_assoc. apply bind_ext. intros _ st2. apply IH.
Qed.

(** [updateFocus(nullptr)] calls nothing but [focusEvent(false)], on
    widgets of the old path in path order, and when those calls return it
    leaves the focus path empty, for any fuel. When the call on a focused
    widget of the path throws, [updateFocus] ends there with that
    exception: no widget after it is visited and the focus path is not
    cleared. *)
Theorem updateFocus_nullptr (fuel : nat) (st : State) :
  ((updateFocus fuel None st).1 = Ok tt ->
   mFocusPath (screen (updateFocus fuel None st).2) = []) /\
  (exists offered,
     sublist offered (mFocusPath (screen st)) /\
     trace (updateFocus fuel None st).2
     = trace st ++ ((fun w => FocusEvent w false) <$> offered)) /\
  (forall before w after st1 e s wld,
     mFocusPath (screen st) = before ++ w :: after ->
     unfocus_all before st = (Ok tt, st1) ->
     focused (world st1) w = true ->
     callback (FocusEvent w false) (screen st1) (world st1) = Throws e s wld ->
     updateFocus fuel None st
     = (Raised e,
        mkState s wld (trace st1 ++ [FocusEvent w false]) (thrown st1 ++ [e])
          (cerr st1))).
Proof.
  refine (conj _ (conj _ _)).
  - destruct (unfocus_all_trace (mFocusPath (screen st)) st)
      as (offered & Hsub & Htr).
    unfold updateFocus. rewrite bind_get_screen, walk_to_root_nullptr.
    unfold bind.
    by destruct (unfocus_all (mFocusPath (screen st)) st) as [[[]|e| |] st1].
  - destruct (unfocus_all_trace (mFocusPath (screen st)) st)
      as (offered & Hsub & Htr).
    exists offered. split; [exact Hsub|].
    unfold updateFocus. rewrite bind_get_screen, walk_to_root_nullptr.
    unfold bind.
    by destruct (unfocus_all (mFocusPath (screen st)) st) as [[[]|e| |] st1].
  - intros before w after st1 e s wld Hpath Hbefore Hfocused Hthrows.
    unfold updateFocus. rewrite bind_get_screen, Hpath.
    unfold bind at 1. rewrite unfocus_all_app.
    unfold bind at 1. rewrite Hbefore. simpl.
    unfold bind at 1, get_world. simpl. rewrite Hfocused.
    unfold bind at 1, invoke. by rewrite Hthrows.
Qed.

(** [disposeWindow] always returns, calls no widget, and leaves the window
    neither on the focus path nor as the drag target; a focus path that
    held the window is dropped whole, one that did not is kept. *)
Theorem disposeWindow_forgets_window (st : State) (W : Widget) :
  (disposeWindow W st).1 = Ok tt /\
  trace (disposeWindow W st).2 = trace st /\
  (W ∉ mFocusPath (screen (disposeWindow W st).2)) /\
  mDragWidget (screen (disposeWindow W st).2) <> Some W /\
  (W ∈ mFocusPath (screen st) ->
   mFocusPath (screen (disposeWindow W st).2) = []) /\
  (W ∉ mFocusPath (screen st) ->
   mFocusPath (screen (disposeWindow W st).2) = mFocusPath (screen st)).
Proof.
  unfold disposeWindow, removeChild, bind, get_screen, assign, update_world,
    ret, with_screen.
  destruct (decide (W ∈ mFocusPath (screen st))) as [Hin|Hout]; simpl;
    destruct (decide (mDragWidget (screen st) = Some W)) as [Hd|Hd]; simpl;
    repeat split; try done; try (apply not_elem_of_nil).
Qed.

(** *** Moving the focus to a widget *)

(** Callbacks that leave the Screen's members alone. *)
Definition callbacks_keep_screen : Prop :=
  forall c s w,
    match callback c s w with
    | Returns _ s' _ | Throws _ s' _ => s' = s
    end.

(** The widgets from [widget] up to the root, following [parent()]. *)
Fixpoint path_to_root (fuel : nat) (wld : World) (widget : option Widget)
    : option (list Widget) :=
  match widget with
  | None => Some []
  | Some w =>
      match fuel with
      | 0 => None
      | S fuel' => cons w <$> path_to_root fuel' wld (parent wld w)
      end
  end.

(** The Window of a path that is nearest to the root. *)
Definition top_window (path : list Widget) : option Widget :=
  last (filter (fun w => isWindow w = true) path).

Lemma with_screen_same (f : Screen -> Screen) (st : State) :
  f (screen st) = screen st -> with_screen f st = st.
Proof. intros H. unfold with_screen. rewrite H. by destruct st. Qed.

Lemma set_mFocusPath_same (s : Screen) : set_mFocusPath (mFocusPath s) s = s.
Proof. by destruct s. Qed.

Lemma walk_to_root_spec (fuel : nat) (widget window : option Widget)
    (st : State) (l : list Widget) :
  path_to_root fuel (world st) widget = Some l ->
  walk_to_root fuel widget window st
  = (Ok (match top_window l with Some W => Some W | None => window end),
     with_screen (fun s => set_mFocusPath (mFocusPath s ++ l) s) st).
Proof.
  revert widget window st l.
  induction fuel as [|fuel IH]; intros [w|] window st l Hl; simpl in Hl;
    simplify_eq.
  - simpl. unfold ret. f_equal. symmetry. apply with_screen_same.
    rewrite app_nil_r. apply set_mFocusPath_same.
  - destruct (path_to_root fuel (world st) (parent (world st) w))
      as [l'|] eqn:Hl'; simpl in Hl; simplify_eq.
    simpl. unfold bind at 1, assign at 1. unfold bind at 1, get_world at 1.
    simpl world.
    rewrite (IH _ _ _ l') by exact Hl'.
    f_equal.
    + unfold top_window. destruct (isWindow w) eqn:Hw.
      * rewrite filter_cons_True by exact Hw. rewrite last_cons.
        by destruct (last _).
      * rewrite filter_cons_False by congruence. reflexivity.
    + unfold with_screen. simpl. by rewrite <- app_assoc.
  - simpl. unfold ret. f_equal. symmetry. apply with_screen_same.
    rewrite app_nil_r. apply set_mFocusPath_same.
Qed.

Section KeepScreen.
Hypothesis Hkeep : callbacks_keep_screen.

Lemma invoke_keeps_screen c (st : State) : screen (invoke c st).2 = screen st.
Proof.
  unfold invoke. specialize (Hkeep c (screen st) (world st)).
  by destruct (callback c (screen st) (world st)).
Qed.

Lemma unfocus_all_keeps_screen ws (st : State) :
  screen (unfocus_all ws st).2 = screen st.
Proof.
  revert st. induction ws as [|w ws IH]; intros st; [reflexivity|]. simpl.
  unfold bind, get_world. simpl. destruct (focused (world st) w); [|apply IH].
  pose proof (invoke_keeps_screen (FocusEvent w false) st) as Hinv.
  destruct (invoke (FocusEvent w false) st) as [[b|e| |] st1]; simpl in *;
    try exact Hinv.
  by rewrite IH.
Qed.

Lemma focus_all_Ok ws (st st' : State) :
  focus_all ws st = (Ok tt, st') ->
  screen st' = screen st /\
  trace st' = trace st ++ ((fun w => FocusEvent w true) <$> ws).
Proof.
  revert st. induction ws as [|w ws IH]; intros st; simpl.
  - unfold ret. intros H. simplify_eq. by rewrite app_nil_r.
  - unfold bind. specialize (Hkeep (FocusEvent w true) (screen st) (world st)).
    unfold invoke.
    destruct (callback (FocusEvent w true) (screen st) (world st))
      as [b s wld|e s wld]; [|discriminate].
    intros H. apply IH in H as [Hs Ht]. simpl in *.
    split; [congruence|]. rewrite Ht. by rewrite <- app_assoc.
Qed.

(** When the callbacks leave the Screen alone and [updateFocus(widget)]
    returns, the focus path holds the widgets from [widget] up to the root,
    [focusEvent(true)] went to each of them from the root down, and the
    Window of the path nearest to the root was moved to the front. *)
Theorem updateFocus_builds_path (fuel : nat) (widget : Widget) (st : State)
    (path : list Widget) :
  path_to_root fuel (world (unfocus_all (mFocusPath (screen st)) st).2)
    (Some widget) = Some path ->
  (updateFocus fuel (Some widget) st).1 = Ok tt ->
  mFocusPath (screen (updateFocus fuel (Some widget) st).2) = path /\
  trace (updateFocus fuel (Some widget) st).2
  = trace (unfocus_all (mFocusPath (screen st)) st).2
    ++ ((fun w => FocusEvent w true) <$> reverse path) /\
  match top_window path with
  | Some W =>
      ZOrder.moveWindowToFront isPopup parentWindow fuel W
        (mChildren (screen st))
      = Some (mChildren (screen (updateFocus fuel (Some widget) st).2))
  | None =>
      mChildren (screen (updateFocus fuel (Some widget) st).2)
      = mChildren (screen st)
  end.
Proof.
  pose proof (unfocus_all_keeps_screen (mFocusPath (screen st)) st) as Hscreen.
  remember (updateFocus fuel (Some widget) st) as out eqn:Hout.
  unfold updateFocus in Hout. rewrite bind_get_screen in Hout.
  unfold bind at 1 in Hout.
  destruct (unfocus_all (mFocusPath (screen st)) st) as [[[]|e| |] st1];
    simpl in Hscreen |- *; intros Hpath Hok; try by subst out.
  unfold bind at 1, assign at 1 in Hout. unfold bind at 1 in Hout.
  rewrite (walk_to_root_spec fuel (Some widget) None _ path) in Hout
    by exact Hpath.
  rewrite bind_get_screen in Hout. simpl mFocusPath in Hout.
  unfold bind at 1 in Hout.
  destruct (focus_all (reverse path) _) as [[[]|e| |] st2] eqn:Hfocus;
    try by subst out.
  apply focus_all_Ok in Hfocus as [Hs2 Ht2]. simpl in Hs2, Ht2.
  destruct (top_window path) as [W|].
  - unfold moveWindowToFront in Hout. rewrite bind_get_screen in Hout.
    rewrite Hs2, Hscreen in Hout.
    change (mChildren (set_mFocusPath path (set_mFocusPath [] (screen st))))
      with (mChildren (screen st)) in Hout.
    destruct (ZOrder.moveWindowToFront isPopup parentWindow fuel W
                (mChildren (screen st))) as [r|]; [|by subst out].
    subst out. simpl. by rewrite Hs2.
  - subst out. unfold ret. simpl. rewrite Hs2. simpl. by rewrite Hscreen.
Qed.

End KeepScreen.

(** *** What a button event does to the drag *)

(** A property of the two drag members. *)
Definition drag_property (P : bool -> option Widget -> Prop) (s : Screen)
    : Prop :=
  P (mDragActive s) (mDragWidget s).

Definition keeps_drag_property (P : bool -> option Widget -> Prop)
    {A : Type} (m : M A) : Prop :=
  forall st,
    drag_property P (screen st) -> drag_property P (screen (m st).2).

(** Whenever [m] returns, [Q] holds of the state it leaves. *)
Definition returns_with {A : Type} (Q : State -> Prop) (m : M A) : Prop :=
  forall st a st', m st = (Ok a, st') -> Q st'.

Lemma returns_with_bind {A B : Type} (Q : State -> Prop) (m : M A)
    (k : A -> M B) :
  (forall a, returns_with Q (k a)) -> returns_with Q (bind m k).
Proof.
  intros Hk st b st'. unfold bind.
  destruct (m st) as [[a|e| |] st1]; try discriminate. apply Hk.
Qed.

Lemma try_catch_returns (body : M bool) (st st' : State) (b : bool) :
  tracked body ->
  try_catch body st = (Ok b, st') -> thrown st' = thrown st ->
  body st = (Ok b, st').
Proof.
  intros Hbody. destruct (Hbody st) as [_ Hthrown]. unfold try_catch.
  destruct (body st) as [[b0|[what|]| |] st1]; simpl in *; intros H Heq;
    simplify_eq; try reflexivity.
  simpl in Heq. rewrite Hthrown in Heq. by apply snoc_neq in Heq.
Qed.

(** [outside_modal] only reads, and what it reads is the focus path, the
    mouse position and the widgets. *)
Lemma outside_modal_reads (st : State) :
  outside_modal st = ((outside_modal st).1, st).
Proof.
  unfold outside_modal, bind, get_screen, get_world, ret. simpl.
  repeat case_match; reflexivity.
Qed.

Lemma outside_modal_frame (st st' : State) :
  mFocusPath (screen st') = mFocusPath (screen st) ->
  mMousePos (screen st') = mMousePos (screen st) ->
  world st' = world st ->
  (outside_modal st').1 = (outside_modal st).1.
Proof.
  destruct st as [s wld tr th ce], st' as [s' wld' tr' th' ce']. simpl.
  intros Hpath Hpos ->.
  unfold outside_modal, bind, get_screen, get_world, ret. cbn.
  rewrite Hpath, Hpos. repeat case_match; simpl in *; congruence.
Qed.

Section DragTarget.
Hypothesis Hkeep : callbacks_keep_drag.

Ltac drag_step :=
  lazymatch goal with
  | |- drag_stable (ret _) => apply stable_ret
  | |- drag_stable (bind _ _) => apply stable_bind; [|intros ?]
  | |- drag_stable (try_catch _) => apply stable_try_catch
  | |- drag_stable get_screen => apply stable_get_screen
  | |- drag_stable get_world => apply stable_get_world
  | |- drag_stable (deref _) => apply stable_deref
  | |- drag_stable (hit_test _) => apply stable_hit_test
  | |- drag_stable (invoke _) => apply (stable_invoke Hkeep)
  | |- drag_stable outside_modal => apply stable_outside_modal
  | |- drag_stable (update_cursor _) => apply stable_update_cursor
  | |- drag_stable (assign _) =>
      apply stable_assign; intros ?; split; reflexivity
  | |- drag_stable (if ?c then _ else _) => destruct c
  | |- drag_stable (match ?x with _ => _ end) => destruct x
  end.
Ltac drag_auto := repeat drag_step.

Lemma keeps_property_of_stable P {A : Type} (m : M A) :
  drag_stable m -> keeps_drag_property P m.
Proof.
  intros Hm st. destruct (Hm st) as [Ha Hw].
  unfold drag_property. by rewrite Ha, Hw.
Qed.

Lemma keeps_property_bind P {A B : Type} (m : M A) (k : A -> M B) :
  keeps_drag_property P m -> (forall a, keeps_drag_property P (k a)) ->
  keeps_drag_property P (bind m k).
Proof.
  intros Hm Hk st HP. specialize (Hm st HP). unfold bind.
  destruct (m st) as [[a|e| |] st1]; simpl in *; try exact Hm.
  by apply Hk.
Qed.

Lemma keeps_property_try_catch P (body : M bool) :
  keeps_drag_property P body -> keeps_drag_property P (try_catch body).
Proof.
  intros Hbody st HP. specialize (Hbody st HP). unfold try_catch.
  by destruct (body st) as [[b|[what|]| |] st1].
Qed.

(** The statement that picks the drag target never leaves the Screen
    itself in [mDragWidget]. *)
Lemma drag_target_not_screen (cond : bool) (st : State) :
  mDragWidget (screen st) <> Some this ->
  mDragWidget
    (screen
       ((if cond then
           let* s := get_screen in
           let* found := hit_test (mMousePos s) in
           (assign (set_mDragWidget found) >>
            (if decide (found = Some this) then assign (set_mDragWidget None)
             else ret tt) >>
            assign (fun s =>
              set_mDragActive (bool_decide (mDragWidget s <> None)) s) >>
            let* s := get_screen in
            if negb (mDragActive s) then updateFocus 0 None else ret tt)
         else
           (assign (set_mDragActive false) >> assign (set_mDragWidget None)))
          st).2)
  <> Some this.
Proof.
  intros Hst. destruct cond; [|done].
  unfold bind at 1 2 3 4 5 6, get_screen, hit_test, assign, with_screen. simpl.
  pose proof (stable_updateFocus Hkeep 0 None) as Hstable.
  destruct (decide (findWidget (screen st) (world st) (mMousePos (screen st))
                    = Some this)) as [Heq|Hne]; simpl.
  - match goal with
    | |- mDragWidget (screen (updateFocus 0 None ?st').2) <> _ =>
        destruct (Hstable st') as [_ Hw]; rewrite Hw
    end.
    done.
  - destruct (findWidget (screen st) (world st) (mMousePos (screen st)))
      as [w|] eqn:Hfound; simpl.
    + congruence.
    + match goal with
      | |- mDragWidget (screen (updateFocus 0 None ?st').2) <> _ =>
          destruct (Hstable st') as [_ Hw]; rewrite Hw
      end.
      done.
Qed.

(** As long as the callbacks leave the drag members alone, a button event
    never leaves the Screen itself as the drag target. *)
Theorem mouseButton_never_drags_screen (st : State) (now : double)
    (button action modifiers : Z) :
  mDragWidget (screen st) <> Some this ->
  mDragWidget (screen (mouseButtonCallbackEvent now button action modifiers st).2)
  <> Some this.
Proof.
  revert st.
  pose (P := fun (_ : bool) (w : option Widget) => w <> Some this).
  assert (forall {A : Type} (m : M A), drag_stable m ->
            keeps_drag_property P m) as Hstable
    by (intros A m; apply keeps_property_of_stable).
  change (keeps_drag_property P
            (mouseButtonCallbackEvent now button action modifiers)).
  unfold mouseButtonCallbackEvent.
  apply keeps_property_bind; [apply Hstable; drag_auto|]. intros _.
  apply keeps_property_bind; [apply Hstable; drag_auto|]. intros _.
  apply keeps_property_try_catch. unfold mouseButton_dispatch.
  apply keeps_property_bind; [apply Hstable; drag_auto|].
  intros [|]; [apply Hstable, stable_ret|].
  apply keeps_property_bind; [apply Hstable; drag_auto|]. intros _.
  apply keeps_property_bind; [apply Hstable; drag_auto|]. intros s.
  apply keeps_property_bind; [apply Hstable; drag_auto|]. intros dropWidget.
  apply keeps_property_bind; [apply Hstable; drag_auto|]. intros s'.
  apply keeps_property_bind; [apply Hstable; drag_auto|]. intros _.
  apply keeps_property_bind; [apply Hstable; drag_auto|]. intros _.
  apply keeps_property_bind;
    [intros st; apply drag_target_not_screen|]. intros _.
  apply Hstable. drag_auto.
Qed.

(** A button event that is not a press of button 1 or 2 ends the drag:
    when the modal check lets it through and it returns with no exception
    thrown, no drag is active and there is no drag target. *)
Theorem mouseButton_ends_drag (st : State) (now : double)
    (button action modifiers : Z) (b : bool) :
  (action =? 1)%Z && ((button =? 1)%Z || (button =? 2)%Z) = false ->
  (outside_modal st).1 = Ok false ->
  (mouseButtonCallbackEvent now button action modifiers st).1 = Ok b ->
  thrown (mouseButtonCallbackEvent now button action modifiers st).2
  = thrown st ->
  mDragActive
    (screen (mouseButtonCallbackEvent now button action modifiers st).2)
  = false /\
  mDragWidget
    (screen (mouseButtonCallbackEvent now button action modifiers st).2)
  = None.
Proof.
  intros Hcond Hmodal Hok Hthrown.
  destruct (mouseButtonCallbackEvent now button action modifiers st)
    as [r st'] eqn:Hrun.
  simpl in Hok, Hthrown |- *. subst r.
  unfold mouseButtonCallbackEvent in Hrun.
  unfold bind at 1, assign at 1 in Hrun. unfold bind at 1, assign at 1 in Hrun.
  apply try_catch_returns in Hrun;
    [|apply tracked_mouseButton_dispatch|exact Hthrown].
  unfold mouseButton_dispatch in Hrun. unfold bind at 1 in Hrun.
  rewrite outside_modal_reads in Hrun.
  rewrite (outside_modal_frame st) in Hrun by reflexivity.
  rewrite Hmodal in Hrun. rewrite Hcond in Hrun.
  revert Hrun. generalize (with_screen (set_mLastInteraction now)
                             (with_screen (set_mModifiers modifiers) st)).
  intros st0 Hrun.
  refine (returns_with_bind
            (fun st' => mDragActive (screen st') = false /\
                        mDragWidget (screen st') = None) _ _ _ st0 b st' Hrun).
  intros _. apply returns_with_bind. intros s.
  apply returns_with_bind. intros dropWidget.
  apply returns_with_bind. intros s'.
  apply returns_with_bind. intros _.
  apply returns_with_bind. intros _.
  intros st1 b1 st2.
  unfold bind at 1 2, assign at 1 2. simpl. intros Hlast.
  match type of Hlast with
  | ?m ?st3 = _ =>
      assert (drag_stable m) as Hstable by drag_auto;
      destruct (Hstable st3) as [Ha Hw]
  end.
  rewrite Hlast in Ha, Hw. simpl in Ha, Hw. by split.
Qed.

End DragTarget.

(** *** The pressed buttons *)

(** Callbacks that leave [mMouseState] alone. *)
Definition callbacks_keep_mouse_state : Prop :=
  forall c s w,
    match callback c s w with
    | Returns _ s' _ | Throws _ s' _ => mMouseState s' = mMouseState s
    end.

Definition buttons_stable {A : Type} (m : M A) : Prop :=
  forall st, mMouseState (screen (m st).2) = mMouseState (screen st).

Lemma int_shl_1 (b : Z) : (0 <= b < 31)%Z -> int_shl 1 b = (2 ^ b)%Z.
Proof.
  intros Hb. unfold int_shl. rewrite Z.shiftl_1_l. apply wrap32_id.
  unfold is_int. pose proof (Z.pow_lt_mono_r 2 b 31). lia.
Qed.

Lemma int_not_pow2 (b : Z) :
  (0 <= b < 31)%Z -> int_not (2 ^ b) = Z.lnot (2 ^ b).
Proof.
  intros Hb. unfold int_not. apply wrap32_id.
  unfold is_int, Z.lnot. pose proof (Z.pow_lt_mono_r 2 b 31).
  pose proof (Z.pow_pos_nonneg 2 b). lia.
Qed.

Lemma set_button_bit (m b i : Z) :
  (0 <= b < 31)%Z -> (0 <= i)%Z ->
  Z.testbit (Z.lor m (int_shl 1 b)) i
  = if decide (i = b) then true else Z.testbit m i.
Proof.
  intros Hb Hi. rewrite int_shl_1 by exact Hb.
  rewrite Z.lor_spec, Z.pow2_bits_eqb by lia.
  destruct (decide (i = b)) as [->|Hne].
  - rewrite Z.eqb_refl. apply orb_true_r.
  - destruct (Z.eqb_spec b i); [congruence|]. apply orb_false_r.
Qed.

Lemma clear_button_bit (m b i : Z) :
  (0 <= b < 31)%Z -> (0 <= i)%Z ->
  Z.testbit (Z.land m (int_not (int_shl 1 b))) i
  = if decide (i = b) then false else Z.testbit m i.
Proof.
  intros Hb Hi. rewrite int_shl_1, int_not_pow2 by exact Hb.
  rewrite Z.land_spec, Z.lnot_spec, Z.pow2_bits_eqb by lia.
  destruct (decide (i = b)) as [->|Hne].
  - rewrite Z.eqb_refl. apply andb_false_r.
  - destruct (Z.eqb_spec b i); [congruence|]. apply andb_true_r.
Qed.

Lemma buttons_try_catch (body : M bool) (st : State) :
  mMouseState (screen (try_catch body st).2)
  = mMouseState (screen (body st).2).
Proof. unfold try_catch. by destruct (body st) as [[b|[what|]| |] st1]. Qed.

Section MouseState.
Hypothesis Hkeep : callbacks_keep_mouse_state.

Lemma buttons_ret {A : Type} (a : A) : buttons_stable (ret a).
Proof. by intros st. Qed.

Lemma buttons_bind {A B : Type} (m : M A) (k : A -> M B) :
  buttons_stable m -> (forall a, buttons_stable (k a)) ->
  buttons_stable (bind m k).
Proof.
  intros Hm Hk st. specialize (Hm st). unfold bind.
  destruct (m st) as [[a|e| |] st1]; simpl in *; try exact Hm.
  by rewrite Hk.
Qed.

Lemma buttons_assign f :
  (forall s, mMouseState (f s) = mMouseState s) -> buttons_stable (assign f).
Proof. intros Hf st. apply Hf. Qed.

Lemma buttons_deref {A : Type} (ptr : option A) : buttons_stable (deref ptr).
Proof. intros st. by destruct ptr. Qed.

Lemma buttons_invoke c : buttons_stable (invoke c).
Proof.
  intros st. unfold invoke. specialize (Hkeep c (screen st) (world st)).
  by destruct (callback c (screen st) (world st)).
Qed.

Ltac buttons_step :=
  lazymatch goal with
  | |- buttons_stable (ret _) => apply buttons_ret
  | |- buttons_stable (bind _ _) => apply buttons_bind; [|intros ?]
  | |- buttons_stable get_screen => intros ?; reflexivity
  | |- buttons_stable get_world => intros ?; reflexivity
  | |- buttons_stable (hit_test _) => intros ?; reflexivity
  | |- buttons_stable (deref _) => apply buttons_deref
  | |- buttons_stable out_of_fuel => intros ?; reflexivity
  | |- buttons_stable (invoke _) => apply buttons_invoke
  | |- buttons_stable (assign _) =>
      apply buttons_assign; intros ?; reflexivity
  | |- buttons_stable (if ?c then _ else _) => destruct c
  | |- buttons_stable (match ?x with _ => _ end) => destruct x
  | |- buttons_stable _ => solve [auto]
  end.
Ltac buttons_auto := repeat buttons_step.

Lemma buttons_unfocus_all ws : buttons_stable (unfocus_all ws).
Proof. induction ws as [|w ws IH]; simpl; buttons_auto. Qed.

Lemma buttons_focus_all ws : buttons_stable (focus_all ws).
Proof. induction ws as [|w ws IH]; simpl; buttons_auto. Qed.

Lemma buttons_updateFocus_nullptr : buttons_stable (updateFocus 0 None).
Proof.
  pose proof buttons_unfocus_all. pose proof buttons_focus_all.
  unfold updateFocus, moveWindowToFront. simpl walk_to_root.
  buttons_auto.
Qed.

(** A button event that the modal check lets through records the button
    in [mMouseState]: bit [button] is set by a press and cleared by a
    release, and no other bit changes, whatever else the event runs into,
    as long as the callbacks leave [mMouseState] alone. *)
Theorem mouseButton_records_button (st : State) (now : double)
    (button action modifiers : Z) (i : Z) :
  (0 <= button < 31)%Z ->
  (outside_modal st).1 = Ok false ->
  (0 <= i)%Z ->
  Z.testbit
    (mMouseState
       (screen (mouseButtonCallbackEvent now button action modifiers st).2)) i
  = if decide (i = button) then (action =? 1)%Z
    else Z.testbit (mMouseState (screen st)) i.
Proof.
  intros Hbutton Hmodal Hi.
  pose proof buttons_updateFocus_nullptr as Hfocus.
  unfold mouseButtonCallbackEvent.
  unfold bind at 1, assign at 1. unfold bind at 1, assign at 1.
  rewrite buttons_try_catch.
  unfold mouseButton_dispatch. unfold bind at 1.
  rewrite outside_modal_reads.
  rewrite (outside_modal_frame st) by reflexivity. rewrite Hmodal.
  unfold bind at 1, assign at 1.
  match goal with
  | |- Z.testbit (mMouseState (screen (?m ?st0).2)) _ = _ =>
      assert (buttons_stable m) as Hstable
        by (unfold update_cursor; buttons_auto);
      rewrite (Hstable st0)
  end.
  simpl. destruct (action =? 1)%Z.
  - by apply set_button_bit.
  - by apply clear_button_bit.
Qed.

End MouseState.

(** *** The Pugl event dispatcher *)

(** A [PuglEvent], by [ev->type], with the members [onEvent] reads; the
    integers are the values the [int] and [unsigned] parameters receive,
    [character] being a code point, the same value as either. *)
Inductive PuglEvent : Type :=
| PUGL_BUTTON_PRESS (button state : Z)
| PUGL_BUTTON_RELEASE (button state : Z)
| PUGL_CONFIGURE (width height : Z)
| PUGL_EXPOSE
| PUGL_CLOSE
| PUGL_KEY_PRESS (special character keycode state : Z)
| PUGL_KEY_RELEASE (special character keycode state : Z)
| PUGL_MOTION_NOTIFY (x y : double)
| PUGL_SCROLL (x y : double)
| PUGL_FOCUS_IN
| PUGL_OTHER.

(** Whether [onEvent] hands the event to code outside the [*CallbackEvent]
    entry points. *)
Definition outside_entry_points (ev : PuglEvent) : bool :=
  match ev with
  | PUGL_CONFIGURE _ _ | PUGL_EXPOSE | PUGL_CLOSE => true
  | _ => false
  end.

Section Dispatch.

(** [Screen::drawAll] is OpenGL drawing; [setShouldClose] is declared in
    [screen.h]. *)
Variable drawAll : M unit.
Variable setShouldClose : bool -> M unit.

(** [onEvent]; [now] and [now'] are the first and the second reading of
    the clock by the handlers it calls, whose results it drops. *)
Definition onEvent (now now' : double) (ev : PuglEvent) : M unit :=
  match ev with
  | PUGL_BUTTON_PRESS button state =>
      mouseButtonCallbackEvent now button 1 state >> ret tt
  | PUGL_BUTTON_RELEASE button state =>
      mouseButtonCallbackEvent now button 0 state >> ret tt
  | PUGL_CONFIGURE width height =>
      resizeEvent (Vector2i_make width height) >> ret tt
  | PUGL_EXPOSE => drawAll
  | PUGL_CLOSE => setShouldClose true
  | PUGL_KEY_PRESS special character keycode state =>
      if negb (special =? 0)%Z then
        keyCallbackEvent now special keycode 1 state >> ret tt
      else if negb (character =? 0)%Z then
        keyCallbackEvent now character keycode 1 state >>
        charCallbackEvent now' character >> ret tt
      else ret tt
  | PUGL_KEY_RELEASE special character keycode state =>
      keyCallbackEvent now character keycode 0 state >> ret tt
  | PUGL_MOTION_NOTIFY x y => cursorPosCallbackEvent now x y >> ret tt
  | PUGL_SCROLL x y => scrollCallbackEvent now x y >> ret tt
  | PUGL_FOCUS_IN => ret tt
  | PUGL_OTHER => ret tt
  end.

Lemma no_std_bind {A : Type} (handler : M bool) (k : M A) (st : State)
    (what : string) :
  catches_std handler ->
  (forall st1, (k st1).1 <> Raised (StdException what)) ->
  (bind handler (fun _ => k) st).1 <> Raised (StdException what).
Proof.
  intros Hcatch Hk. destruct (Hcatch st) as [Hnone _]. specialize (Hnone what).
  unfold bind. destruct (handler st) as [[b|e| |] st1]; simpl in *;
    [apply Hk | | discriminate | discriminate].
  intros Heq. apply Hnone. congruence.
Qed.

Lemma mouseButton_catches now button action modifiers :
  catches_std (mouseButtonCallbackEvent now button action modifiers).
Proof.
  apply catches_after_assign, catches_after_assign, catches_try_catch,
    tracked_mouseButton_dispatch.
Qed.

Lemma key_catches now key scancode action modifiers :
  catches_std (keyCallbackEvent now key scancode action modifiers).
Proof. apply catches_after_assign, catches_try_catch, tracked_keyboardEvent. Qed.

Lemma char_catches now codepoint :
  catches_std (charCallbackEvent now codepoint).
Proof.
  apply catches_after_assign, catches_try_catch,
    tracked_keyboardCharacterEvent.
Qed.

Lemma scroll_catches now x y : catches_std (scrollCallbackEvent now x y).
Proof. apply catches_after_assign, catches_try_catch, tracked_scroll_dispatch. Qed.

(** No [std::exception] leaves [onEvent] for a button, key, motion or
    scroll event, a key press that runs two handlers included. *)
Theorem onEvent_input_keeps_std_exceptions (now now' : double)
    (ev : PuglEvent) (st : State) (what : string) :
  outside_entry_points ev = false ->
  (onEvent now now' ev st).1 <> Raised (StdException what).
Proof.
  assert (forall st1 : State, (ret tt st1).1 <> Raised (StdException what))
    as Hret by done.
  destruct ev as [button state|button state|width height| |
                  |special character keycode state
                  |special character keycode state|x y|x y| |];
    simpl; intros Hev; try discriminate Hev; try done.
  - apply no_std_bind; [apply mouseButton_catches | exact Hret].
  - apply no_std_bind; [apply mouseButton_catches | exact Hret].
  - destruct (special =? 0)%Z; simpl.
    + destruct (character =? 0)%Z; simpl; [done|].
      apply no_std_bind; [apply key_catches|]. intros st1.
      apply no_std_bind; [apply char_catches | exact Hret].
    + apply no_std_bind; [apply key_catches | exact Hret].
  - apply no_std_bind; [apply key_catches | exact Hret].
  - apply no_std_bind; [apply cursorPos_catches | exact Hret].
  - apply no_std_bind; [apply scroll_catches | exact Hret].
Qed.

(** A configure event goes to [resizeEvent], not to [resizeCallbackEvent]:
    with callbacks that leave the Screen alone no member changes, the
    cached sizes and the interaction time included; without a resize hook
    nothing happens at all; and whatever the hook throws leaves [onEvent],
    a [std::exception] too. *)
Theorem onEvent_configure (now now' : double) (width height : Z)
    (st : State) :
  callbacks_keep_screen ->
  screen (onEvent now now' (PUGL_CONFIGURE width height) st).2 = screen st /\
  (mResizeCallback (screen st) = false ->
   onEvent now now' (PUGL_CONFIGURE width height) st = (Ok tt, st)) /\
  (forall e s wld,
     mResizeCallback (screen st) = true ->
     callback (ResizeCallback (Vector2i_make width height)) (screen st)
       (world st) = Throws e s wld ->
     (onEvent now now' (PUGL_CONFIGURE width height) st).1 = Raised e).
Proof.
  intros Hkeep.
  change (onEvent now now' (PUGL_CONFIGURE width height) st)
    with (match resizeEvent (Vector2i_make width height) st with
          | (Ok _, st') => (Ok tt, st')
          | (Raised e, st') => (Raised e, st')
          | (NullDeref, st') => (NullDeref, st')
          | (OutOfFuel, st') => (OutOfFuel, st')
          end).
  unfold resizeEvent. rewrite !bind_get_screen.
  destruct (mResizeCallback (screen st)) eqn:Hhook.
  - unfold bind, invoke.
    specialize (Hkeep (ResizeCallback (Vector2i_make width height))
                  (screen st) (world st)).
    destruct (callback (ResizeCallback (Vector2i_make width height))
                (screen st) (world st)) as [b s wld|e s wld]; simpl.
    + refine (conj Hkeep (conj _ _)); [discriminate|]. intros; discriminate.
    + refine (conj Hkeep (conj _ _)); [discriminate|].
      intros e' s' wld' _ Heq. by simplify_eq.
  - refine (conj eq_refl (conj _ _)); [reflexivity|].
    intros; discriminate.
Qed.

End Dispatch.

(** *** Centring a window *)

Section CenterWindow.

(** [Widget::size()], [preferredSize(ctx)], [setSize], [setPosition] and
    [performLayout(ctx)], from [widget.h]. *)
Variables size preferredSize : World -> Widget -> Vector2i.
Variables setSize setPosition : Widget -> Vector2i -> World -> World.
Variable performLayout : Widget -> World -> World.

Definition centerWindow (window : Widget) : M unit :=
  let* wld := get_world in
  (if Vector2i_eq (size wld window) (Vector2i_make 0 0) then
     update_world (setSize window (preferredSize wld window)) >>
     update_world (performLayout window)
   else ret tt) >>
  let* s := get_screen in
  let* wld := get_world in
  update_world
    (setPosition window
       (IntVector.div_scalar 2 (Vector2i_sub (mSize s) (size wld window)) 2)).

(** [centerWindow] gives a window without a size its preferred size and
    lays it out, then places it so that on each axis twice the position
    plus the window's size is within one of the Screen's size, as long as
    the difference of the sizes fits an [int]. *)
Theorem centerWindow_centres (window : Widget) (st : State) :
  exists wld pos,
    centerWindow window st
    = (Ok tt,
       mkState (screen st) (setPosition window pos wld) (trace st)
         (thrown st) (cerr st)) /\
    wld = (if Vector2i_eq (size (world st) window) (Vector2i_make 0 0)
           then performLayout window
                  (setSize window (preferredSize (world st) window) (world st))
           else world st) /\
    forall i, i < 2 ->
      is_int (Vector2i_at (mSize (screen st)) i
              - Vector2i_at (size wld window) i) ->
      (Vector2i_at (mSize (screen st)) i - 1
       <= 2 * Vector2i_at pos i + Vector2i_at (size wld window) i
       <= Vector2i_at (mSize (screen st)) i + 1)%Z.
Proof.
  set (wld := if Vector2i_eq (size (world st) window) (Vector2i_make 0 0)
              then performLayout window
                     (setSize window (preferredSize (world st) window)
                        (world st))
              else world st).
  exists wld,
    (IntVector.div_scalar 2
       (Vector2i_sub (mSize (screen st)) (size wld window)) 2).
  split; [|split; [reflexivity|]].
  - unfold centerWindow, bind, get_world, get_screen, update_world, ret.
    subst wld. simpl.
    by destruct (Vector2i_eq (size (world st) window) _).
  - intros i Hi Hint.
    unfold Vector2i_at, IntVector.div_scalar, Vector2i_sub in *.
    destruct (Linalg.combine_scalar_spec 0%Z 2 IntVector.int_div
                (Linalg.combine 0%Z 2 int_sub (mSize (screen st))
                   (size wld window)) 2%Z) as [_ Hdiv].
    destruct (Linalg.combine_spec 0%Z 2 int_sub (mSize (screen st))
                (size wld window)) as [_ Hsub].
    rewrite Hdiv, Hsub by exact Hi. unfold int_sub.
    rewrite wrap32_id by exact Hint.
    pose proof (IntVector.int_div_2 _ Hint). lia.
Qed.

End CenterWindow.

End Handlers.

(** *** A small scene

    The Screen is widget 1; its child 2 is a window, whose child 3 is an
    ordinary widget. Times and coordinates are integers and the pixel ratio
    is 1. The widgets' state is the list of those whose focused flag is
    set. *)

Module Scene.

Definition div_to_int (x r : Z) : Z := (x ÷ r)%Z.
Definition to_int (x : Z) : Z := x.
Definition int_div_float (v r : Z) : Z := (v ÷ r)%Z.

Definition this : Widget := 1.
Definition isWindow (w : Widget) : bool := bool_decide (w = 2).
Definition isPopup (w : Widget) : bool := false.
Definition parentWindow (w : Widget) : option Widget := None.
Definition focused (wld : list Widget) (w : Widget) : bool :=
  bool_decide (w ∈ wld).
Definition modal (wld : list Widget) (w : Widget) : bool :=
  bool_decide (w = 2).
(** The window covers the square from (100, 100) to (199, 199). *)
Definition contains (wld : list Widget) (w : Widget) (p : Vector2i) : bool :=
  bool_decide (100 <= Vector2i_at p 0 < 200 /\ 100 <= Vector2i_at p 1 < 200)%Z.
Definition cursor (wld : list Widget) (w : Widget) : Z := 0%Z.
Definition parent (wld : list Widget) (w : Widget) : option Widget :=
  match w with 3 => Some 2 | 2 => Some 1 | _ => None end.
Definition absolutePosition (wld : list Widget) (w : Widget) : Vector2i :=
  Vector2i_make 0 0.
Definition findWidget (s : ScreenData Z Z) (wld : list Widget) (p : Vector2i)
    : option Widget :=
  if contains wld 2 p then Some 3 else Some this.

(** [focusEvent] sets the flag; every widget consumes every other event. *)
Definition eager (c : Call Z) (s : ScreenData Z Z) (wld : list Widget)
    : @Outcome Z Z (list Widget) :=
  match c with
  | FocusEvent w true => Returns false s (w :: wld)
  | FocusEvent w false => Returns false s (filter (fun u => u <> w) wld)
  | _ => Returns true s wld
  end.

(** Every call throws a [std::runtime_error]. *)
Definition failing (c : Call Z) (s : ScreenData Z Z) (wld : list Widget)
    : @Outcome Z Z (list Widget) :=
  Throws (StdException "boom") s wld.

(** Every call throws a value that is not a [std::exception]. *)
Definition throwing_int (c : Call Z) (s : ScreenData Z Z) (wld : list Widget)
    : @Outcome Z Z (list Widget) :=
  Throws OtherThrown s wld.

Definition idle : ScreenData Z Z :=
  mkScreen [2] [] (Vector2i_make 0 0) 0 0 false None 0
    (Vector2i_make 800 600) (Vector2i_make 800 600) 1%Z 0%Z true.

Definition start : @State Z Z (list Widget) := mkState idle [] [] [] [].

(** Widget 3 has been given the focus. *)
Definition focused_on_3 : @State Z Z (list Widget) :=
  (updateFocus isWindow isPopup parentWindow focused parent eager 3 (Some 3)
     start).2.

(** The window is being dragged, with the mouse at (150, 150). *)
Definition dragging : @State Z Z (list Widget) :=
  mkState
    (set_mDragActive true
       (set_mDragWidget (Some 2) (set_mMousePos (Vector2i_make 150 150) idle)))
    [] [] [] [].

(** **** The theorems at work on the scene *)

Lemma modal_capture_witness :
  mouseButtonCallbackEvent this isWindow isPopup parentWindow focused modal
    contains cursor parent absolutePosition findWidget eager 7%Z 1 1 0
    focused_on_3
  = (Ok false,
     with_screen (fun s => set_mLastInteraction 7%Z (set_mModifiers 0 s))
       focused_on_3) /\
  scrollCallbackEvent this isWindow modal contains eager 7%Z 0%Z 1%Z
    focused_on_3
  = (Ok false, with_screen (set_mLastInteraction 7%Z) focused_on_3).
Proof.
  apply (modal_capture this isWindow isPopup parentWindow focused modal
           contains cursor parent absolutePosition findWidget eager
           focused_on_3 2);
    [vm_compute; lia | reflexivity..].
Defined.

(** C3 fails on the code: a [std::exception] thrown under
    [dropCallbackEvent] leaves it, and so does a thrown value that is not a
    [std::exception] under any entry point. *)
Lemma exceptions_that_escape :
  (dropCallbackEvent this failing ["a.txt"] start).1
  = Raised (StdException "boom") /\
  (keyCallbackEvent focused throwing_int 7%Z 65 0 1 0 focused_on_3).1
  = Raised OtherThrown.
Proof. split; reflexivity. Qed.

Lemma entry_points_catch_std_exceptions_witness :
  (keyCallbackEvent focused failing 7%Z 65 0 1 0 focused_on_3).1 = Ok false /\
  cerr (keyCallbackEvent focused failing 7%Z 65 0 1 0 focused_on_3).2
  = cerr focused_on_3 ++ [log_line "boom"].
Proof.
  destruct (entry_points_catch_std_exceptions true div_to_int to_int
              int_div_float this isWindow isPopup parentWindow focused modal
              contains cursor parent absolutePosition findWidget failing
              7%Z 0%Z 0%Z 1 1 0 65 0 97 640 480) as (_ & _ & Hkey & _).
  destruct (Hkey focused_on_3) as (_ & Hcaught & _).
  apply (Hcaught "boom"). reflexivity.
Defined.

(** C4 fails on the code: when the drag target's handler throws, the
    handler returns false and the stored position is still the old one. *)
Lemma cursorPos_keeps_old_position_on_throw :
  (cursorPosCallbackEvent true div_to_int to_int this cursor parent
     absolutePosition findWidget failing 7%Z 160%Z 170%Z dragging).1
  = Ok false /\
  shifted_point true div_to_int to_int (screen dragging) 160%Z 170%Z
  = Vector2i_make 159 168 /\
  mMousePos
    (screen
       (cursorPosCallbackEvent true div_to_int to_int this cursor parent
          absolutePosition findWidget failing 7%Z 160%Z 170%Z dragging).2)
  = Vector2i_make 150 150.
Proof. repeat split; reflexivity. Qed.

Lemma cursorPos_updates_mouse_position_witness :
  mMousePos
    (screen
       (cursorPosCallbackEvent true div_to_int to_int this cursor parent
          absolutePosition findWidget eager 7%Z 160%Z 170%Z dragging).2)
  = shifted_point true div_to_int to_int (screen dragging) 160%Z 170%Z.
Proof.
  apply (proj1 (cursorPos_updates_mouse_position true div_to_int to_int this
                  cursor parent absolutePosition findWidget eager dragging
                  7%Z 160%Z 170%Z) true); reflexivity.
Defined.

(** C5 fails on the code: with the focus on widget 3 inside window 2, both
    focused and both consuming the key, the key goes to the window and
    never to widget 3, which deepest-first routing would have served. *)
Lemma keyboard_offered_to_window_first :
  mFocusPath (screen focused_on_3) = [3; 2; 1] /\
  focused (world focused_on_3) 3 = true /\
  (keyCallbackEvent focused eager 7%Z 65 0 1 0 focused_on_3).1 = Ok true /\
  trace (keyCallbackEvent focused eager 7%Z 65 0 1 0 focused_on_3).2
  = trace focused_on_3 ++ [KeyboardEvent 2 65 0 1 0] /\
  trace (keyboardEvent_deepest_first focused eager 65 0 1 0 focused_on_3).2
  = trace focused_on_3 ++ [KeyboardEvent 3 65 0 1 0] /\
  keyboardEvent focused eager 65 0 1 0 focused_on_3
  <> keyboardEvent_deepest_first focused eager 65 0 1 0 focused_on_3.
Proof. repeat split; try reflexivity. vm_compute. discriminate. Qed.

Lemma keyboard_routing_order_witness :
  (keyCallbackEvent focused eager 7%Z 65 0 1 0 focused_on_3).1 = Ok true /\
  (charCallbackEvent focused eager 7%Z 97 focused_on_3).1 = Ok true.
Proof.
  destruct (keyboard_routing_order focused eager focused_on_3 7%Z 65 0 1 0 97
              [3; 2] [] [3] 1 2 eq_refl eq_refl) as [Hkey Hchar].
  split.
  - by rewrite (proj1 (Hkey _ _ _ eq_refl eq_refl eq_refl)).
  - by rewrite (proj1 (Hchar _ _ _ eq_refl eq_refl eq_refl)).
Defined.

Lemma resize_ignores_zero_size_witness :
  resizeCallbackEvent true int_div_float eager 7%Z 0 0 start = (Ok false, start) /\
  (resizeCallbackEvent true int_div_float eager 7%Z 640 480 start).1 = Ok true.
Proof.
  destruct (resize_ignores_zero_size true int_div_float eager start 7%Z 0 0)
    as [Hzero _].
  destruct (resize_ignores_zero_size true int_div_float eager start 7%Z 640 480)
    as [_ Hsized].
  split.
  - apply Hzero. left. split; reflexivity.
  - destruct Hsized as (_ & _ & ->); [|reflexivity].
    intros [[H _]|[H _]]; vm_compute in H; discriminate.
Defined.

(** A report with a single zero component is not a zero-valued size: it
    is stored and passed on. *)
Example resize_with_zero_width_is_stored :
  (resizeCallbackEvent true int_div_float eager 7%Z 0 480 start).1 = Ok true /\
  mSize (screen (resizeCallbackEvent true int_div_float eager 7%Z 0 480 start).2)
  = Vector2i_make 0 480 /\
  trace (resizeCallbackEvent true int_div_float eager 7%Z 0 480 start).2
  = [ResizeCallback (Vector2i_make 0 480)].
Proof. repeat split; reflexivity. Qed.

Lemma disposeWindow_leaves_drag_active_witness :
  mDragActive (screen (disposeWindow (fun _ wld => wld) 2 dragging).2) = true /\
  mDragWidget (screen (disposeWindow (fun _ wld => wld) 2 dragging).2) = None /\
  (cursorPosCallbackEvent true div_to_int to_int this cursor parent
     absolutePosition findWidget eager 7%Z 160%Z 170%Z
     (disposeWindow (fun _ wld => wld) 2 dragging).2).1 = NullDeref.
Proof.
  destruct (disposeWindow_leaves_drag_active true div_to_int to_int this
              cursor parent absolutePosition findWidget
              (fun _ wld => wld) eager dragging 2 7%Z 160%Z 170%Z
              eq_refl eq_refl) as (_ & _ & Ha & Hw & _ & Hnull).
  auto.
Defined.

(** C10 fails on the code where it says "stored, for every call": with no
    drag going on, the hit test is made at the shifted point (159, 168),
    the motion handler is called there and throws, and the stored mouse
    position is still the old (0, 0). *)
Lemma cursorPos_throw_leaves_point_unstored :
  shifted_point true div_to_int to_int (screen start) 160%Z 170%Z
  = Vector2i_make 159 168 /\
  trace
    (cursorPosCallbackEvent true div_to_int to_int this cursor parent
       absolutePosition findWidget failing 7%Z 160%Z 170%Z start).2
  = [FindWidget (Vector2i_make 159 168);
     MouseMotionEvent this (Vector2i_make 159 168) (Vector2i_make 159 168)
       0 0] /\
  (cursorPosCallbackEvent true div_to_int to_int this cursor parent
     absolutePosition findWidget failing 7%Z 160%Z 170%Z start).1
  = Ok false /\
  mMousePos
    (screen
       (cursorPosCallbackEvent true div_to_int to_int this cursor parent
          absolutePosition findWidget failing 7%Z 160%Z 170%Z start).2)
  = Vector2i_make 0 0.
Proof. repeat split; reflexivity. Qed.

Lemma cursorPos_uses_shifted_point_witness :
  shifted_point true div_to_int to_int (screen dragging) 160%Z 170%Z
  <> logical_point true div_to_int to_int (screen dragging) 160%Z 170%Z /\
  trace
    (cursorPosCallbackEvent true div_to_int to_int this cursor parent
       absolutePosition findWidget eager 7%Z 160%Z 170%Z dragging).2
  = [MouseDragEvent 2 (Vector2i_make 159 168) (Vector2i_make 9 18) 0 0] /\
  Forall
    (delivered_at this parent absolutePosition dragging
       (shifted_point true div_to_int to_int (screen dragging) 160%Z 170%Z))
    (trace
       (cursorPosCallbackEvent true div_to_int to_int this cursor parent
          absolutePosition findWidget eager 7%Z 160%Z 170%Z dragging).2) /\
  mMousePos
    (screen
       (cursorPosCallbackEvent true div_to_int to_int this cursor parent
          absolutePosition findWidget eager 7%Z 160%Z 170%Z dragging).2)
  = shifted_point true div_to_int to_int (screen dragging) 160%Z 170%Z.
Proof.
  destruct (cursorPos_uses_shifted_point true div_to_int to_int this cursor
              parent absolutePosition findWidget eager dragging
              7%Z 160%Z 170%Z) as (_ & Hne & (calls & Htr & Hall & _) & Hstored).
  split; [exact Hne|]. split; [reflexivity|]. split.
  - rewrite Htr. exact Hall.
  - apply (Hstored true); reflexivity.
Defined.


(** **** More of the handlers on the scene *)

(** Every widget declines every event and changes nothing. *)
Definition declining (c : Call Z) (s : ScreenData Z Z) (wld : list Widget)
    : @Outcome Z Z (list Widget) :=
  Returns false s wld.

Definition drawAll : @M Z Z (list Widget) unit := ret tt.
Definition setShouldClose (value : bool) : @M Z Z (list Widget) unit := ret tt.

Lemma eager_keeps_screen : callbacks_keep_screen eager.
Proof.
  intros c s wld.
  by destruct c as [p|w p rel b m|w p rel b m|w p b d m|w p x y|w k sc a m
                    |w cp|w [|]|w fs|sz].
Qed.

Lemma eager_keeps_drag : callbacks_keep_drag eager.
Proof.
  intros c s wld.
  by destruct c as [p|w p rel b m|w p rel b m|w p b d m|w p x y|w k sc a m
                    |w cp|w [|]|w fs|sz].
Qed.

Lemma eager_keeps_mouse_state : callbacks_keep_mouse_state eager.
Proof.
  intros c s wld.
  by destruct c as [p|w p rel b m|w p rel b m|w p b d m|w p x y|w k sc a m
                    |w cp|w [|]|w fs|sz].
Qed.

Lemma failing_keeps_screen : callbacks_keep_screen failing.
Proof. by intros c s w. Qed.

Lemma keyboard_without_focus_witness :
  keyCallbackEvent focused eager 7%Z 65 0 1 0 start
  = (Ok false, with_screen (set_mLastInteraction 7%Z) start) /\
  charCallbackEvent focused eager 7%Z 97 start
  = (Ok false, with_screen (set_mLastInteraction 7%Z) start).
Proof.
  apply (keyboard_without_focus focused eager start 7%Z 65 0 1 0 97).
  left. simpl. lia.
Defined.

Lemma keyboard_all_decline_witness :
  (keyCallbackEvent focused declining 7%Z 65 0 1 0 focused_on_3).1
  = Ok false /\
  trace (keyCallbackEvent focused declining 7%Z 65 0 1 0 focused_on_3).2
  = trace focused_on_3 ++ [KeyboardEvent 2 65 0 1 0; KeyboardEvent 3 65 0 1 0].
Proof.
  rewrite (keyboard_all_decline focused declining focused_on_3 7%Z 65 0 1 0)
    by reflexivity.
  split; reflexivity.
Defined.

(** As [eager], but the [focusEvent(false)] of window 2 throws. *)
Definition throwing_at_2 (c : Call Z) (s : ScreenData Z Z) (wld : list Widget)
    : @Outcome Z Z (list Widget) :=
  match c with
  | FocusEvent 2 false => Throws (StdException "boom") s wld
  | _ => eager c s wld
  end.

Lemma updateFocus_nullptr_witness :
  (updateFocus isWindow isPopup parentWindow focused parent throwing_at_2 0
     None focused_on_3).1
  = Raised (StdException "boom") /\
  trace
    (updateFocus isWindow isPopup parentWindow focused parent throwing_at_2 0
       None focused_on_3).2
  = trace focused_on_3 ++ [FocusEvent 3 false; FocusEvent 2 false] /\
  focused
    (world
       (updateFocus isWindow isPopup parentWindow focused parent
          throwing_at_2 0 None focused_on_3).2) 1
  = true /\
  mFocusPath
    (screen
       (updateFocus isWindow isPopup parentWindow focused parent
          throwing_at_2 0 None focused_on_3).2)
  = [3; 2; 1].
Proof.
  rewrite (proj2 (proj2 (updateFocus_nullptr isWindow isPopup parentWindow
                           focused parent throwing_at_2 0 focused_on_3))
             [3] 2 [1]
             (unfocus_all focused throwing_at_2 [3] focused_on_3).2
             (StdException "boom")
             (screen focused_on_3)
             (world (unfocus_all focused throwing_at_2 [3] focused_on_3).2)
             eq_refl eq_refl eq_refl eq_refl).
  repeat split; reflexivity.
Defined.

Lemma entry_points_keep_drag_invariant_witness :
  drag_invariant (screen dragging) /\
  drag_invariant
    (screen
       (mouseButtonCallbackEvent this isWindow isPopup parentWindow focused
          modal contains cursor parent absolutePosition findWidget eager
          7%Z 1 0 0 dragging).2).
Proof.
  assert (drag_invariant (screen dragging)) as Hinv by (intros _; discriminate).
  split; [exact Hinv|].
  destruct (entry_points_keep_drag_invariant true div_to_int to_int
              int_div_float this isWindow isPopup parentWindow focused modal
              contains cursor parent absolutePosition findWidget eager
              eager_keeps_drag 7%Z 0%Z 0%Z 1 0 0 65 0 97 640 480 ["a.txt"] 3
              None) as (_ & Hbutton & _).
  exact (Hbutton dragging Hinv).
Defined.

Lemma updateFocus_builds_path_witness :
  mFocusPath (screen focused_on_3) = [3; 2; 1] /\
  trace focused_on_3 = [FocusEvent 1 true; FocusEvent 2 true; FocusEvent 3 true] /\
  ZOrder.moveWindowToFront isPopup parentWindow 3 2 [2]
  = Some (mChildren (screen focused_on_3)).
Proof.
  apply (updateFocus_builds_path isWindow isPopup parentWindow focused parent
           eager eager_keeps_screen 3 3 start [3; 2; 1]); reflexivity.
Defined.

Lemma mouseButton_never_drags_screen_witness :
  mDragWidget (screen start) <> Some this /\
  mDragWidget
    (screen
       (mouseButtonCallbackEvent this isWindow isPopup parentWindow focused
          modal contains cursor parent absolutePosition findWidget eager
          7%Z 1 1 0 start).2)
  <> Some this.
Proof.
  assert (mDragWidget (screen start) <> Some this) as Hstart by discriminate.
  split; [exact Hstart|].
  exact (mouseButton_never_drags_screen this isWindow isPopup parentWindow
           focused modal contains cursor parent absolutePosition findWidget
           eager eager_keeps_drag start 7%Z 1 1 0 Hstart).
Defined.

Lemma mouseButton_ends_drag_witness :
  mDragActive (screen dragging) = true /\
  mDragActive
    (screen
       (mouseButtonCallbackEvent this isWindow isPopup parentWindow focused
          modal contains cursor parent absolutePosition findWidget eager
          7%Z 1 0 0 dragging).2)
  = false /\
  mDragWidget
    (screen
       (mouseButtonCallbackEvent this isWindow isPopup parentWindow focused
          modal contains cursor parent absolutePosition findWidget eager
          7%Z 1 0 0 dragging).2)
  = None.
Proof.
  split; [reflexivity|].
  apply (mouseButton_ends_drag this isWindow isPopup parentWindow focused
           modal contains cursor parent absolutePosition findWidget eager
           eager_keeps_drag dragging 7%Z 1 0 0 true); reflexivity.
Defined.

Lemma mouseButton_records_button_witness :
  Z.testbit (mMouseState (screen start)) 1 = false /\
  Z.testbit
    (mMouseState
       (screen
          (mouseButtonCallbackEvent this isWindow isPopup parentWindow
             focused modal contains cursor parent absolutePosition findWidget
             eager 7%Z 1 1 0 start).2)) 1
  = true.
Proof.
  split; [reflexivity|].
  apply (mouseButton_records_button this isWindow isPopup parentWindow
           focused modal contains cursor parent absolutePosition findWidget
           eager eager_keeps_mouse_state start 7%Z 1 1 0 1);
    [lia | reflexivity | lia].
Defined.

Lemma onEvent_input_keeps_std_exceptions_witness :
  (keyCallbackEvent focused failing 7%Z 97 38 1 0 focused_on_3).1 = Ok false /\
  (onEvent true div_to_int to_int this isWindow isPopup parentWindow focused
     modal contains cursor parent absolutePosition findWidget failing
     drawAll setShouldClose 7%Z 8%Z (PUGL_KEY_PRESS 0 97 38 0)
     focused_on_3).1
  <> Raised (StdException "boom").
Proof.
  split; [reflexivity|].
  apply (onEvent_input_keeps_std_exceptions true div_to_int to_int this
           isWindow isPopup parentWindow focused modal contains cursor parent
           absolutePosition findWidget failing drawAll setShouldClose
           7%Z 8%Z (PUGL_KEY_PRESS 0 97 38 0) focused_on_3 "boom").
  reflexivity.
Defined.

Lemma onEvent_configure_witness :
  screen
    (onEvent true div_to_int to_int this isWindow isPopup parentWindow
       focused modal contains cursor parent absolutePosition findWidget
       failing drawAll setShouldClose 7%Z 8%Z (PUGL_CONFIGURE 640 480)
       start).2
  = screen start /\
  (onEvent true div_to_int to_int this isWindow isPopup parentWindow focused
     modal contains cursor parent absolutePosition findWidget failing
     drawAll setShouldClose 7%Z 8%Z (PUGL_CONFIGURE 640 480) start).1
  = Raised (StdException "boom").
Proof.
  destruct (onEvent_configure true div_to_int to_int this isWindow isPopup
              parentWindow focused modal contains cursor parent
              absolutePosition findWidget failing drawAll setShouldClose
              7%Z 8%Z 640 480 start failing_keeps_screen)
    as (Hscreen & _ & Hthrows).
  split; [exact Hscreen|].
  apply (Hthrows (StdException "boom") (screen start) (world start));
    reflexivity.
Defined.

End Scene.

End Screen.
